(** * CGM data analysis: glucose statistics, plotting and the batch driver

    A shallow embedding of [CGM Data Analysis/output_graph.py].

    - Floating-point results are binary64 values: finite ones are the
      rationals they denote, and every arithmetic operation is the exact
      operation followed by rounding to nearest, ties to even, with
      subnormals and overflow to an infinity ([round64]).  The sign of a
      zero is not kept: a zero divisor is taken as [+0.0].
    - A column holds exact numbers: a float64 column the rationals its
      binary64 values denote ([None] is NaN; infinite entries are outside
      the model), an int64 column its integers.  Where pandas or numpy
      convert an integer to float64 the model rounds.
    - The reductions follow the algorithms of pandas and numpy: pairwise
      summation for [mean] and [std], [numpy]'s linear interpolation for
      [quantile].
    - Data frames are objects on a heap, so that [data.copy()] and the
      column assignments of the plotter act on references as in Python.
    - The file system, the open pyplot figures and the console are fields of
      a [world]; code with effects runs in a state monad with exceptions. *)

From Stdlib Require Import QArith Qround Qabs Qpower Qreduction Psatz ZArith List String Ascii.
From Stdlib Require Import Sorting.Sorted Floats Uint63.
From stdpp Require Import gmap strings list pretty.

Open Scope Q_scope.

(** ** Binary64 arithmetic *)

(** A float64: a finite value, an infinity or NaN. *)
Inductive f64 (A : Type) : Type :=
| Fin (x : A)
| PInf
| NInf
| NaN.
Arguments Fin {A} x.
Arguments PInf {A}.
Arguments NInf {A}.
Arguments NaN {A}.

Definition float64 : Type := f64 Q.

Definition pow2 (e : Z) : Q := 2 ^ e.

(** [floor (log2 x)] of a positive rational. *)
Definition Qlog2 (x : Q) : Z :=
  let l := (Z.log2 (Qnum x) - Z.log2 (Zpos (Qden x)))%Z in
  if Qle_bool (pow2 l) x then l else (l - 1)%Z.

(** The nearest integer, a tie going to the even one. *)
Definition round_half_even (y : Q) : Z :=
  let f := Qfloor y in
  match Qcompare (y - inject_Z f) (1 # 2) with
  | Lt => f
  | Gt => (f + 1)%Z
  | Eq => if Z.even f then f else (f + 1)%Z
  end.

(** The nearest multiple of [2 ^ e]. *)
Definition round_to (e : Z) (x : Q) : Q :=
  inject_Z (round_half_even (x / pow2 e)) * pow2 e.

(** The exponent of the last place of the binary64 values around [x]: 53
    bits of precision, and the subnormal spacing [2 ^ -1074] below
    [2 ^ -1022]. *)
Definition quantum (x : Q) : Z := Z.max (Qlog2 (Qabs x) - 52) (-1074).

(** Rounding to nearest, ties to even, before the overflow test. *)
Definition round_fin (x : Q) : Q :=
  if Qeq_bool x 0 then 0 else Qred (round_to (quantum x) x).

(** A rational is a binary64 value when rounding leaves it as it is. *)
Definition representable (x : Q) : Prop := round_fin x == x.

Definition max_float : Q := (pow2 53 - 1) * pow2 971.

(** The relative error of a rounding, and the absolute error of a rounding
    to a subnormal. *)
Definition unit_roundoff : Q := pow2 (-53).
Definition half_min : Q := pow2 (-1075).

Definition is_neg (x : Q) : bool := negb (Qle_bool 0 x).

Definition inf_of (negative : bool) : float64 := if negative then NInf else PInf.

(** The binary64 result of an operation whose exact result is [x]. *)
Definition round64 (x : Q) : float64 :=
  let r := round_fin x in
  if Qle_bool (Qabs r) max_float then Fin r else inf_of (is_neg x).

Definition b64_neg (a : float64) : float64 :=
  match a with
  | Fin x => Fin (- x)
  | PInf => NInf
  | NInf => PInf
  | NaN => NaN
  end.

Definition b64_add (a b : float64) : float64 :=
  match a, b with
  | NaN, _ | _, NaN => NaN
  | PInf, NInf | NInf, PInf => NaN
  | PInf, _ | _, PInf => PInf
  | NInf, _ | _, NInf => NInf
  | Fin x, Fin y => round64 (x + y)
  end.

Definition b64_sub (a b : float64) : float64 := b64_add a (b64_neg b).

Definition b64_mul (a b : float64) : float64 :=
  match a, b with
  | NaN, _ | _, NaN => NaN
  | Fin x, Fin y => round64 (x * y)
  | Fin x, PInf | PInf, Fin x => if Qeq_bool x 0 then NaN else inf_of (is_neg x)
  | Fin x, NInf | NInf, Fin x => if Qeq_bool x 0 then NaN else inf_of (negb (is_neg x))
  | PInf, PInf | NInf, NInf => PInf
  | PInf, NInf | NInf, PInf => NInf
  end.

(** numpy's float64 division: a zero divisor gives an infinity, or NaN for
    a zero dividend, and raises nothing. *)
Definition b64_div (a b : float64) : float64 :=
  match a, b with
  | NaN, _ | _, NaN => NaN
  | Fin x, Fin y =>
      if Qeq_bool y 0 then (if Qeq_bool x 0 then NaN else inf_of (is_neg x))
      else round64 (x / y)
  | Fin _, _ => Fin 0
  | PInf, Fin y => inf_of (is_neg y)
  | NInf, Fin y => inf_of (negb (is_neg y))
  | _, _ => NaN
  end.

(** The nearest integer to the square root of [y >= 0], ties to even. *)
Definition round_sqrt (y : Q) : Z :=
  let f := Z.sqrt (Qfloor y) in
  let h := inject_Z f + (1 # 2) in
  match Qcompare y (h * h) with
  | Lt => f
  | Gt => (f + 1)%Z
  | Eq => if Z.even f then f else (f + 1)%Z
  end.

(** The correctly rounded square root of a positive rational. *)
Definition sqrt_fin (x : Q) : Q :=
  if Qle_bool x 0 then 0
  else
    let e := Z.max (Qlog2 x / 2 - 52) (-1074) in
    Qred (inject_Z (round_sqrt (x / pow2 (2 * e))) * pow2 e).

Definition b64_sqrt (a : float64) : float64 :=
  match a with
  | Fin x => if is_neg x then NaN else Fin (sqrt_fin x)
  | PInf => PInf
  | _ => NaN
  end.

(** [<=] of two float64, False as soon as one of them is NaN. *)
Definition b64_le (a b : float64) : bool :=
  match a, b with
  | NaN, _ | _, NaN => false
  | NInf, _ | _, PInf => true
  | Fin x, Fin y => Qle_bool x y
  | _, _ => false
  end.

Definition Qnat (n : nat) : Q := inject_Z (Z.of_nat n).

(** ** numpy's sum of a float64 array *)

Section Summation.

(** The order of the additions, for any addition [add]; [nan] stands for a
    result that cannot arise. *)
Context {A : Type} (add : A -> A -> A) (zero nan : A).

(** The eight running sums of an unrolled block, fed [blocks] more groups
    of eight values. *)
Fixpoint lanes (blocks : nat) (r xs : list A) : list A * list A :=
  match blocks with
  | O => (r, xs)
  | S k => lanes k (zip_with add r (firstn 8 xs)) (skipn 8 xs)
  end.

Definition sum_lanes (r : list A) : A :=
  match r with
  | [r0; r1; r2; r3; r4; r5; r6; r7] =>
      add (add (add r0 r1) (add r2 r3)) (add (add r4 r5) (add r6 r7))
  | _ => nan
  end.

(** Up to 128 values: fewer than eight are added from left to right; more
    are added in eight interleaved running sums, which are then combined in
    pairs, and the values left over are added one by one. *)
Definition sum_block (xs : list A) : A :=
  if (length xs <? 8)%nat then fold_left add xs zero
  else
    let '(r, rest) := lanes (length xs / 8 - 1) (firstn 8 xs) (skipn 8 xs) in
    fold_left add rest (sum_lanes r).

(** More than 128 values are split in two halves, the first of a length
    divisible by eight, and the halves are summed in the same way. *)
Fixpoint pairwise_sum (fuel : nat) (xs : list A) : A :=
  match fuel with
  | O => sum_block xs
  | S fuel' =>
      if (length xs <=? 128)%nat then sum_block xs
      else
        let n2 := (length xs / 2 - (length xs / 2) mod 8)%nat in
        add (pairwise_sum fuel' (firstn n2 xs)) (pairwise_sum fuel' (skipn n2 xs))
  end.

Definition array_sum (xs : list A) : A := pairwise_sum (length xs) xs.

End Summation.

(** [values.sum()] of a float64 array (numpy's pairwise summation, which
    pandas uses unless the optional bottleneck package replaces it). *)
Definition np_sum (xs : list float64) : float64 := array_sum b64_add (Fin 0) NaN xs.

(** ** pandas Series *)

(** [Series.dropna()]: the readings that are present. *)
Fixpoint dropna (xs : list (option Q)) : list Q :=
  match xs with
  | [] => []
  | Some x :: xs' => x :: dropna xs'
  | None :: xs' => dropna xs'
  end.

(** The float64 array a reduction sums: a reading as the float64 it
    converts to, and 0 in the place of a missing one. *)
Definition fill0 (xs : list (option Q)) : list float64 :=
  map (fun x => match x with Some v => Fin (round_fin v) | None => Fin 0 end) xs.

(** [Series.mean()], skipna=True: the sum of the readings that are present
    divided by their number; NaN when no reading is present. *)
Definition series_mean (xs : list (option Q)) : float64 :=
  match length (dropna xs) with
  | O => NaN
  | c => b64_div (np_sum (fill0 xs)) (Fin (Qnat c))
  end.

(** The squared deviations [(avg - values) ** 2], 0 in the place of a
    missing reading. *)
Definition sq_devs (avg : float64) (xs : list (option Q)) : list float64 :=
  map (fun x => match x with
                | Some v => let d := b64_sub avg (Fin (round_fin v)) in b64_mul d d
                | None => Fin 0
                end) xs.

(** [Series.var()], ddof=1: NaN unless at least two readings are present. *)
Definition series_var (xs : list (option Q)) : float64 :=
  match length (dropna xs) with
  | O | 1%nat => NaN
  | c =>
      let avg := b64_div (np_sum (fill0 xs)) (Fin (Qnat c)) in
      b64_div (np_sum (sq_devs avg xs)) (Fin (Qnat (c - 1)))
  end.

(** [Series.std()], ddof=1: the square root of the sample variance. *)
Definition series_std (xs : list (option Q)) : float64 := b64_sqrt (series_var xs).

Fixpoint insert_sorted (x : Q) (ys : list Q) : list Q :=
  match ys with
  | [] => [x]
  | y :: ys' => if Qle_bool x y then x :: y :: ys' else y :: insert_sorted x ys'
  end.

Fixpoint sort (xs : list Q) : list Q :=
  match xs with
  | [] => []
  | x :: xs' => insert_sorted x (sort xs')
  end.

(** An int64 result, wrapped around as numpy's integer arithmetic does. *)
Definition wrap64 (z : Z) : Z := ((z + 2 ^ 63) mod 2 ^ 64 - 2 ^ 63)%Z.

(** [b - a] as numpy's [_lerp] gets it: of two float64 in float64, of two
    int64 in int64 and then converted. *)
Definition lerp_diff (ints : bool) (a b : Q) : float64 :=
  if ints then round64 (inject_Z (wrap64 (Qfloor b - Qfloor a)))
  else b64_sub (Fin (round_fin b)) (Fin (round_fin a)).

(** numpy's linear interpolation between two neighbouring order statistics:
    [a + (b - a) * t], and [b - (b - a) * (1 - t)] from [t = 0.5] on. *)
Definition lerp (ints : bool) (a b t : Q) : float64 :=
  let d := lerp_diff ints a b in
  if Qle_bool (1 # 2) t
  then b64_sub (Fin (round_fin b)) (b64_mul d (round64 (1 - t)))
  else b64_add (Fin (round_fin a)) (b64_mul d (Fin t)).

(** [np.percentile(values, 100 * q, method="linear")] on a non-empty array
    of [n] values: the virtual index is [(n - 1) * q] in float64, its
    neighbours are [floor] of it and the next index, clipped to the array. *)
Definition virtual_index (n : nat) (q : Q) : Q :=
  round_fin (round_fin (Qnat (n - 1)) * q).

Definition previous_index (n : nat) (q : Q) : nat :=
  Z.to_nat (Qfloor (virtual_index n q)).

Definition percentile (ints : bool) (q : Q) (ys : list Q) : float64 :=
  let s := sort ys in
  let n := length s in
  let previous := previous_index n q in
  let next := Nat.min (previous + 1) (n - 1) in
  let gamma := virtual_index n q - Qnat previous in
  lerp ints (nth previous s 0) (nth next s 0) gamma.

(** The quantile as [np.percentile] receives it: pandas passes [q * 100.0]
    and numpy divides by 100. *)
Definition percentile_rank (q : Q) : Q :=
  round_fin (round_fin (round_fin q * 100) / 100).

(** [Series.quantile(q)], interpolation="linear": NaN readings are dropped,
    and the quantile of no readings is NaN.  [ints] tells an int64 column,
    whose values numpy interpolates without converting them first. *)
Definition series_quantile (ints : bool) (q : Q) (xs : list (option Q)) : float64 :=
  match dropna xs with
  | [] => NaN
  | ys => percentile ints (percentile_rank q) ys
  end.

Definition Qmin (a b : Q) : Q := if Qle_bool a b then a else b.
Definition Qmax (a b : Q) : Q := if Qle_bool a b then b else a.

(** [Series.min()] and [Series.max()], skipna=True: one of the readings,
    as it is. *)
Definition series_min (xs : list (option Q)) : float64 :=
  match dropna xs with
  | [] => NaN
  | y :: ys => Fin (fold_left Qmin ys y)
  end.

Definition series_max (xs : list (option Q)) : float64 :=
  match dropna xs with
  | [] => NaN
  | y :: ys => Fin (fold_left Qmax ys y)
  end.

(** [series * k] on a float64 Series *)
Definition scale_series (k : Q) (xs : list (option Q)) : list (option Q) :=
  map (option_map (fun x => round_fin (k * x))) xs.

(** Elementwise comparisons of a Series with a scalar; every comparison
    with NaN is False. *)
Definition ge_scalar (c : Q) (x : option Q) : bool :=
  match x with Some v => Qle_bool c v | None => false end.
Definition le_scalar (c : Q) (x : option Q) : bool :=
  match x with Some v => Qle_bool v c | None => false end.
Definition gt_scalar (c : Q) (x : option Q) : bool :=
  match x with Some v => negb (Qle_bool v c) | None => false end.
Definition lt_scalar (c : Q) (x : option Q) : bool :=
  match x with Some v => negb (Qle_bool c v) | None => false end.

(** Number of True entries of a boolean mask: [len(data[mask])]. *)
Fixpoint count_true (mask : list bool) : nat :=
  match mask with
  | [] => 0%nat
  | b :: mask' => ((if b then 1 else 0) + count_true mask')%nat
  end.

(** [k / n * 100] on Python ints, for [n <> 0]: the correctly rounded
    quotient of the two ints, then a float64 product. *)
Definition percent (k n : nat) : Q := round_fin (round_fin (Qnat k / Qnat n) * 100).

(** The same expression on Rocq's primitive binary64 floats. *)
Definition percent_binary64 (k n : int) : float :=
  PrimFloat.mul (PrimFloat.div (PrimFloat.of_uint63 k) (PrimFloat.of_uint63 n))
                (PrimFloat.of_uint63 100%uint63).

(** ** Exceptions *)

Inductive exn : Type :=
| KeyError (key : string)
| IndexError
| ZeroDivisionError
| TypeError
| ValueError
| AttributeError
| FileNotFoundError (path : string)
| FileExistsError (path : string)
| IsADirectoryError (path : string)
| NotADirectoryError (path : string)
| ReferenceError.

(** Outcome of a call: a returned value or a raised exception. *)
Inductive result (A : Type) : Type :=
| Return (a : A)
| Raise (e : exn).
Arguments Return {A} a.
Arguments Raise {A} e.

Definition result_bind {A B : Type} (r : result A) (k : A -> result B) : result B :=
  match r with
  | Return a => k a
  | Raise e => Raise e
  end.

Notation "'let?' x ':=' c 'in' k" := (result_bind c (fun x => k))
  (at level 10, x pattern, c at level 100, k at level 200).

(** ** Data frames *)

(** A column with its dtype: int64, float64 (NaN is [None]), object holding
    str, datetime64[ns] (nanoseconds since the epoch, NaT is [None]) and
    object holding [datetime.date] (days since the epoch). *)
Inductive column : Type :=
| IntCol (xs : list Z)
| FloatCol (xs : list (option Q))
| StrCol (xs : list string)
| TimeCol (xs : list (option Z))
| DateCol (xs : list (option Z)).

(** One element of a column. *)
Inductive scalar : Type :=
| SInt (z : Z)
| SFloat (x : option Q)
| SStr (s : string)
| STime (t : option Z)
| SDate (d : option Z).

(** [len(data)] and the columns by name. *)
Record DataFrame : Type := Frame { nrows : nat; cols : gmap string column }.



(** [data[key]] *)
Definition getitem (data : DataFrame) (key : string) : result column :=
  match cols data !! key with
  | Some c => Return c
  | None => Raise (KeyError key)
  end.

(** The numbers of a column as reductions and comparisons read them, NaN
    as [None]; an object column raises.  The integers of an int64 column
    are kept exact here: each reduction converts them where numpy does. *)
Definition to_float (c : column) : result (list (option Q)) :=
  match c with
  | IntCol xs => Return (map (fun z => Some (inject_Z z)) xs)
  | FloatCol xs => Return xs
  | _ => Raise TypeError
  end.

Definition scalars (c : column) : list scalar :=
  match c with
  | IntCol xs => map SInt xs
  | FloatCol xs => map SFloat xs
  | StrCol xs => map SStr xs
  | TimeCol xs => map STime xs
  | DateCol xs => map SDate xs
  end.

(** [series.values[0]] *)
Definition values0 (c : column) : result scalar :=
  match scalars c with
  | v :: _ => Return v
  | [] => Raise IndexError
  end.

Definition opt_eqb {A : Type} (eqb : A -> A -> bool) (a b : option A) : bool :=
  match a, b with
  | Some x, Some y => eqb x y
  | _, _ => false
  end.

(** [==] on scalars: NaN and NaT are equal to nothing. *)
Definition scalar_eqb (a b : scalar) : bool :=
  match a, b with
  | SInt x, SInt y => Z.eqb x y
  | SInt x, SFloat y => opt_eqb Qeq_bool (Some (inject_Z x)) y
  | SFloat x, SInt y => opt_eqb Qeq_bool x (Some (inject_Z y))
  | SFloat x, SFloat y => opt_eqb Qeq_bool x y
  | SStr x, SStr y => String.eqb x y
  | STime x, STime y => opt_eqb Z.eqb x y
  | SDate x, SDate y => opt_eqb Z.eqb x y
  | _, _ => false
  end.

Definition is_missing (a : scalar) : bool :=
  match a with
  | SFloat None | STime None | SDate None => true
  | _ => false
  end.

(** Identity used by [unique()]: as [==], and all missing values are one. *)
Definition scalar_same (a b : scalar) : bool :=
  scalar_eqb a b || (is_missing a && is_missing b).

(** [series.unique()]: distinct values in first-seen order. *)
Fixpoint unique_from (seen : list scalar) (xs : list scalar) : list scalar :=
  match xs with
  | [] => []
  | x :: xs' =>
      if existsb (scalar_same x) seen then unique_from seen xs'
      else x :: unique_from (x :: seen) xs'
  end.

Definition unique (c : column) : list scalar := unique_from [] (scalars c).

(** [series == value] *)
Definition eq_mask (c : column) (v : scalar) : list bool :=
  map (fun x => scalar_eqb x v) (scalars c).

Fixpoint select {A : Type} (mask : list bool) (xs : list A) : list A :=
  match mask, xs with
  | b :: mask', x :: xs' => if b then x :: select mask' xs' else select mask' xs'
  | _, _ => []
  end.

Definition select_col (mask : list bool) (c : column) : column :=
  match c with
  | IntCol xs => IntCol (select mask xs)
  | FloatCol xs => FloatCol (select mask xs)
  | StrCol xs => StrCol (select mask xs)
  | TimeCol xs => TimeCol (select mask xs)
  | DateCol xs => DateCol (select mask xs)
  end.

(** [data[mask]]: a new frame with the rows where the mask is True. *)
Definition select_rows (data : DataFrame) (mask : list bool) : DataFrame :=
  Frame (count_true mask) (select_col mask <$> cols data).

(** The numbers of [data['blood_glucose_value']]. *)
Definition glucose_of (data : DataFrame) : result (list (option Q)) :=
  let? c := getitem data "blood_glucose_value" in to_float c.

(** Whether the glucose column is an int64 column. *)
Definition int_dtype (data : DataFrame) : bool :=
  match cols data !! "blood_glucose_value" with
  | Some (IntCol _) => true
  | _ => false
  end.

(** ** The range calculator *)

Definition glucose_ranges : Type := (float64 * float64 * float64 * float64)%type.

Definition calculate_glucose_ranges (data : DataFrame) : result glucose_ranges :=
  let? low_value :=
    (let? xs := glucose_of data in
     Return (series_quantile (int_dtype data) (5 # 100) xs)) in
  let? high_value :=
    (let? xs := glucose_of data in
     Return (series_quantile (int_dtype data) (95 # 100) xs)) in
  let? bg_min :=
    (let? xs := glucose_of data in Return (series_min xs)) in
  let? bg_max :=
    (let? xs := glucose_of data in Return (series_max xs)) in
  Return (low_value, high_value, bg_min, bg_max).

(** ** The analysis calculator *)

(** [(std_dev / mean) * 100] on numpy float64: NaN operands give NaN, and a
    zero mean gives NaN for a zero deviation and an infinity otherwise. *)
Definition cv_of (std_dev mean : float64) : float64 :=
  b64_mul (b64_div std_dev mean) (Fin 100).

(** [len(selected) / len(data) * 100] *)
Definition len_ratio_percent (k n : nat) : result Q :=
  match n with
  | O => Raise ZeroDivisionError
  | _ => Return (percent k n)
  end.

Definition in_range_mask (low_range high_range : Q) (xs : list (option Q)) : list bool :=
  map (fun x => ge_scalar low_range x && le_scalar high_range x) xs.
Definition above_mask (high_range : Q) (xs : list (option Q)) : list bool :=
  map (gt_scalar high_range) xs.
Definition below_mask (low_range : Q) (xs : list (option Q)) : list bool :=
  map (lt_scalar low_range) xs.

Definition glucose_analysis : Type :=
  (float64 * float64 * float64 * Q * Q * Q)%type.

Definition calculate_glucose_analysis (data : DataFrame) (low_range high_range : Q)
  : result glucose_analysis :=
  let? mean_blood_glucose :=
    (let? xs := glucose_of data in Return (series_mean xs)) in
  let? std_dev :=
    (let? xs := glucose_of data in Return (series_std xs)) in
  let cv_percent := cv_of std_dev mean_blood_glucose in
  let? tir_percent :=
    (let? xs := glucose_of data in
     len_ratio_percent (count_true (in_range_mask low_range high_range xs)) (nrows data)) in
  let? tar_percent :=
    (let? xs := glucose_of data in
     len_ratio_percent (count_true (above_mask high_range xs)) (nrows data)) in
  let? tbr_percent :=
    (let? xs := glucose_of data in
     len_ratio_percent (count_true (below_mask low_range xs)) (nrows data)) in
  Return (mean_blood_glucose, std_dev, cv_percent, tir_percent, tar_percent, tbr_percent).


(** The default clinical bounds of the analysis calculator. *)
Definition default_low_range : Q := 70.
Definition default_high_range : Q := 140.

(** ** Paths ([posixpath]) *)

Definition is_sep (c : ascii) : bool := Ascii.eqb c "/".

Definition starts_with_sep (s : string) : bool :=
  match s with
  | String c _ => is_sep c
  | EmptyString => false
  end.

Fixpoint ends_with_sep (s : string) : bool :=
  match s with
  | EmptyString => false
  | String c s' =>
      match s' with
      | EmptyString => is_sep c
      | _ => ends_with_sep s'
      end
  end.

(** [os.path.join(a, b)] *)
Definition os_path_join (a b : string) : string :=
  if starts_with_sep b then b
  else if String.eqb a "" || ends_with_sep a then a +:+ b
  else a +:+ "/" +:+ b.

(** The part of a path up to and including its last separator, and the
    part after it. *)
Fixpoint split_last_sep (p : string) : option string * string :=
  match p with
  | EmptyString => (None, EmptyString)
  | String c p' =>
      match split_last_sep p' with
      | (Some h, t) => (Some (String c h), t)
      | (None, t) => if is_sep c then (Some (String c EmptyString), t)
                     else (None, String c t)
      end
  end.

(** [s.rstrip("/")] *)
Fixpoint rstrip_sep (s : string) : string :=
  match s with
  | EmptyString => EmptyString
  | String c s' =>
      match rstrip_sep s' with
      | EmptyString => if is_sep c then EmptyString else String c EmptyString
      | r => String c r
      end
  end.

(** [os.path.split(p)]: trailing separators are stripped from the head
    unless it consists of separators only. *)
Definition os_path_split (p : string) : string * string :=
  match split_last_sep p with
  | (None, t) => (EmptyString, t)
  | (Some h, t) =>
      match rstrip_sep h with
      | EmptyString => (h, t)
      | h' => (h', t)
      end
  end.

Definition os_path_dirname (p : string) : string := fst (os_path_split p).

(** ** The world: frame objects, files, pyplot figures, console *)

(** A draw call recorded on a figure.  The title and the text box are kept
    as the values their f-strings format. *)
Inductive artist : Type :=
| Suptitle (pid : scalar) (bg_min bg_max low_value high_value : float64)
           (study_group : scalar)
| Plot (x y : column) (label : scalar) (color : Q)
| Text (pid : scalar) (analysis : glucose_analysis)
| XLabel (s : string)
| YLabel (s : string)
| Title (s : string)
| Legend (title : string)
| XTicks (rotation : Z)
| TightLayout.

(** A figure is the sequence of its draw calls. *)
Definition figure : Type := list artist.

(** A directory, or a regular file holding a CSV table or a saved figure. *)
Inductive node : Type :=
| Dir
| CsvFile (table : DataFrame)
| PngFile (image : figure).

(** [figures] are the open pyplot figures by number, oldest first; the
    current figure is the last one. *)
Record world : Type := World {
  heap : gmap nat DataFrame;
  fs : gmap string node;
  figures : list (nat * figure);
  stdout : list string }.

Definition set_heap (h : gmap nat DataFrame) (w : world) : world :=
  World h (fs w) (figures w) (stdout w).
Definition set_fs (f : gmap string node) (w : world) : world :=
  World (heap w) f (figures w) (stdout w).
Definition set_figures (g : list (nat * figure)) (w : world) : world :=
  World (heap w) (fs w) g (stdout w).
Definition set_stdout (o : list string) (w : world) : world :=
  World (heap w) (fs w) (figures w) o.

(** Computations with effects: the world is threaded through, and kept as it
    is at the point of a raise. *)
Definition M (A : Type) : Type := world -> result A * world.

Definition ret {A : Type} (a : A) : M A := fun w => (Return a, w).
Definition raise {A : Type} (e : exn) : M A := fun w => (Raise e, w).
Definition lift {A : Type} (r : result A) : M A := fun w => (r, w).

Definition bind {A B : Type} (c : M A) (k : A -> M B) : M B :=
  fun w =>
    match c w with
    | (Return a, w') => k a w'
    | (Raise e, w') => (Raise e, w')
    end.

Notation "'let*' x ':=' c 'in' k" := (bind c (fun x => k))
  (at level 10, x pattern, c at level 100, k at level 200).
Notation "c ;; k" := (bind c (fun _ => k))
  (at level 100, k at level 200, right associativity).

(** [for x in xs: body(x)] *)
Fixpoint for_each {A : Type} (xs : list A) (body : A -> M unit) : M unit :=
  match xs with
  | [] => ret tt
  | x :: xs' => body x ;; for_each xs' body
  end.

(** *** Frame objects *)

Definition new_frame (df : DataFrame) : M nat :=
  fun w =>
    let l := fresh (dom (heap w)) in
    (Return l, set_heap (<[l := df]> (heap w)) w).

Definition read_frame (l : nat) : M DataFrame :=
  fun w =>
    match heap w !! l with
    | Some df => (Return df, w)
    | None => (Raise ReferenceError, w)
    end.

(** [data[key] = c], in place *)
Definition setitem (l : nat) (key : string) (c : column) : M unit :=
  fun w =>
    match heap w !! l with
    | Some df =>
        (Return tt,
         set_heap (<[l := Frame (nrows df) (<[key := c]> (cols df))]> (heap w)) w)
    | None => (Raise ReferenceError, w)
    end.

(** [data[key]] through a reference *)
Definition column_of (l : nat) (key : string) : M column :=
  let* df := read_frame l in lift (getitem df key).

(** *** pyplot *)

Definition next_num (figs : list (nat * figure)) : nat :=
  S (fold_right Nat.max 0%nat (map fst figs)).

(** [plt.subplots()]: a new figure, which becomes the current one. *)
Definition plt_subplots : M nat :=
  fun w =>
    let n := next_num (figures w) in
    (Return n, set_figures (figures w ++ [(n, [])]) w).

Definition add_artist (n : nat) (a : artist) (figs : list (nat * figure))
  : list (nat * figure) :=
  map (fun '(k, f) => if Nat.eqb k n then (k, f ++ [a]) else (k, f)) figs.

(** A method of the figure or of its axes. *)
Definition draw (n : nat) (a : artist) : M unit :=
  fun w => (Return tt, set_figures (add_artist n a (figures w)) w).

(** [plt.gcf()]: the current figure, created when there is none. *)
Definition plt_gcf : M nat :=
  fun w =>
    match last (figures w) with
    | Some (n, _) => (Return n, w)
    | None => plt_subplots w
    end.

(** A pyplot function acting on the current figure. *)
Definition plt_draw (a : artist) : M unit :=
  let* n := plt_gcf in draw n a.

Definition lookup_figure (n : nat) (figs : list (nat * figure)) : figure :=
  match List.find (fun '(k, _) => Nat.eqb k n) figs with
  | Some (_, f) => f
  | None => []
  end.

(** [plt.savefig(path)]: writes the current figure, replacing a file of that
    name; the directory of the path has to exist. *)
Definition plt_savefig (path : string) : M unit :=
  let* n := plt_gcf in
  fun w =>
    match fs w !! path with
    | Some Dir => (Raise (IsADirectoryError path), w)
    | _ =>
        let d := os_path_dirname path in
        let image := PngFile (lookup_figure n (figures w)) in
        if String.eqb d "" then (Return tt, set_fs (<[path := image]> (fs w)) w)
        else match fs w !! d with
             | Some Dir => (Return tt, set_fs (<[path := image]> (fs w)) w)
             | Some _ => (Raise (NotADirectoryError path), w)
             | None => (Raise (FileNotFoundError path), w)
             end
    end.

(** [plt.close(fig)] *)
Definition plt_close (n : nat) : M unit :=
  fun w =>
    (Return tt,
     set_figures (List.filter (fun '(k, _) => negb (Nat.eqb k n)) (figures w)) w).


(** *** Files and console *)

Definition os_path_exists (p : string) : M bool :=
  fun w => (Return (bool_decide (is_Some (fs w !! p))), w).

Definition os_mkdir (p : string) : M unit :=
  fun w =>
    match fs w !! p with
    | Some _ => (Raise (FileExistsError p), w)
    | None =>
        let d := os_path_dirname p in
        if String.eqb d "" then (Return tt, set_fs (<[p := Dir]> (fs w)) w)
        else match fs w !! d with
             | Some Dir => (Return tt, set_fs (<[p := Dir]> (fs w)) w)
             | Some _ => (Raise (NotADirectoryError p), w)
             | None => (Raise (FileNotFoundError p), w)
             end
    end.

(** [os.makedirs(name, exist_ok=True)]: missing ancestors are created
    first; an existing directory is accepted.  [fuel] bounds the number of
    ancestors. *)
Fixpoint os_makedirs_rec (fuel : nat) (name : string) : M unit :=
  let '(head, tail) := os_path_split name in
  let '(head, tail) :=
    if String.eqb tail "" then os_path_split head else (head, tail) in
  fun w =>
    let ancestors : result bool * world :=
      if negb (String.eqb head "") && negb (String.eqb tail "")
         && negb (bool_decide (is_Some (fs w !! head)))
      then
        match fuel with
        | O => (Return (String.eqb tail "."), w)
        | S fuel' =>
            match os_makedirs_rec fuel' head w with
            | (Return _, w') => (Return (String.eqb tail "."), w')
            | (Raise (FileExistsError _), w') => (Return (String.eqb tail "."), w')
            | (Raise e, w') => (Raise e, w')
            end
        end
      else (Return false, w) in
    match ancestors with
    | (Raise e, w') => (Raise e, w')
    | (Return true, w') => (Return tt, w')
    | (Return false, w') =>
        match os_mkdir name w' with
        | (Raise e, w'') =>
            match fs w'' !! name with
            | Some Dir => (Return tt, w'')
            | _ => (Raise e, w'')
            end
        | r => r
        end
    end.

Definition os_makedirs (name : string) : M unit :=
  os_makedirs_rec (String.length name) name.

(** [pd.read_csv(path)]: a new frame object holding the table of the file. *)
Definition pd_read_csv (path : string) : M nat :=
  fun w =>
    match fs w !! path with
    | Some (CsvFile table) => new_frame table w
    | Some (PngFile _) => (Raise ValueError, w)
    | Some Dir => (Raise (IsADirectoryError path), w)
    | None => (Raise (FileNotFoundError path), w)
    end.

Definition print (line : string) : M unit :=
  fun w => (Return tt, set_stdout (stdout w ++ [line]) w).

(** ** Library functions the model is parametric in *)

(** [parse_datetime s] is the instant [pd.to_datetime] reads in the string
    [s]: [None] when it raises, [Some None] for NaT.  [repr_other] is
    [str()] on scalars other than ints and strs. *)
Record Lib : Type := {
  parse_datetime : string -> option (option Z);
  repr_other : scalar -> string }.

Definition ns_per_second : Z := 1000000000.
Definition ns_per_day : Z := 86400 * ns_per_second.

Fixpoint parse_all (parse : string -> option (option Z)) (xs : list string)
  : result (list (option Z)) :=
  match xs with
  | [] => Return []
  | x :: xs' =>
      match parse x with
      | None => Raise ValueError
      | Some t => let? ts := parse_all parse xs' in Return (t :: ts)
      end
  end.

(** A float as the int64 it is cast to: the fraction is dropped. *)
Definition Qtrunc (x : Q) : Z := if Qle_bool 0 x then Qfloor x else Qceiling x.

(** [pd.to_datetime(series)]; numbers are nanoseconds since the epoch. *)
Definition to_datetime (lib : Lib) (c : column) : result column :=
  match c with
  | StrCol xs => let? ts := parse_all (parse_datetime lib) xs in Return (TimeCol ts)
  | TimeCol xs => Return (TimeCol xs)
  | IntCol xs => Return (TimeCol (map Some xs))
  | FloatCol xs => Return (TimeCol (map (option_map Qtrunc) xs))
  | DateCol xs => Return (TimeCol (map (option_map (fun d => (d * ns_per_day)%Z)) xs))
  end.

(** [str(v)] *)
Definition py_str (lib : Lib) (v : scalar) : string :=
  match v with
  | SInt z => pretty z
  | SStr s => s
  | _ => repr_other lib v
  end.

Fixpoint present {A : Type} (xs : list (option A)) : list A :=
  match xs with
  | [] => []
  | Some x :: xs' => x :: present xs'
  | None :: xs' => present xs'
  end.

(** [series.min()] of a datetime column: NaT when nothing is present. *)
Definition time_min (xs : list (option Z)) : option Z :=
  match present xs with
  | [] => None
  | t :: ts => Some (fold_left Z.min ts t)
  end.

(** [total_seconds()] of a timedelta of [d] nanoseconds: the int64 count
    divided by the [10 ** 9] nanoseconds of a second, in float64. *)
Definition total_seconds (d : Z) : Q :=
  round_fin (round_fin (inject_Z d) / inject_Z ns_per_second).

(** [(series - series.min()).dt.total_seconds() / 3600] *)
Definition hours_since_first (c : column) : result column :=
  match c with
  | TimeCol xs =>
      let first := time_min xs in
      Return (FloatCol (map (fun t =>
        match t, first with
        | Some t, Some t0 => Some (round_fin (total_seconds (t - t0) / 3600))
        | _, _ => None
        end) xs))
  | _ => Raise AttributeError
  end.

(** [series / d] in float64 *)
Definition div_scalar (c : column) (d : Q) : result column :=
  let? xs := to_float c in
  Return (FloatCol (map (option_map (fun x => round_fin (round_fin x / d))) xs)).

(** [series.dt.date] *)
Definition dt_date (c : column) : result column :=
  match c with
  | TimeCol xs => Return (DateCol (map (option_map (fun t => (t / ns_per_day)%Z)) xs))
  | _ => Raise AttributeError
  end.

(** [np.linspace(0, 1, n)]: the multiples of the float64 step [1 / (n - 1)],
    and the end point 1 itself. *)
Definition linspace01 (n : nat) : list Q :=
  map (fun i => match n with
                | 1%nat => 0
                | _ => if Nat.eqb i (n - 1) then 1
                       else round_fin (Qnat i * round_fin (1 / Qnat (n - 1)))
                end) (seq 0 n).

(** ** Calls of the calculators on a frame object *)

Definition call_ranges (data : nat) : M glucose_ranges :=
  let* df := read_frame data in lift (calculate_glucose_ranges df).

Definition call_analysis (data : nat) (low_range high_range : Q) : M glucose_analysis :=
  let* df := read_frame data in
  lift (calculate_glucose_analysis df low_range high_range).

(** ** The plotter *)

(** The body of [for day, color in day_color_map.items()]. *)
Definition plot_day (data fig : nat) (day_color : scalar * Q) : M unit :=
  let '(day, color) := day_color in
  let* day_data :=
    (let* df := read_frame data in
     let* days := column_of data "day" in
     ret (select_rows df (eq_mask days day))) in
  let* x := lift (getitem day_data "time_in_days") in
  let* y := lift (getitem day_data "blood_glucose_value") in
  draw fig (Plot x y day color).

Definition plot_and_save_graph (lib : Lib) (data : nat) (pid : scalar)
    (output_dir : string) (low_value high_value bg_min bg_max : float64)
  : M unit :=
  (* data = data.copy() *)
  let* data := (let* df := read_frame data in new_frame df) in
  let* timestamp :=
    (let* c := column_of data "timestamp" in lift (to_datetime lib c)) in
  setitem data "timestamp" timestamp ;;
  let* time_in_hours :=
    (let* c := column_of data "timestamp" in lift (hours_since_first c)) in
  setitem data "time_in_hours" time_in_hours ;;
  let* time_in_days :=
    (let* c := column_of data "time_in_hours" in lift (div_scalar c 24)) in
  setitem data "time_in_days" time_in_days ;;
  let* day := (let* c := column_of data "timestamp" in lift (dt_date c)) in
  setitem data "day" day ;;
  (* one colour per day *)
  let* unique_days := (let* c := column_of data "day" in ret (unique c)) in
  let colors := linspace01 (length unique_days) in
  let day_color_map := combine unique_days colors in
  (* the figure *)
  let* fig := plt_subplots in
  let* study_group :=
    (let* c := column_of data "study_group" in lift (values0 c)) in
  draw fig (Suptitle pid bg_min bg_max low_value high_value study_group) ;;
  for_each day_color_map (plot_day data fig) ;;
  let* analysis := call_analysis data default_low_range default_high_range in
  draw fig (Text pid analysis) ;;
  draw fig (XLabel "Time (Days)") ;;
  draw fig (YLabel "Blood Glucose Value (mg/dL)") ;;
  draw fig (Title "Blood Glucose value vs time index") ;;
  draw fig (Legend "Day") ;;
  plt_draw (XTicks 45) ;;
  plt_draw TightLayout ;;
  (* save the plot *)
  let plot_path := os_path_join output_dir ("participant_" +:+ py_str lib pid +:+ ".png") in
  plt_savefig plot_path ;;
  plt_close fig.

(** The path the plotter saves to. *)
Definition plot_path_of (lib : Lib) (output_dir : string) (pid : scalar) : string :=
  os_path_join output_dir ("participant_" +:+ py_str lib pid +:+ ".png").

(** ** The batch driver *)

Definition pilot_data_root : string :=
  "C:/Users/nikhi/Box/AI-READI/nikhil working dataset/dataset/".

Definition indices : list Z := [0; 100; 200; 300; 400; 500; 600; 700; 784]%Z.

Definition batch_files : list string :=
  map (fun i => "cleaned_data/batch_" +:+ pretty (nth i indices 0%Z) +:+ "_"
                +:+ pretty (nth (i + 1) indices 0%Z) +:+ ".csv")
      (seq 0 (length indices - 1)).

(** The body of [for pid in participants]. *)
Definition process_participant (lib : Lib) (df : nat) (output_dir : string)
    (pid : scalar) : M unit :=
  let* participant_data :=
    (let* d := read_frame df in
     let* ids := column_of df "participant_id" in
     new_frame (select_rows d (eq_mask ids pid))) in
  let* (low_value, high_value, bg_min, bg_max) := call_ranges participant_data in
  plot_and_save_graph lib participant_data pid output_dir
                      low_value high_value bg_min bg_max.

(** The body of [for batch_file in batch_files]. *)
Definition process_batch (lib : Lib) (root output_dir batch_file : string) : M unit :=
  let batch_path := os_path_join root batch_file in
  let* found := os_path_exists batch_path in
  if found then
    let* df := pd_read_csv batch_path in
    let* participants := (let* c := column_of df "participant_id" in ret (unique c)) in
    for_each participants (process_participant lib df output_dir)
  else ret tt.

Definition completion_line (output_dir : string) : string :=
  "Plots saved in " +:+ output_dir.

(** The loop over the batch files and the final message, for a data root
    and a list of batch files. *)
Definition batch_loop (lib : Lib) (root : string) (files : list string) : M unit :=
  let output_dir := os_path_join root "healthy_plots" in
  for_each files (process_batch lib root output_dir) ;;
  print (completion_line output_dir).

(** The script from the creation of the output directory on. *)
Definition run (lib : Lib) (root : string) (files : list string) : M unit :=
  let output_dir := os_path_join root "healthy_plots" in
  os_makedirs output_dir ;;
  batch_loop lib root files.

Definition script (lib : Lib) : M unit := run lib pilot_data_root batch_files.

(** ** Concrete inputs *)

(** The series [50, 70, 90, 140, 160]. *)
Definition series_50_160 : DataFrame :=
  Frame 5 {[ "blood_glucose_value" := IntCol [50; 70; 90; 140; 160]%Z ]}.

(** One row whose glucose value is missing. *)
Definition series_one_missing : DataFrame :=
  Frame 1 {[ "blood_glucose_value" := FloatCol [None] ]}.

(** A participant series without rows. *)
Definition series_empty : DataFrame :=
  Frame 0 {[ "blood_glucose_value" := FloatCol [] ]}.

(** A frame without the glucose column. *)
Definition frame_without_glucose : DataFrame :=
  Frame 2 {[ "participant_id" := IntCol [1001; 1001]%Z ]}.

(** Three readings, and the same readings in another unit. *)
Definition series_mg_dl : DataFrame :=
  Frame 3 {[ "blood_glucose_value" := FloatCol [Some 90; Some 126; Some 180] ]}.
Definition series_scaled : DataFrame :=
  Frame 3 {[ "blood_glucose_value" :=
               FloatCol (scale_series (1 # 18) [Some 90; Some 126; Some 180]) ]}.

(** A single reading. *)
Definition series_single : DataFrame :=
  Frame 1 {[ "blood_glucose_value" := IntCol [110]%Z ]}.

(** One instance of the library functions: timestamps of the form
    [YYYY-MM-DD HH:MM:SS] naming an instant that exists and that
    datetime64[ns] can hold; [str()] of a float that is an integer, and of
    NaN. *)
Definition digit_of (c : ascii) : option Z :=
  let n := nat_of_ascii c in
  if (48 <=? n)%nat && (n <=? 57)%nat then Some (Z.of_nat (n - 48)) else None.

Fixpoint number_of (acc : Z) (cs : list ascii) : option Z :=
  match cs with
  | [] => Some acc
  | c :: cs' =>
      match digit_of c with
      | Some d => number_of (10 * acc + d)%Z cs'
      | None => None
      end
  end.

(** Days from 1970-01-01 to a date of the proleptic Gregorian calendar. *)
Definition days_from_civil (y m d : Z) : Z :=
  let y' := (if m <=? 2 then y - 1 else y)%Z in
  let era := (y' / 400)%Z in
  let yoe := (y' - era * 400)%Z in
  let doy := ((153 * (if 2 <? m then m - 3 else m + 9) + 2) / 5 + d - 1)%Z in
  let doe := (yoe * 365 + yoe / 4 - yoe / 100 + doy)%Z in
  (era * 146097 + doe - 719468)%Z.

Definition is_leap (y : Z) : bool :=
  ((y mod 4 =? 0) && negb (y mod 100 =? 0) || (y mod 400 =? 0))%Z.

Definition days_in_month (y m : Z) : Z :=
  (if m =? 2 then (if is_leap y then 29 else 28)
   else if (m =? 4) || (m =? 6) || (m =? 9) || (m =? 11) then 30
   else 31)%Z.

Definition iso_datetime (s : string) : option (option Z) :=
  match list_ascii_of_string s with
  | [y1; y2; y3; y4; d1; m1; m2; d2; a1; a2; sp; h1; h2; c1; n1; n2; c2; s1; s2] =>
      if Ascii.eqb d1 "-" && Ascii.eqb d2 "-" && Ascii.eqb sp " "
         && Ascii.eqb c1 ":" && Ascii.eqb c2 ":" then
        match number_of 0 [y1; y2; y3; y4], number_of 0 [m1; m2],
              number_of 0 [a1; a2], number_of 0 [h1; h2],
              number_of 0 [n1; n2], number_of 0 [s1; s2] with
        | Some y, Some m, Some d, Some hh, Some mm, Some ss =>
            let ns := ((days_from_civil y m d * 86400
                        + hh * 3600 + mm * 60 + ss) * ns_per_second)%Z in
            if ((1 <=? m) && (m <=? 12) && (1 <=? d) && (d <=? days_in_month y m)
                && (hh <=? 23) && (mm <=? 59) && (ss <=? 59)
                && (- 2 ^ 63 <? ns) && (ns <? 2 ^ 63))%Z
            then Some (Some ns)
            else None
        | _, _, _, _, _, _ => None
        end
      else None
  | _ => None
  end.

(** [str()] of a float64 that is an integer below [10 ** 16] in magnitude,
    and of NaN. *)
Definition str_float (v : scalar) : string :=
  match v with
  | SFloat (Some x) => pretty (Qfloor x) +:+ ".0"
  | _ => "nan"
  end.

Definition iso_lib : Lib :=
  {| parse_datetime := iso_datetime; repr_other := str_float |}.

(** A batch table: participant 1001 with three readings over two days and
    participant 1002 with two readings. *)
Definition batch_table_a : DataFrame :=
  Frame 5 (list_to_map
    [ ("participant_id", IntCol [1001; 1001; 1002; 1001; 1002]%Z);
      ("timestamp", StrCol [ "2024-03-01 08:00:00"; "2024-03-01 20:00:00";
                             "2024-03-01 09:30:00"; "2024-03-02 08:00:00";
                             "2024-03-01 21:30:00" ]);
      ("blood_glucose_value", IntCol [95; 150; 64; 110; 101]%Z);
      ("study_group", StrCol [ "healthy"; "healthy"; "healthy"; "healthy";
                               "healthy" ]) ]).

Definition batch_table_b : DataFrame :=
  Frame 2 (list_to_map
    [ ("participant_id", IntCol [1203; 1203]%Z);
      ("timestamp", StrCol [ "2024-03-05 08:00:00"; "2024-03-05 08:05:00" ]);
      ("blood_glucose_value", FloatCol [Some (1215 # 10); None]);
      ("study_group", StrCol [ "pre_diabetes"; "pre_diabetes" ]) ]).

Definition batch_table_c : DataFrame :=
  Frame 1 (list_to_map
    [ ("participant_id", IntCol [7400]%Z);
      ("timestamp", StrCol [ "2024-04-11 23:59:59" ]);
      ("blood_glucose_value", IntCol [180]%Z);
      ("study_group", StrCol [ "insulin" ]) ]).

(** The readings of participant 1001, as the driver selects them. *)
Definition participant_1001 : DataFrame :=
  select_rows batch_table_a [true; true; false; true; false].


(** A world with the directory [out] and one frame object. *)
Definition world_with (df : DataFrame) : world :=
  World {[ 0%nat := df ]} {[ "out" := Dir ]} [] [].

(** A data root [data] holding three of the eight batch files. *)
Definition world_three_batches : world :=
  World ∅
        (list_to_map
           [ ("data", Dir);
             ("data/cleaned_data", Dir);
             ("data/cleaned_data/batch_0_100.csv", CsvFile batch_table_a);
             ("data/cleaned_data/batch_300_400.csv", CsvFile batch_table_b);
             ("data/cleaned_data/batch_700_784.csv", CsvFile batch_table_c) ])
        [] [].

(** The world after the plotter was called for participant 1001. *)
Definition after_first_plot : world :=
  snd (plot_and_save_graph iso_lib 0 (SInt 1001) "out"
         (Fin 95) (Fin 150) (Fin 95) (Fin 150) (world_with participant_1001)).


(** Two int64 readings above [2 ^ 53], where float64 has even integers
    only. *)
Definition series_large_ints : DataFrame :=
  Frame 2 {[ "blood_glucose_value" :=
               IntCol [9007199254740993; 9007199254740993]%Z ]}.

(** Two float64 readings whose difference is beyond the largest float64. *)
Definition series_far_apart : DataFrame :=
  Frame 2 {[ "blood_glucose_value" :=
               FloatCol [Some (- (3 * pow2 1022)); Some (3 * pow2 1022)] ]}.



(** ** Specifications of computations *)

(** [triple P c Q E]: from a world satisfying [P], [c] either returns [a]
    in a world satisfying [Q a] or raises [e] in a world satisfying [E e]. *)
Definition triple {A : Type} (P : world -> Prop) (c : M A)
    (Q : A -> world -> Prop) (E : exn -> world -> Prop) : Prop :=
  forall w, P w ->
    match c w with
    | (Return a, w') => Q a w'
    | (Raise e, w') => E e w'
    end.

(** A computation that leaves the world as it is. *)
Definition reads {A : Type} (c : M A) : Prop := forall w, snd (c w) = w.

(** The worlds a call of the plotter started in [w0] goes through: before
    the figure exists, while figure [next_num (figures w0)] is open, and
    after the file is written.  Frame objects of [w0] are never touched,
    [l] is the copy. *)
Definition plotter_before (w0 : world) (w : world) : Prop :=
  fs w = fs w0 /\ figures w = figures w0 /\ stdout w = stdout w0 /\
  heap w0 ⊆ heap w.

Definition plotter_copied (w0 : world) (l : nat) (w : world) : Prop :=
  plotter_before w0 w /\ heap w0 !! l = None.

Definition plotter_drawing (w0 : world) (l : nat) (w : world) : Prop :=
  fs w = fs w0 /\
  (exists f, figures w = figures w0 ++ [(next_num (figures w0), f)]) /\
  stdout w = stdout w0 /\ heap w0 ⊆ heap w /\ heap w0 !! l = None.

Definition plotter_saved (w0 : world) (path : string) (w : world) : Prop :=
  (exists image, fs w = <[path := PngFile image]> (fs w0)) /\
  (exists f, figures w = figures w0 ++ [(next_num (figures w0), f)]) /\
  stdout w = stdout w0 /\ heap w0 ⊆ heap w.

(** The world after the plotter returned. *)
Definition plotter_returned (w0 : world) (path : string) (w : world) : Prop :=
  (exists image, fs w = <[path := PngFile image]> (fs w0)) /\
  figures w = figures w0 /\ stdout w = stdout w0 /\ heap w0 ⊆ heap w.

(** The world after the plotter raised: nothing is written, and the figure
    is still open when it had been created. *)
Definition plotter_raised (w0 : world) (w : world) : Prop :=
  fs w = fs w0 /\
  (figures w = figures w0 \/
   exists f, figures w = figures w0 ++ [(next_num (figures w0), f)]) /\
  stdout w = stdout w0 /\ heap w0 ⊆ heap w.

(** The same, for every exception. *)
Definition plotter_raised_any (w0 : world) : exn -> world -> Prop :=
  fun _ => plotter_raised w0.

(** No condition on the world an exception is raised in. *)
Definition any_raise : exn -> world -> Prop := fun _ _ => True.

(** ** Vocabulary of the batch loop *)

(** The output directory of the script for a data root. *)
Abbreviation plots_dir root := (os_path_join root "healthy_plots").

(** The participants of a batch file, in first-seen order; none when the
    path holds no table. *)
Definition participants_of (w : world) (root batch_file : string) : list scalar :=
  match fs w !! os_path_join root batch_file with
  | Some (CsvFile table) =>
      match cols table !! "participant_id" with
      | Some ids => unique ids
      | None => []
      end
  | _ => []
  end.

(** The plots of the participants of the batch files that exist in [w]. *)
Definition expected_plots (lib : Lib) (w : world) (root : string)
    (files : list string) : list string :=
  flat_map (fun batch_file =>
              map (plot_path_of lib (plots_dir root))
                  (participants_of w root batch_file)) files.


(** The directory part [os.path.join] puts before a relative path. *)
Definition join_prefix (a : string) : string :=
  if String.eqb a "" || ends_with_sep a then a else a +:+ "/".

(** The world [wc] of a batch loop entered in [w], once the plots [done]
    are written: nothing is printed, the plots exist, every other path is
    as in [w]. *)
Definition loop_inv (w : world) (done : list string) (wc : world) : Prop :=
  stdout wc = stdout w /\
  (forall p, In p done -> exists image, fs wc !! p = Some (PngFile image)) /\
  (forall p, ~ In p done -> fs wc !! p = fs w !! p).

(** The world after makedirs in the data root with three batch files. *)
Definition world_three_batches_ready : world :=
  snd (os_makedirs (os_path_join "data" "healthy_plots") world_three_batches).


(** A computation that changes neither the files nor the console. *)
Definition keeps_files {A : Type} (c : M A) : Prop :=
  forall w, fs (snd (c w)) = fs w /\ stdout (snd (c w)) = stdout w.

(** ** Inputs on which the plotter returns *)







(** ** The figure at the exits of the plotter *)




(** ** Readings the statistics handle without overflow *)

(** A reading the interpolation of the range calculator handles without
    overflow: a binary64 value of magnitude at most [2 ^ 1022], and in an
    int64 column an integer of magnitude at most [2 ^ 53], which converts
    to float64 as it is. *)
Definition glucose_in_range (ints : bool) (x : Q) : Prop :=
  representable x /\ Qabs x <= (if ints then pow2 53 else pow2 1022).

(** The two quantiles of the range calculator as [np.percentile] gets
    them. *)
Definition q05 : Q := Eval vm_compute in percentile_rank (5 # 100).
Definition q95 : Q := Eval vm_compute in percentile_rank (95 # 100).

(** ** Counting readings *)

(** The number of readings that are present and satisfy [p]. *)
Definition count_readings (p : Q -> bool) (xs : list (option Q)) : nat :=
  length (List.filter (fun x => match x with Some v => p v | None => false end) xs).

(** The three classes of a reading for the bounds [low] and [high]. *)
Definition within (low high v : Q) : bool := Qle_bool low v && Qle_bool v high.
Definition above (high v : Q) : bool := negb (Qle_bool v high).
Definition below (low v : Q) : bool := negb (Qle_bool low v).

(** The floating tolerance of a percentage and of a sum of three. *)
Definition percent_tolerance : Q := 1 # 10000000000000.

(** [a + b + c] on three Python floats. *)
Definition float_sum3 (a b c : Q) : Q := round_fin (round_fin (a + b) + c).

(** ** Arithmetic that stays in the normal range *)










(** [xs'] holds the readings of [xs] times [2 ^ j], exactly, and is missing
    where [xs] is. *)
Definition times_pow2 (j : Z) (xs xs' : list (option Q)) : Prop :=
  Forall2 (fun x x' => match x, x' with
                       | Some v, Some v' => v' == pow2 j * v
                       | None, None => True
                       | _, _ => False
                       end) xs xs'.




(** ** Further vocabulary *)

(** A computation whose final world is related to the initial one by [R],
    whatever its outcome. *)
Definition preserves {A : Type} (R : world -> world -> Prop) (c : M A) : Prop :=
  forall w, R w (snd (c w)).

(** What a step of the batch loop may do: print nothing, and change files
    at plot paths of the output directory only. *)
Definition quiet (lib : Lib) (output_dir : string) (w w' : world) : Prop :=
  stdout w' = stdout w /\
  forall p, (forall pid, p <> plot_path_of lib output_dir pid) ->
            fs w' !! p = fs w !! p.


(** A participant whose second timestamp is not a date. *)
Definition participant_bad_timestamp : DataFrame :=
  Frame 2 (list_to_map
    [ ("participant_id", IntCol [1001; 1001]%Z);
      ("timestamp", StrCol [ "2024-03-01 08:00:00"; "yesterday" ]);
      ("blood_glucose_value", IntCol [95; 150]%Z);
      ("study_group", StrCol [ "healthy"; "healthy" ]) ]).

(** A glucose column read as text. *)
Definition series_of_text : DataFrame :=
  Frame 2 {[ "blood_glucose_value" := StrCol [ "high"; "low" ] ]}.

(** Readings with one value missing. *)
Definition series_with_gap : DataFrame :=
  Frame 4 {[ "blood_glucose_value" := FloatCol [Some 60; None; Some 100; Some 150] ]}.

(** The same reading three times. *)
Definition series_flat : DataFrame :=
  Frame 3 {[ "blood_glucose_value" := IntCol [104; 104; 104]%Z ]}.

(** The world of a call of the plotter started in [w0], with the copy [l]
    holding [df] and the open figures [figs]; no file is written yet. *)
Definition plotter_at (w0 : world) (l : nat) (df : DataFrame)
    (figs : list (nat * figure)) (w : world) : Prop :=
  heap w !! l = Some df /\ fs w = fs w0 /\ figures w = figs /\
  stdout w = stdout w0.









(** * Binary64 rounding *)

(** ** Binary64 rounding: pow2 *)
Lemma pow2_pos e : 0 < pow2 e.
Proof. apply Qpower_0_lt. reflexivity. Qed.

Lemma pow2_nz e : ~ pow2 e == 0.
Proof. intros C. pose proof (pow2_pos e) as P. rewrite C in P. apply (Qlt_irrefl 0 P). Qed.

Lemma pow2_add a b : pow2 (a + b) == pow2 a * pow2 b.
Proof. apply Qpower_plus. discriminate. Qed.

Lemma pow2_0 : pow2 0 == 1.
Proof. reflexivity. Qed.

Lemma pow2_opp a : pow2 (- a) == / pow2 a.
Proof. apply Qpower_opp. Qed.

Lemma pow2_sub a b : pow2 (a - b) == pow2 a / pow2 b.
Proof. unfold Z.sub. rewrite pow2_add, pow2_opp. reflexivity. Qed.

Lemma pow2_le a b : (a <= b)%Z -> pow2 a <= pow2 b.
Proof. intros H. apply Qpower_le_compat_l; [exact H | discriminate]. Qed.

Lemma pow2_lt a b : (a < b)%Z -> pow2 a < pow2 b.
Proof. intros H. apply Qpower_lt_compat_l; [exact H | reflexivity]. Qed.

Lemma pow2_le_inv a b : pow2 a <= pow2 b -> (a <= b)%Z.
Proof.
intros H. destruct (Z_le_gt_dec a b) as [L | G]; [exact L |].
exfalso. apply (Qlt_not_le _ _ (pow2_lt b a ltac:(lia)) H).
Qed.

Lemma pow2_Z n : (0 <= n)%Z -> pow2 n == inject_Z (2 ^ n).
Proof. intros H. unfold pow2. rewrite Zpower_Qpower by exact H. reflexivity. Qed.

Lemma pow2_succ a : pow2 (a + 1) == 2 * pow2 a.
Proof. rewrite pow2_add. change (pow2 1) with 2. ring. Qed.

(** ** Binary64 rounding: Qlog2 *)
Lemma Zfrac_lt (p r : Z) (q s : positive) :
  (p * Zpos s < r * Zpos q)%Z -> inject_Z p / inject_Z (Zpos q) < inject_Z r / inject_Z (Zpos s).
Proof.
intros H. unfold Qlt, Qdiv, Qmult, Qinv, inject_Z. simpl. lia.
Qed.

Lemma Zfrac_le (p r : Z) (q s : positive) :
  (p * Zpos s <= r * Zpos q)%Z -> inject_Z p / inject_Z (Zpos q) <= inject_Z r / inject_Z (Zpos s).
Proof.
intros H. unfold Qle, Qdiv, Qmult, Qinv, inject_Z. simpl. lia.
Qed.

Lemma Zpow2_pos (n : Z) : (0 <= n)%Z -> exists p, (2 ^ n)%Z = Zpos p.
Proof.
intros H. assert (0 < 2 ^ n)%Z by (apply Z.pow_pos_nonneg; lia).
destruct (2 ^ n)%Z as [| p | p]; try lia. exists p. reflexivity.
Qed.

Lemma Qlog2_rough (x : Q) :
  0 < x ->
  let l := (Z.log2 (Qnum x) - Z.log2 (Zpos (Qden x)))%Z in
  pow2 (l - 1) < x /\ x < pow2 (l + 1).
Proof.
destruct x as [n d]. intros Hx. cbn [Qnum Qden].
assert (0 < n)%Z as Hn by (unfold Qlt in Hx; simpl in Hx; lia).
pose proof (Z.log2_spec n Hn) as [Ha1 Ha2].
pose proof (Z.log2_spec (Zpos d) ltac:(lia)) as [Hb1 Hb2].
pose proof (Z.log2_nonneg n) as Ha0.
pose proof (Z.log2_nonneg (Zpos d)) as Hb0.
set (a := Z.log2 n) in *. set (b := Z.log2 (Zpos d)) in *.
destruct (Zpow2_pos a Ha0) as [pa Epa].
destruct (Zpow2_pos b Hb0) as [pb Epb].
assert (2 ^ Z.succ a = 2 * 2 ^ a)%Z as Esa by (apply Z.pow_succ_r; lia).
assert (2 ^ Z.succ b = 2 * 2 ^ b)%Z as Esb by (apply Z.pow_succ_r; lia).
assert (n # d == inject_Z n / inject_Z (Zpos d)) as Ex by apply Qmake_Qdiv.
split.
- replace (a - b - 1)%Z with (a - (b + 1))%Z by lia.
  rewrite pow2_sub, (pow2_Z a), (pow2_Z (b + 1)) by lia.
  rewrite Ex.
  replace (2 ^ (b + 1))%Z with (Zpos (2 * pb)) by (change (b+1)%Z with (Z.succ b); lia).
  rewrite Epa. apply Zfrac_lt. rewrite Epa, Esb, Epb in *. nia.
- replace (a - b + 1)%Z with ((a + 1) - b)%Z by lia.
  rewrite pow2_sub, (pow2_Z (a + 1)), (pow2_Z b) by lia.
  rewrite Ex, Epb. apply Zfrac_lt.
  change (a + 1)%Z with (Z.succ a). nia.
Qed.

Lemma Qlog2_spec (x : Q) :
  0 < x -> pow2 (Qlog2 x) <= x /\ x < pow2 (Qlog2 x + 1).
Proof.
intros Hx. destruct (Qlog2_rough x Hx) as [H1 H2]. unfold Qlog2.
set (l := (Z.log2 (Qnum x) - Z.log2 (Zpos (Qden x)))%Z) in *.
destruct (Qle_bool (pow2 l) x) eqn:E.
- apply Qle_bool_iff in E. split; assumption.
- split; [apply Qlt_le_weak; exact H1 |].
  replace (l - 1 + 1)%Z with l by lia.
  apply Qnot_le_lt. intros C. apply Qle_bool_iff in C. congruence.
Qed.

Lemma Qlog2_unique (x : Q) (l : Z) :
  pow2 l <= x -> x < pow2 (l + 1) -> Qlog2 x = l.
Proof.
intros H1 H2.
assert (0 < x) as Hx by (eapply Qlt_le_trans; [apply (pow2_pos l) | exact H1]).
destruct (Qlog2_spec x Hx) as [S1 S2].
assert (pow2 l < pow2 (Qlog2 x + 1)) as A by (eapply Qle_lt_trans; eauto).
assert (pow2 (Qlog2 x) < pow2 (l + 1)) as B by (eapply Qle_lt_trans; eauto).
apply Qlt_le_weak in A, B. apply pow2_le_inv in A.
destruct (Z_le_gt_dec (Qlog2 x) l); [| exfalso].
- destruct (Z.eq_dec (Qlog2 x) l); [assumption | exfalso].
  assert (pow2 (Qlog2 x + 1) <= pow2 l) by (apply pow2_le; lia).
  apply (Qlt_irrefl x). eapply Qlt_le_trans; [exact S2 |]. eapply Qle_trans; eauto.
- assert (pow2 (l + 1) <= pow2 (Qlog2 x)) by (apply pow2_le; lia).
  apply (Qlt_irrefl x). eapply Qlt_le_trans; [exact H2 |]. eapply Qle_trans; eauto.
Qed.

Lemma Qlog2_proper (x y : Q) : 0 < x -> x == y -> Qlog2 x = Qlog2 y.
Proof.
intros Hx E. destruct (Qlog2_spec x Hx) as [S1 S2].
symmetry. apply Qlog2_unique; rewrite <- E; assumption.
Qed.

Lemma Qlog2_mono (x y : Q) : 0 < x -> x <= y -> (Qlog2 x <= Qlog2 y)%Z.
Proof.
intros Hx Hxy.
assert (0 < y) as Hy by (eapply Qlt_le_trans; eauto).
destruct (Qlog2_spec x Hx) as [S1 _]. destruct (Qlog2_spec y Hy) as [_ T2].
assert (pow2 (Qlog2 x) < pow2 (Qlog2 y + 1)) as A.
{ eapply Qle_lt_trans; [exact S1 |]. eapply Qle_lt_trans; eauto. }
destruct (Z_le_gt_dec (Qlog2 x) (Qlog2 y)) as [L | G]; [exact L | exfalso].
assert (pow2 (Qlog2 y + 1) <= pow2 (Qlog2 x)) by (apply pow2_le; lia).
apply (Qlt_irrefl (pow2 (Qlog2 x))). eapply Qlt_le_trans; eauto.
Qed.


(** ** Binary64 rounding: round_half_even *)
Lemma Qfloor_bounds (y : Q) : inject_Z (Qfloor y) <= y /\ y < inject_Z (Qfloor y) + 1.
Proof.
split; [apply Qfloor_le |].
pose proof (Qlt_floor y) as H. rewrite inject_Z_plus in H. exact H.
Qed.

Lemma round_half_even_cases (y : Q) :
  let f := Qfloor y in
  (round_half_even y = f /\ y - inject_Z f <= 1 # 2) \/
  (round_half_even y = (f + 1)%Z /\ 1 # 2 <= y - inject_Z f).
Proof.
intros f. unfold round_half_even. fold f.
destruct (Qcompare (y - inject_Z f) (1 # 2)) eqn:E.
- apply Qeq_alt in E. destruct (Z.even f); [left | right]; split; auto; rewrite E; apply Qle_refl.
- apply Qlt_alt in E. left. split; [reflexivity | apply Qlt_le_weak, E].
- apply Qgt_alt in E. right. split; [reflexivity | apply Qlt_le_weak, E].
Qed.

Lemma round_half_even_bounds (y : Q) :
  y - (1 # 2) <= inject_Z (round_half_even y) /\
  inject_Z (round_half_even y) <= y + (1 # 2).
Proof.
destruct (Qfloor_bounds y) as [F1 F2].
destruct (round_half_even_cases y) as [[-> H] | [-> H]].
- split; lra.
- rewrite inject_Z_plus. change (inject_Z 1) with 1. split; lra.
Qed.

Lemma Qfloor_proper (x y : Q) : x == y -> Qfloor x = Qfloor y.
Proof.
intros E. apply Z.le_antisymm; apply Qfloor_resp_le; rewrite E; apply Qle_refl.
Qed.

Lemma round_half_even_proper (x y : Q) : x == y -> round_half_even x = round_half_even y.
Proof.
intros E. unfold round_half_even. rewrite (Qfloor_proper x y E).
assert (x - inject_Z (Qfloor y) == y - inject_Z (Qfloor y)) as E' by (rewrite E; reflexivity).
rewrite (Qcompare_comp _ _ E' _ _ (Qeq_refl (1 # 2))). reflexivity.
Qed.

Lemma round_half_even_Z (z : Z) : round_half_even (inject_Z z) = z.
Proof.
unfold round_half_even. rewrite Qfloor_Z.
assert (Qcompare (inject_Z z - inject_Z z) (1 # 2) = Lt) as ->; [| reflexivity].
apply -> Qlt_alt. ring_simplify. reflexivity.
Qed.

Lemma round_half_even_mono (x y : Q) : x <= y -> (round_half_even x <= round_half_even y)%Z.
Proof.
intros Hxy.
pose proof (Qfloor_resp_le x y Hxy) as Hf.
destruct (Qfloor_bounds x) as [X1 X2]. destruct (Qfloor_bounds y) as [Y1 Y2].
destruct (Z.eq_dec (Qfloor x) (Qfloor y)) as [E | N].
- unfold round_half_even. rewrite <- E.
  destruct (Qcompare_spec (x - inject_Z (Qfloor x)) (1 # 2)) as [Cx | Cx | Cx];
  destruct (Qcompare_spec (y - inject_Z (Qfloor x)) (1 # 2)) as [Cy | Cy | Cy];
    try (destruct (Z.even (Qfloor x))); try lia; exfalso; lra.
- assert (Qfloor x + 1 <= Qfloor y)%Z as L by lia.
  destruct (round_half_even_cases x) as [[-> _] | [-> _]];
  destruct (round_half_even_cases y) as [[-> _] | [-> _]]; lia.
Qed.

Lemma round_half_even_opp (y : Q) : round_half_even (- y) = (- round_half_even y)%Z.
Proof.
destruct (Qfloor_bounds y) as [Y1 Y2].
destruct (Q_dec y (inject_Z (Qfloor y))) as [[L | G] | E].
- lra.
- (* y is not an integer: floor (-y) = - floor y - 1 *)
  assert (Qfloor (- y) = (- Qfloor y - 1)%Z) as Ef.
  { apply Z.le_antisymm.
    - assert (Qfloor (-y) < - Qfloor y)%Z; [| lia].
      rewrite Zlt_Qlt. pose proof (Qfloor_le (- y)). rewrite inject_Z_opp. lra.
    - assert (- Qfloor y - 1 = Qfloor (inject_Z (- Qfloor y - 1)))%Z as -> by (rewrite Qfloor_Z; reflexivity).
      apply Qfloor_resp_le. unfold Z.sub. rewrite inject_Z_plus, inject_Z_opp.
      change (inject_Z (- (1))) with (-1 # 1). lra. }
  unfold round_half_even. rewrite Ef.
  assert (- y - inject_Z (- Qfloor y - 1) == 1 - (y - inject_Z (Qfloor y))) as Efrac.
  { unfold Z.sub. rewrite inject_Z_plus, inject_Z_opp. change (inject_Z (- (1))) with (-1 # 1). ring. }
  rewrite (Qcompare_comp _ _ Efrac _ _ (Qeq_refl (1 # 2))).
  destruct (Qcompare (y - inject_Z (Qfloor y)) (1 # 2)) eqn:C.
  + apply Qeq_alt in C.
    assert (Qcompare (1 - (y - inject_Z (Qfloor y))) (1 # 2) = Eq) as ->
      by (apply -> Qeq_alt; rewrite C; reflexivity).
    replace (- Qfloor y - 1)%Z with (- (Qfloor y + 1))%Z by lia.
    rewrite Z.even_opp. replace (Qfloor y + 1)%Z with (Z.succ (Qfloor y)) by lia.
    rewrite Z.even_succ, <- Z.negb_even.
    destruct (Z.even (Qfloor y)); cbn; lia.
  + apply Qlt_alt in C.
    assert (Qcompare (1 - (y - inject_Z (Qfloor y))) (1 # 2) = Gt) as ->
      by (apply -> Qgt_alt; lra).
    lia.
  + apply Qgt_alt in C.
    assert (Qcompare (1 - (y - inject_Z (Qfloor y))) (1 # 2) = Lt) as ->
      by (apply -> Qlt_alt; lra).
    lia.
- rewrite (round_half_even_proper y _ E), round_half_even_Z.
  assert (- y == inject_Z (- Qfloor y)) as E' by (rewrite inject_Z_opp, <- E; reflexivity).
  rewrite (round_half_even_proper _ _ E'), round_half_even_Z. reflexivity.
Qed.

(** ** Binary64 rounding: round_to *)
Lemma round_to_proper (e : Z) (x y : Q) : x == y -> round_to e x = round_to e y.
Proof.
intros E. unfold round_to.
assert (x / pow2 e == y / pow2 e) as E' by (rewrite E; reflexivity).
rewrite (round_half_even_proper _ _ E'). reflexivity.
Qed.

Lemma round_to_mono (e : Z) (x y : Q) : x <= y -> round_to e x <= round_to e y.
Proof.
intros H. unfold round_to. pose proof (pow2_pos e) as P.
apply Qmult_le_compat_r; [| apply Qlt_le_weak, P].
rewrite <- Zle_Qle. apply round_half_even_mono.
apply Qmult_le_compat_r; [exact H |]. apply Qlt_le_weak, Qinv_lt_0_compat, P.
Qed.

Lemma round_to_multiple (e : Z) (k : Z) (x : Q) :
  x == inject_Z k * pow2 e -> round_to e x == x.
Proof.
intros E. unfold round_to. pose proof (pow2_pos e) as P.
assert (x / pow2 e == inject_Z k) as E'.
{ rewrite E. field. apply pow2_nz. }
rewrite (round_half_even_proper _ _ E'), round_half_even_Z. symmetry. exact E.
Qed.

Lemma round_to_err (e : Z) (x : Q) :
  x - (1 # 2) * pow2 e <= round_to e x /\ round_to e x <= x + (1 # 2) * pow2 e.
Proof.
unfold round_to. pose proof (pow2_pos e) as P.
destruct (round_half_even_bounds (x / pow2 e)) as [B1 B2].
set (m := inject_Z (round_half_even (x / pow2 e))) in *.
assert (x == (x / pow2 e) * pow2 e) as Ex.
{ field. apply pow2_nz. }
set (y := x / pow2 e) in *. clearbody m y. generalize dependent (pow2 e). intros p P Ex.
split.
- assert ((y - (1 # 2)) * p <= m * p) as H
    by (apply Qmult_le_compat_r; [exact B1 | apply Qlt_le_weak, P]).
  rewrite Ex at 1. lra.
- assert (m * p <= (y + (1 # 2)) * p) as H
    by (apply Qmult_le_compat_r; [exact B2 | apply Qlt_le_weak, P]).
  rewrite Ex at 1. lra.
Qed.

Lemma round_to_opp (e : Z) (x : Q) : round_to e (- x) == - round_to e x.
Proof.
unfold round_to.
assert (- x / pow2 e == - (x / pow2 e)) as E by (unfold Qdiv; ring).
rewrite (round_half_even_proper _ _ E), round_half_even_opp, inject_Z_opp. ring.
Qed.


Lemma round_to_0 (e : Z) : round_to e 0 == 0.
Proof. apply (round_to_multiple e 0). ring. Qed.

(** ** Binary64 rounding: quantum *)
Lemma quantum_ge (x : Q) : (-1074 <= quantum x)%Z.
Proof. unfold quantum. lia. Qed.

Lemma Qabs_pos_nz (x : Q) : ~ x == 0 -> 0 < Qabs x.
Proof.
intros N. destruct (Qlt_le_dec x 0) as [L | G].
- rewrite Qabs_neg by (apply Qlt_le_weak, L). lra.
- rewrite Qabs_pos by exact G. destruct (Qle_lt_or_eq _ _ G) as [H | H]; [exact H |].
  exfalso. apply N. symmetry. exact H.
Qed.

Lemma quantum_proper (x y : Q) : ~ x == 0 -> x == y -> quantum x = quantum y.
Proof.
intros N E. unfold quantum.
rewrite (Qlog2_proper (Qabs x) (Qabs y)); [reflexivity | apply Qabs_pos_nz, N |].
rewrite E. reflexivity.
Qed.

Lemma quantum_upper (x : Q) : ~ x == 0 -> Qabs x < pow2 (quantum x + 53).
Proof.
intros N. destruct (Qlog2_spec _ (Qabs_pos_nz x N)) as [_ S].
eapply Qlt_le_trans; [exact S |]. apply pow2_le. unfold quantum. lia.
Qed.

Lemma quantum_lower (x : Q) :
  ~ x == 0 -> (-1074 < quantum x)%Z -> pow2 (quantum x + 52) <= Qabs x.
Proof.
intros N H. destruct (Qlog2_spec _ (Qabs_pos_nz x N)) as [S _].
replace (quantum x + 52)%Z with (Qlog2 (Qabs x)); [exact S |].
unfold quantum in *. lia.
Qed.

Lemma quantum_normal (x : Q) :
  pow2 (-1022) <= Qabs x -> quantum x = (Qlog2 (Qabs x) - 52)%Z.
Proof.
intros H. unfold quantum.
assert (0 < Qabs x) as P by (eapply Qlt_le_trans; [apply pow2_pos | exact H]).
pose proof (Qlog2_mono _ _ (pow2_pos (-1022)) H) as M.
rewrite (Qlog2_unique (pow2 (-1022)) (-1022)) in M;
  [lia | apply Qle_refl | apply pow2_lt; lia].
Qed.

Lemma quantum_mono (x y : Q) :
  ~ x == 0 -> Qabs x <= Qabs y -> (quantum x <= quantum y)%Z.
Proof.
intros N H. unfold quantum.
pose proof (Qlog2_mono _ _ (Qabs_pos_nz x N) H). lia.
Qed.

Lemma quantum_opp (x : Q) : quantum (- x) = quantum x.
Proof.
unfold quantum. destruct x as [n d]. unfold Qabs, Qopp. cbn [Qnum Qden].
rewrite Z.abs_opp. reflexivity.
Qed.

(** ** Binary64 rounding: round_fin *)
Lemma round_fin_zero (x : Q) : x == 0 -> round_fin x = 0.
Proof. intros E. unfold round_fin. apply Qeq_bool_iff in E. rewrite E. reflexivity. Qed.

Lemma round_fin_eq (x : Q) : ~ x == 0 -> round_fin x == round_to (quantum x) x.
Proof.
intros N. unfold round_fin.
destruct (Qeq_bool x 0) eqn:E; [apply Qeq_bool_iff in E; contradiction |].
apply Qred_correct.
Qed.

Lemma round_fin_proper (x y : Q) : x == y -> round_fin x = round_fin y.
Proof.
intros E. unfold round_fin.
destruct (Qeq_bool x 0) eqn:Ex; destruct (Qeq_bool y 0) eqn:Ey; try reflexivity.
- apply Qeq_bool_iff in Ex. apply Qeq_bool_neq in Ey. exfalso. apply Ey. rewrite <- E. exact Ex.
- apply Qeq_bool_iff in Ey. apply Qeq_bool_neq in Ex. exfalso. apply Ex. rewrite E. exact Ey.
- apply Qeq_bool_neq in Ex.
  rewrite (quantum_proper x y Ex E), (round_to_proper _ x y E). reflexivity.
Qed.

Lemma round_fin_opp (x : Q) : round_fin (- x) == - round_fin x.
Proof.
destruct (Qeq_dec x 0) as [E | N].
- rewrite (round_fin_zero x E), (round_fin_zero (- x)); [reflexivity | rewrite E; reflexivity].
- rewrite round_fin_eq, (round_fin_eq x N), quantum_opp, round_to_opp; [reflexivity |].
  intros C. apply N. lra.
Qed.

Lemma round_fin_nonneg (x : Q) : 0 <= x -> 0 <= round_fin x.
Proof.
intros H. destruct (Qeq_dec x 0) as [E | N].
- rewrite (round_fin_zero x E). apply Qle_refl.
- rewrite (round_fin_eq x N), <- (round_to_0 (quantum x)). apply round_to_mono, H.
Qed.

Lemma round_fin_nonpos (x : Q) : x <= 0 -> round_fin x <= 0.
Proof.
intros H. destruct (Qeq_dec x 0) as [E | N].
- rewrite (round_fin_zero x E). apply Qle_refl.
- rewrite (round_fin_eq x N), <- (round_to_0 (quantum x)). apply round_to_mono, H.
Qed.

Lemma round_pos_upper (x : Q) :
  0 < x -> round_to (quantum x) x <= pow2 (quantum x + 53).
Proof.
intros P. assert (~ x == 0) as N by lra.
pose proof (quantum_upper x N) as U. rewrite Qabs_pos in U by lra.
rewrite <- (round_to_multiple (quantum x) (2 ^ 53) (pow2 (quantum x + 53))).
- apply round_to_mono. lra.
- rewrite Z.add_comm, pow2_add, (pow2_Z 53) by lia. reflexivity.
Qed.

Lemma round_pos_lower (x : Q) (e : Z) :
  pow2 (e + 52) <= x -> pow2 (e + 52) <= round_to e x.
Proof.
intros L.
rewrite <- (round_to_multiple e (2 ^ 52) (pow2 (e + 52))).
- apply round_to_mono. exact L.
- rewrite Z.add_comm, pow2_add, (pow2_Z 52) by lia. reflexivity.
Qed.

Lemma round_fin_mono_pos (x y : Q) : 0 < x -> x <= y -> round_fin x <= round_fin y.
Proof.
intros Px Hxy. assert (0 < y) as Py by lra.
assert (~ x == 0) as Nx by lra. assert (~ y == 0) as Ny by lra.
rewrite (round_fin_eq x Nx), (round_fin_eq y Ny).
assert (quantum x <= quantum y)%Z as Hq.
{ apply quantum_mono; [exact Nx |]. rewrite !Qabs_pos by lra. exact Hxy. }
destruct (Z.eq_dec (quantum x) (quantum y)) as [E | NE].
- rewrite E. apply round_to_mono, Hxy.
- pose proof (quantum_ge x).
  pose proof (quantum_lower y Ny ltac:(lia)) as L. rewrite Qabs_pos in L by lra.
  eapply Qle_trans; [apply round_pos_upper, Px |].
  eapply Qle_trans; [| apply round_pos_lower, L].
  apply pow2_le. lia.
Qed.

Lemma round_fin_mono (x y : Q) : x <= y -> round_fin x <= round_fin y.
Proof.
intros H.
destruct (Qlt_le_dec 0 x) as [Px | Nx].
- apply round_fin_mono_pos; assumption.
- destruct (Qlt_le_dec y 0) as [Ny | Py].
  + assert (round_fin (- y) <= round_fin (- x)) as M
      by (apply round_fin_mono_pos; lra).
    rewrite !round_fin_opp in M. lra.
  + eapply Qle_trans; [apply round_fin_nonpos, Nx | apply round_fin_nonneg, Py].
Qed.

Lemma round_fin_err (x : Q) :
  x - (1 # 2) * pow2 (quantum x) <= round_fin x /\
  round_fin x <= x + (1 # 2) * pow2 (quantum x).
Proof.
pose proof (pow2_pos (quantum x)) as P.
destruct (Qeq_dec x 0) as [E | N].
- rewrite (round_fin_zero x E). split; lra.
- rewrite (round_fin_eq x N). apply round_to_err.
Qed.

Lemma representable_multiple (x : Q) (k e : Z) :
  x == inject_Z k * pow2 e -> (quantum x <= e)%Z -> representable x.
Proof.
intros E H. unfold representable.
destruct (Qeq_dec x 0) as [Z0 | N].
- rewrite (round_fin_zero x Z0). symmetry. exact Z0.
- rewrite (round_fin_eq x N).
  apply (round_to_multiple _ (k * 2 ^ (e - quantum x))).
  eapply Qeq_trans; [exact E |]. generalize (quantum x) H. intros q Hq.
  rewrite inject_Z_mult, <- (pow2_Z (e - q)) by lia.
  rewrite <- Qmult_assoc, <- pow2_add. replace (e - q + q)%Z with e by lia.
  reflexivity.
Qed.

Lemma round_fin_multiple (x : Q) :
  exists k, round_fin x == inject_Z k * pow2 (quantum x).
Proof.
destruct (Qeq_dec x 0) as [E | N].
- exists 0%Z. rewrite (round_fin_zero x E). ring.
- exists (round_half_even (x / pow2 (quantum x))). rewrite (round_fin_eq x N). reflexivity.
Qed.

Lemma round_fin_abs_upper (x : Q) : ~ x == 0 -> Qabs (round_fin x) <= pow2 (quantum x + 53).
Proof.
intros N. destruct (Qlt_le_dec 0 x) as [P | NP].
- rewrite Qabs_pos by (apply round_fin_nonneg; lra).
  rewrite (round_fin_eq x N). apply round_pos_upper, P.
- assert (0 < - x) as P by (destruct (Qle_lt_or_eq _ _ NP); [lra | contradiction]).
  rewrite Qabs_neg by (apply round_fin_nonpos; lra).
  rewrite <- round_fin_opp, round_fin_eq by lra.
  rewrite <- (quantum_opp x). apply round_pos_upper, P.
Qed.

Lemma round_fin_representable (x : Q) : representable (round_fin x).
Proof.
destruct (Qeq_dec x 0) as [E | N].
- rewrite (round_fin_zero x E). reflexivity.
- destruct (round_fin_multiple x) as [k Hk].
  pose proof (round_fin_abs_upper x N) as U.
  destruct (Qle_lt_or_eq _ _ U) as [L | Eq].
  + (* below the next binade: the quantum does not grow *)
    destruct (Qeq_dec (round_fin x) 0) as [Z0 | NZ].
    * unfold representable. rewrite (round_fin_zero _ Z0). symmetry. exact Z0.
    * apply (representable_multiple _ k (quantum x) Hk).
      unfold quantum at 1. pose proof (quantum_ge x).
      destruct (Qlog2_spec _ (Qabs_pos_nz _ NZ)) as [S _].
      assert (pow2 (Qlog2 (Qabs (round_fin x))) < pow2 (quantum x + 53)) as A
        by (eapply Qle_lt_trans; eauto).
      assert (Qlog2 (Qabs (round_fin x)) < quantum x + 53)%Z.
      { destruct (Z_lt_ge_dec (Qlog2 (Qabs (round_fin x))) (quantum x + 53)); [assumption |].
        exfalso. apply (Qlt_irrefl (pow2 (quantum x + 53))).
        eapply Qle_lt_trans; [| exact A]. apply pow2_le. lia. }
      lia.
  + (* exactly the next power of two *)
    assert (exists s, (s = 1 \/ s = -1)%Z /\ round_fin x == inject_Z s * pow2 (quantum x + 53))
      as (s & Hs & Es).
    { destruct (Qlt_le_dec (round_fin x) 0) as [Neg | Pos].
      - exists (-1)%Z. split; [auto |]. rewrite Qabs_neg in Eq by lra.
        change (inject_Z (-1)) with (-1 # 1). lra.
      - exists 1%Z. split; [auto |]. rewrite Qabs_pos in Eq by lra.
        change (inject_Z 1) with 1. lra. }
    apply (representable_multiple _ s (quantum x + 53) Es).
    unfold quantum at 1.
    rewrite (Qlog2_unique (Qabs (round_fin x)) (quantum x + 53));
      [| rewrite Eq; apply Qle_refl | rewrite Eq; apply pow2_lt; lia].
    pose proof (quantum_ge x). lia.
Qed.



(** ** Binary64 rounding: error bound, grid, integers, scaling *)
Lemma pow2_quantum_bound (x : Q) :
  ~ x == 0 -> (1 # 2) * pow2 (quantum x) <= unit_roundoff * Qabs x + half_min.
Proof.
intros N. unfold unit_roundoff, half_min.
destruct (Qlog2_spec _ (Qabs_pos_nz x N)) as [S _].
pose proof (pow2_pos (-53)) as P53. pose proof (pow2_pos (-1075)) as P1075.
pose proof (Qabs_nonneg x) as A.
assert ((1 # 2) * pow2 (Qlog2 (Qabs x) - 52) == pow2 (-53) * pow2 (Qlog2 (Qabs x))) as E1.
{ replace (Qlog2 (Qabs x) - 52)%Z with (-53 + Qlog2 (Qabs x) + 1)%Z by lia.
  rewrite pow2_succ, pow2_add. ring. }
assert ((1 # 2) * pow2 (-1074) == pow2 (-1075)) as E2.
{ change (-1074)%Z with (-1075 + 1)%Z. rewrite pow2_succ. ring. }
assert (pow2 (-53) * pow2 (Qlog2 (Qabs x)) <= pow2 (-53) * Qabs x) as M
  by (apply Qmult_le_l; assumption).
unfold quantum. destruct (Z.max_spec (Qlog2 (Qabs x) - 52) (-1074)) as [[_ ->] | [_ ->]].
- rewrite E2. nra.
- rewrite E1. nra.
Qed.

Lemma round_fin_error (x : Q) :
  Qabs (round_fin x - x) <= unit_roundoff * Qabs x + half_min.
Proof.
destruct (Qeq_dec x 0) as [E | N].
- rewrite (round_fin_zero x E).
  assert (0 - x == 0) as -> by (rewrite E; ring).
  pose proof (pow2_pos (-53)). pose proof (pow2_pos (-1075)). pose proof (Qabs_nonneg x).
  unfold unit_roundoff, half_min. change (Qabs 0) with 0. nra.
- destruct (round_fin_err x) as [E1 E2].
  pose proof (pow2_quantum_bound x N) as B.
  apply Qabs_case; intros; lra.
Qed.

Lemma round_fin_rel_error (x : Q) :
  pow2 (-1022) <= Qabs x -> Qabs (round_fin x - x) <= unit_roundoff * Qabs x.
Proof.
intros H.
assert (~ x == 0) as N.
{ intros C. rewrite C in H. change (Qabs 0) with 0 in H.
  pose proof (pow2_pos (-1022)). lra. }
destruct (round_fin_err x) as [E1 E2].
destruct (Qlog2_spec _ (Qabs_pos_nz x N)) as [S _].
rewrite (quantum_normal x H) in E1, E2.
assert ((1 # 2) * pow2 (Qlog2 (Qabs x) - 52) == pow2 (-53) * pow2 (Qlog2 (Qabs x))) as E.
{ replace (Qlog2 (Qabs x) - 52)%Z with (-53 + Qlog2 (Qabs x) + 1)%Z by lia.
  rewrite pow2_succ, pow2_add. ring. }
pose proof (pow2_pos (-53)) as P53.
assert (pow2 (-53) * pow2 (Qlog2 (Qabs x)) <= pow2 (-53) * Qabs x) as M
  by (apply Qmult_le_l; assumption).
unfold unit_roundoff. apply Qabs_case; intros; lra.
Qed.

Lemma representable_grid (x : Q) :
  representable x -> exists k, x == inject_Z k * pow2 (-1074).
Proof.
intros R. destruct (round_fin_multiple x) as [k Hk]. unfold representable in R.
pose proof (quantum_ge x) as G.
exists (k * 2 ^ (quantum x + 1074))%Z.
eapply Qeq_trans; [symmetry; exact R |]. eapply Qeq_trans; [exact Hk |]. generalize (quantum x) G. intros q Gq.
rewrite inject_Z_mult, <- (pow2_Z (q + 1074)) by lia.
rewrite <- Qmult_assoc, <- pow2_add. replace (q + 1074 + -1074)%Z with q by lia.
reflexivity.
Qed.

Lemma representable_0 : representable 0.
Proof. reflexivity. Qed.

Lemma representable_opp (x : Q) : representable x -> representable (- x).
Proof. unfold representable. intros R. rewrite round_fin_opp, R. reflexivity. Qed.

Lemma representable_Z (z : Z) : (Z.abs z <= 2 ^ 53)%Z -> representable (inject_Z z).
Proof.
intros H. destruct (Z.eq_dec z 0%Z) as [-> | N]; [reflexivity |].
destruct (Z.eq_dec (Z.abs z) (2 ^ 53)%Z) as [E | NE].
- apply (representable_multiple _ (Z.sgn z) 53).
  + rewrite (pow2_Z 53), <- inject_Z_mult by lia. rewrite <- E.
    apply inject_Z_injective. lia.
  + unfold quantum.
    assert (Qabs (inject_Z z) == pow2 53) as EA.
    { rewrite (pow2_Z 53) by lia. rewrite <- E. unfold Qabs, inject_Z. cbn. reflexivity. }
    rewrite (Qlog2_unique _ 53); [lia | rewrite EA; apply Qle_refl |
                                   rewrite EA; apply pow2_lt; lia].
- apply (representable_multiple _ z 0); [rewrite pow2_0; ring |].
  unfold quantum.
  assert (Qabs (inject_Z z) == inject_Z (Z.abs z)) as EA by reflexivity.
  assert (0 < Qabs (inject_Z z)) as P.
  { rewrite EA. change 0 with (inject_Z 0). rewrite <- Zlt_Qlt. lia. }
  destruct (Qlog2_spec _ P) as [S _].
  assert (pow2 (Qlog2 (Qabs (inject_Z z))) < pow2 53) as L.
  { eapply Qle_lt_trans; [exact S |]. rewrite EA, (pow2_Z 53) by lia.
    rewrite <- Zlt_Qlt. lia. }
  assert (Qlog2 (Qabs (inject_Z z)) < 53)%Z.
  { destruct (Z_lt_ge_dec (Qlog2 (Qabs (inject_Z z))) 53); [assumption |].
    exfalso. apply (Qlt_irrefl (pow2 53)). eapply Qle_lt_trans; [| exact L].
    apply pow2_le. lia. }
  lia.
Qed.




(** ** Binary64 rounding: finite results *)

Lemma Qle_bool_proper_r (a x y : Q) : x == y -> Qle_bool a x = Qle_bool a y.
Proof.
intros E. destruct (Qle_bool a x) eqn:Hx, (Qle_bool a y) eqn:Hy; try reflexivity.
- apply Qle_bool_iff in Hx. rewrite E in Hx. apply Qle_bool_iff in Hx. congruence.
- apply Qle_bool_iff in Hy. rewrite <- E in Hy. apply Qle_bool_iff in Hy. congruence.
Qed.

Lemma round64_proper (x y : Q) : x == y -> round64 x = round64 y.
Proof.
intros E. unfold round64, is_neg.
rewrite (round_fin_proper x y E), (Qle_bool_proper_r 0 x y E). reflexivity.
Qed.

Lemma round64_fin (x : Q) :
  Qabs (round_fin x) <= max_float -> round64 x = Fin (round_fin x).
Proof.
intros H. unfold round64. apply Qle_bool_iff in H. rewrite H. reflexivity.
Qed.

Lemma representable_pow2 (e : Z) : (-1074 <= e)%Z -> representable (pow2 e).
Proof.
intros H. apply (representable_multiple _ 1 e); [ring |].
assert (Qabs (pow2 e) == pow2 e) as EA by (apply Qabs_pos, Qlt_le_weak, pow2_pos).
unfold quantum.
rewrite (Qlog2_unique (Qabs (pow2 e)) e);
  [lia | rewrite EA; apply Qle_refl | rewrite EA; apply pow2_lt; lia].
Qed.

Lemma round_fin_abs_le (x m : Q) :
  representable m -> Qabs x <= m -> Qabs (round_fin x) <= m.
Proof.
intros R H. unfold representable in R.
assert (- m <= x /\ x <= m) as [L U] by (apply Qabs_Qle_condition; exact H).
apply Qabs_Qle_condition. split.
- rewrite <- R at 1. rewrite <- round_fin_opp. apply round_fin_mono, L.
- rewrite <- R. apply round_fin_mono, U.
Qed.

Lemma pow2_1023_le_max : pow2 1023 <= max_float.
Proof. apply Qle_bool_iff. vm_compute. reflexivity. Qed.

Lemma round64_small (x : Q) : Qabs x <= pow2 1023 -> round64 x = Fin (round_fin x).
Proof.
intros H. apply round64_fin.
eapply Qle_trans; [| apply pow2_1023_le_max].
apply round_fin_abs_le; [apply representable_pow2; lia | exact H].
Qed.

Lemma round_fin_between (a b x : Q) :
  representable a -> representable b -> a <= x -> x <= b ->
  a <= round_fin x /\ round_fin x <= b.
Proof.
unfold representable. intros Ra Rb L U. split.
- rewrite <- Ra. apply round_fin_mono, L.
- rewrite <- Rb. apply round_fin_mono, U.
Qed.

(** A rounding error of at most one per cent and half a subnormal step. *)
Lemma round_fin_coarse (x : Q) :
  0 <= x ->
  x - ((1 # 100) * x + half_min) <= round_fin x /\
  round_fin x <= x + ((1 # 100) * x + half_min).
Proof.
intros P. pose proof (round_fin_error x) as E.
rewrite (Qabs_pos x P) in E.
assert (unit_roundoff <= 1 # 100) as U by (apply Qle_bool_iff; vm_compute; reflexivity).
assert (unit_roundoff * x <= (1 # 100) * x) as M
  by (apply Qmult_le_compat_r; assumption).
apply Qabs_Qle_condition in E. destruct E as [E1 E2]. split; lra.
Qed.

Lemma half_min_small : half_min <= (1 # 100) * pow2 (-1022).
Proof. apply Qle_bool_iff. vm_compute. reflexivity. Qed.

(** Below [2 ^ -1022] the multiples of [2 ^ -1074] are binary64 values. *)
Lemma representable_subnormal (x : Q) (k : Z) :
  x == inject_Z k * pow2 (-1074) -> Qabs x < pow2 (-1022) -> representable x.
Proof.
intros E H. destruct (Qeq_dec x 0) as [Z0 | N].
- unfold representable. rewrite (round_fin_zero x Z0). symmetry. exact Z0.
- apply (representable_multiple x k (-1074) E).
  destruct (Qlog2_spec _ (Qabs_pos_nz x N)) as [S _].
  assert (pow2 (Qlog2 (Qabs x)) < pow2 (-1022)) as A by (eapply Qle_lt_trans; eauto).
  assert (Qlog2 (Qabs x) < -1022)%Z.
  { destruct (Z_lt_ge_dec (Qlog2 (Qabs x)) (-1022)); [assumption |].
    exfalso. apply (Qlt_irrefl (pow2 (-1022))). eapply Qle_lt_trans; [| exact A].
    apply pow2_le. lia. }
  unfold quantum. lia.
Qed.

(** The results of a rounding are reduced fractions, so equal values are
    the same term. *)
Lemma round_fin_canonical (x : Q) : Qred (round_fin x) = round_fin x.
Proof.
unfold round_fin. destruct (Qeq_bool x 0); [reflexivity |].
apply Qred_complete, Qred_correct.
Qed.

Lemma round_fin_idem (x : Q) : round_fin (round_fin x) = round_fin x.
Proof.
transitivity (Qred (round_fin (round_fin x))); [symmetry; apply round_fin_canonical |].
transitivity (Qred (round_fin x)); [| apply round_fin_canonical].
apply Qred_complete, round_fin_representable.
Qed.

(** * Properties *)

(** ** Order statistics *)

Section OrderStatistics.

Lemma Qle_bool_false (x y : Q) : Qle_bool x y = false -> y <= x.
Proof.
  intros H. destruct (Qlt_le_dec y x) as [Hlt | Hle].
  - apply Qlt_le_weak, Hlt.
  - apply Qle_bool_iff in Hle. congruence.
Qed.

Lemma Qle_bool_false_lt (x y : Q) : Qle_bool x y = false -> y < x.
Proof.
  intros H. destruct (Qlt_le_dec y x) as [Hlt | Hle]; [exact Hlt |].
  apply Qle_bool_iff in Hle. congruence.
Qed.

Lemma insert_sorted_In (x y : Q) (ys : list Q) :
  In y (insert_sorted x ys) <-> y = x \/ In y ys.
Proof.
  induction ys as [| z ys IH]; simpl.
  - intuition.
  - destruct (Qle_bool x z); simpl; [intuition |].
    rewrite IH. intuition.
Qed.

Lemma sort_In (y : Q) (xs : list Q) : In y (sort xs) <-> In y xs.
Proof.
  induction xs as [| x xs IH]; simpl; [reflexivity |].
  rewrite insert_sorted_In, IH. intuition.
Qed.

Lemma insert_sorted_length (x : Q) (ys : list Q) :
  length (insert_sorted x ys) = S (length ys).
Proof.
  induction ys as [| z ys IH]; simpl; [reflexivity |].
  destruct (Qle_bool x z); simpl; [reflexivity | now rewrite IH].
Qed.

Lemma sort_length (xs : list Q) : length (sort xs) = length xs.
Proof.
  induction xs as [| x xs IH]; simpl; [reflexivity |].
  now rewrite insert_sorted_length, IH.
Qed.

Lemma insert_sorted_sorted (x : Q) (ys : list Q) :
  StronglySorted Qle ys -> StronglySorted Qle (insert_sorted x ys).
Proof.
  induction 1 as [| z ys Hs IH Hall]; simpl.
  - constructor; constructor.
  - destruct (Qle_bool x z) eqn:E.
    + apply Qle_bool_iff in E. constructor.
      * constructor; assumption.
      * constructor; [exact E |].
        eapply List.Forall_impl; [| exact Hall].
        intros a Ha. eapply Qle_trans; eassumption.
    + apply Qle_bool_false in E. constructor; [exact IH |].
      apply List.Forall_forall. intros a Ha.
      apply insert_sorted_In in Ha as [-> | Ha]; [exact E |].
      eapply List.Forall_forall in Hall; eassumption.
Qed.

Lemma sort_sorted (xs : list Q) : StronglySorted Qle (sort xs).
Proof.
  induction xs as [| x xs IH]; simpl.
  - constructor.
  - apply insert_sorted_sorted, IH.
Qed.

Lemma sorted_nth_le (s : list Q) :
  StronglySorted Qle s ->
  forall i j, (i <= j)%nat -> (j < length s)%nat -> nth i s 0 <= nth j s 0.
Proof.
  induction 1 as [| z s Hs IH Hall]; intros i j Hij Hj; simpl in Hj.
  - lia.
  - destruct i as [| i], j as [| j]; simpl.
    + apply Qle_refl.
    + eapply List.Forall_forall in Hall; [exact Hall |].
      apply nth_In. lia.
    + lia.
    + apply IH; lia.
Qed.

Lemma fold_Qmin_le_init (ys : list Q) (y : Q) : fold_left Qmin ys y <= y.
Proof.
  revert y. induction ys as [| z ys IH]; intros y; simpl.
  - apply Qle_refl.
  - eapply Qle_trans; [apply IH |].
    unfold Qmin. destruct (Qle_bool y z) eqn:E.
    + apply Qle_refl.
    + apply Qle_bool_false, E.
Qed.

Lemma fold_Qmin_le (ys : list Q) (y z : Q) :
  In z (y :: ys) -> fold_left Qmin ys y <= z.
Proof.
  revert y. induction ys as [| a ys IH]; intros y Hin; simpl.
  - destruct Hin as [-> | []]. apply Qle_refl.
  - destruct Hin as [-> | [-> | Hin]].
    + eapply Qle_trans; [apply fold_Qmin_le_init |].
      unfold Qmin. destruct (Qle_bool z a) eqn:E.
      * apply Qle_refl.
      * apply Qle_bool_false, E.
    + eapply Qle_trans; [apply fold_Qmin_le_init |].
      unfold Qmin. destruct (Qle_bool y z) eqn:E.
      * apply Qle_bool_iff, E.
      * apply Qle_refl.
    + apply IH. right. exact Hin.
Qed.

Lemma fold_Qmax_ge_init (ys : list Q) (y : Q) : y <= fold_left Qmax ys y.
Proof.
  revert y. induction ys as [| z ys IH]; intros y; simpl.
  - apply Qle_refl.
  - eapply Qle_trans; [| apply IH].
    unfold Qmax. destruct (Qle_bool y z) eqn:E.
    + apply Qle_bool_iff, E.
    + apply Qle_refl.
Qed.

Lemma fold_Qmax_ge (ys : list Q) (y z : Q) :
  In z (y :: ys) -> z <= fold_left Qmax ys y.
Proof.
  revert y. induction ys as [| a ys IH]; intros y Hin; simpl.
  - destruct Hin as [-> | []]. apply Qle_refl.
  - destruct Hin as [-> | [-> | Hin]].
    + eapply Qle_trans; [| apply fold_Qmax_ge_init].
      unfold Qmax. destruct (Qle_bool z a) eqn:E.
      * apply Qle_bool_iff, E.
      * apply Qle_refl.
    + eapply Qle_trans; [| apply fold_Qmax_ge_init].
      unfold Qmax. destruct (Qle_bool y z) eqn:E.
      * apply Qle_refl.
      * apply Qle_bool_false, E.
    + apply IH. right. exact Hin.
Qed.

End OrderStatistics.

(** ** Percentiles by linear interpolation *)

Lemma Qnat_nonneg (n : nat) : 0 <= Qnat n.
Proof. unfold Qnat, Qle; simpl. lia. Qed.

Lemma floor_nonneg (x : Q) : 0 <= x -> (0 <= Qfloor x)%Z.
Proof.
intros H. change 0%Z with (Qfloor 0). apply Qfloor_resp_le, H.
Qed.

(** The part [(b - a) * t] the interpolation adds to [a] or takes from [b],
    for [t] up to one half, does not exceed [b - a] after its two
    roundings. *)
Lemma rounded_part_le (a b t : Q) :
  representable a -> representable b -> a <= b ->
  0 <= t -> t <= 1 # 2 ->
  round_fin (round_fin (b - a) * t) <= b - a.
Proof.
intros Ra Rb Hab T0 T1.
destruct (representable_grid a Ra) as [ka Ea].
destruct (representable_grid b Rb) as [kb Eb].
assert (b - a == inject_Z (kb - ka) * pow2 (-1074)) as Ey.
{ unfold Z.sub. rewrite inject_Z_plus, inject_Z_opp, Ea, Eb. ring. }
set (y := b - a) in *. assert (0 <= y) as Y0 by (subst y; lra).
destruct (Qlt_le_dec y (pow2 (-1022))) as [Small | Normal].
- assert (representable y) as Ry.
  { apply (representable_subnormal y _ Ey). rewrite Qabs_pos by exact Y0. exact Small. }
  unfold representable in Ry.
  assert (round_fin y * t == y * t) as E by (rewrite Ry; reflexivity).
  rewrite (round_fin_proper _ _ E).
  apply (Qle_trans _ (round_fin y)); [apply round_fin_mono; nra | rewrite Ry; apply Qle_refl].
- destruct (round_fin_coarse y Y0) as [_ D].
  pose proof (round_fin_nonneg y Y0) as D0.
  set (d := round_fin y) in *.
  assert (0 <= d * t) as Z0 by nra.
  assert (d * t <= d * (1 # 2)) as Z1 by nra.
  destruct (round_fin_coarse (d * t) Z0) as [_ P].
  pose proof half_min_small as Hm.
  set (z := d * t) in *. lra.
Qed.

Lemma in_range_repr (ints : bool) (x : Q) : glucose_in_range ints x -> representable x.
Proof. intros [R _]. exact R. Qed.

Lemma in_range_bound (ints : bool) (x : Q) :
  glucose_in_range ints x -> Qabs x <= pow2 1022.
Proof.
intros [_ B]. destruct ints; [| exact B].
eapply Qle_trans; [exact B | apply pow2_le; lia].
Qed.

Lemma in_range_interval (ints : bool) (x : Q) :
  glucose_in_range ints x -> - pow2 1022 <= x /\ x <= pow2 1022.
Proof. intros H. apply Qabs_Qle_condition, (in_range_bound ints), H. Qed.

Lemma round_fin_repr (x : Q) : representable x -> round_fin (round_fin x) = round_fin x.
Proof. intros R. apply round_fin_proper, R. Qed.

(** The difference numpy interpolates with is the rounded difference of the
    two readings, in an int64 column as well. *)
Lemma lerp_diff_in_range (ints : bool) (a b : Q) :
  (ints = true -> a == inject_Z (Qfloor a) /\ b == inject_Z (Qfloor b)) ->
  glucose_in_range ints a -> glucose_in_range ints b ->
  lerp_diff ints a b = Fin (round_fin (b - a)).
Proof.
intros Hint Ha Hb.
destruct (in_range_interval _ _ Ha) as [La Ua].
destruct (in_range_interval _ _ Hb) as [Lb Ub].
assert (pow2 1023 == 2 * pow2 1022) as E23 by (change 1023%Z with (1022 + 1)%Z; apply pow2_succ).
assert (Qabs (b - a) <= pow2 1023) as Hy.
{ apply Qabs_Qle_condition. split; lra. }
unfold lerp_diff. destruct ints.
- destruct (Hint eq_refl) as [Ia Ib].
  destruct Ha as [_ Ba], Hb as [_ Bb].
  assert (Z.abs (Qfloor a) <= 2 ^ 53)%Z as Za.
  { rewrite Zle_Qle, <- (pow2_Z 53) by lia.
    assert (inject_Z (Z.abs (Qfloor a)) == Qabs (inject_Z (Qfloor a))) as -> by reflexivity.
    rewrite <- Ia. exact Ba. }
  assert (Z.abs (Qfloor b) <= 2 ^ 53)%Z as Zb.
  { rewrite Zle_Qle, <- (pow2_Z 53) by lia.
    assert (inject_Z (Z.abs (Qfloor b)) == Qabs (inject_Z (Qfloor b))) as -> by reflexivity.
    rewrite <- Ib. exact Bb. }
  assert (wrap64 (Qfloor b - Qfloor a) = (Qfloor b - Qfloor a)%Z) as ->.
  { unfold wrap64. rewrite Z.mod_small; lia. }
  assert (inject_Z (Qfloor b - Qfloor a) == b - a) as E.
  { unfold Z.sub. rewrite inject_Z_plus, inject_Z_opp, <- Ia, <- Ib. ring. }
  rewrite (round64_proper _ _ E). apply round64_small, Hy.
- unfold b64_sub, b64_neg, b64_add.
  assert (round_fin b + - round_fin a == b - a) as E.
  { pose proof (in_range_repr _ _ Ha) as Ra. pose proof (in_range_repr _ _ Hb) as Rb.
    unfold representable in Ra, Rb. rewrite Ra, Rb. ring. }
  rewrite (round64_proper _ _ E). apply round64_small, Hy.
Qed.

(** The interpolation of two readings [a <= b] is finite and stays between
    them. *)
Lemma lerp_value (ints : bool) (a b t : Q) :
  (ints = true -> a == inject_Z (Qfloor a) /\ b == inject_Z (Qfloor b)) ->
  glucose_in_range ints a -> glucose_in_range ints b ->
  a <= b -> 0 <= t -> t <= 1 ->
  let d := round_fin (b - a) in
  let r := if Qle_bool (1 # 2) t
           then round_fin (b - round_fin (d * round_fin (1 - t)))
           else round_fin (a + round_fin (d * t)) in
  lerp ints a b t = Fin r /\ a <= r /\ r <= b.
Proof.
intros Hint Ha Hb Hab T0 T1.
pose proof (in_range_repr _ _ Ha) as Ra. pose proof (in_range_repr _ _ Hb) as Rb.
pose proof Ra as Ra'. pose proof Rb as Rb'. unfold representable in Ra', Rb'.
destruct (in_range_interval _ _ Ha) as [La Ua].
destruct (in_range_interval _ _ Hb) as [Lb Ub].
assert (pow2 1023 == 2 * pow2 1022) as E23 by (change 1023%Z with (1022 + 1)%Z; apply pow2_succ).
pose proof (pow2_pos 1022) as P22.
assert (1 <= pow2 1022) as P1 by (rewrite <- pow2_0; apply pow2_le; lia).
assert (0 <= b - a) as Y0 by lra.
pose proof (round_fin_nonneg _ Y0) as D0.
unfold lerp. rewrite (lerp_diff_in_range ints a b Hint Ha Hb).
assert (round_fin (b - a) <= pow2 1023) as Dle.
{ assert (Qabs (b - a) <= pow2 1023) as Hy by (apply Qabs_Qle_condition; split; lra).
  pose proof (round_fin_abs_le _ _ (representable_pow2 1023 ltac:(lia)) Hy) as A.
  apply Qabs_Qle_condition in A. tauto. }
set (d := round_fin (b - a)) in *. cbv zeta.
destruct (Qle_bool (1 # 2) t) eqn:Ht.
- apply Qle_bool_iff in Ht.
  assert (0 <= 1 - t) as S0 by lra. assert (1 - t <= 1 # 2) as S1 by lra.
  assert (round_fin (1 # 2) == 1 # 2) as Rh by (apply Qeq_bool_iff; vm_compute; reflexivity).
  pose proof (round_fin_nonneg _ S0) as S0'.
  assert (round_fin (1 - t) <= 1 # 2) as S1' by (rewrite <- Rh; apply round_fin_mono, S1).
  rewrite (round64_small (1 - t)) by (apply Qabs_Qle_condition; split; lra).
  set (s := round_fin (1 - t)) in *.
  pose proof (rounded_part_le a b s Ra Rb Hab S0' S1') as K. fold d in K.
  assert (0 <= d * s) as Z0 by nra.
  pose proof (round_fin_nonneg _ Z0) as P0.
  cbn [b64_mul]. rewrite (round64_small (d * s)) by (apply Qabs_Qle_condition; split; nra).
  set (p := round_fin (d * s)) in *.
  unfold b64_sub, b64_neg, b64_add.
  assert (round_fin b + - p == b - p) as E by (rewrite Rb'; ring).
  rewrite (round64_proper _ _ E).
  destruct (round_fin_between a b (b - p) Ra Rb ltac:(lra) ltac:(lra)) as [R1 R2].
  rewrite round64_small by (apply Qabs_Qle_condition; split; lra).
  split; [reflexivity | split; assumption].
- assert (t < 1 # 2) as Ht'.
  { apply Qnot_le_lt. intros C. apply Qle_bool_iff in C. congruence. }
  pose proof (rounded_part_le a b t Ra Rb Hab T0 (Qlt_le_weak _ _ Ht')) as K. fold d in K.
  assert (0 <= d * t) as Z0 by nra.
  pose proof (round_fin_nonneg _ Z0) as P0.
  cbn [b64_mul]. rewrite (round64_small (d * t)) by (apply Qabs_Qle_condition; split; nra).
  set (p := round_fin (d * t)) in *.
  unfold b64_add.
  assert (round_fin a + p == a + p) as E by (rewrite Ra'; ring).
  rewrite (round64_proper _ _ E).
  destruct (round_fin_between a b (a + p) Ra Rb ltac:(lra) ltac:(lra)) as [R1 R2].
  rewrite round64_small by (apply Qabs_Qle_condition; split; lra).
  split; [reflexivity | split; assumption].
Qed.

(** Two parts of at most six per cent of [b - a] each do not add up to more
    than [b - a] after their roundings. *)
Lemma two_parts_le (a b c1 c2 : Q) :
  representable a -> representable b -> a <= b ->
  0 <= c1 -> c1 <= 6 # 100 -> 0 <= c2 -> c2 <= 6 # 100 ->
  round_fin (round_fin (b - a) * c1) + round_fin (round_fin (b - a) * c2) <= b - a.
Proof.
intros Ra Rb Hab C1 C1' C2 C2'.
destruct (representable_grid a Ra) as [ka Ea].
destruct (representable_grid b Rb) as [kb Eb].
assert (b - a == inject_Z (kb - ka) * pow2 (-1074)) as Ey.
{ unfold Z.sub. rewrite inject_Z_plus, inject_Z_opp, Ea, Eb. ring. }
set (y := b - a) in *. assert (0 <= y) as Y0 by (subst y; lra).
set (k := (kb - ka)%Z) in *.
pose proof (pow2_pos (-1074)) as G.
assert (pow2 (-1074) == 2 * half_min) as Eg
  by (unfold half_min; change (-1074)%Z with (-1075 + 1)%Z; apply pow2_succ).
destruct (Z_le_gt_dec k 0%Z) as [K0 | Kpos].
- (* no difference *)
  assert (inject_Z k <= 0) as K0' by (change 0 with (inject_Z 0); rewrite <- Zle_Qle; exact K0).
  assert (y == 0) as Z0 by nra.
  rewrite (round_fin_zero y Z0).
  rewrite (round_fin_zero (0 * c1)), (round_fin_zero (0 * c2)) by ring. lra.
- destruct (Z.eq_dec k 1%Z) as [K1 | Kn1].
  + (* one subnormal step *)
    assert (y == pow2 (-1074)) as E1 by (rewrite Ey, K1; ring).
    assert (round_fin y == pow2 (-1074)) as Ed.
    { rewrite (round_fin_proper _ _ E1). apply representable_pow2. lia. }
    assert (round_fin (pow2 (-1074) * (6 # 100)) == 0) as Z6
      by (apply Qeq_bool_iff; vm_compute; reflexivity).
    assert (forall c, 0 <= c -> c <= 6 # 100 -> round_fin (round_fin y * c) == 0) as P.
    { intros c H0 H6. apply Qle_antisym.
      - rewrite <- Z6. apply round_fin_mono. rewrite Ed. nra.
      - apply round_fin_nonneg. rewrite Ed. nra. }
    rewrite (P c1 C1 C1'), (P c2 C2 C2'). lra.
  + assert (2 <= inject_Z k) as K2 by (change 2 with (inject_Z 2); rewrite <- Zle_Qle; lia).
    assert (4 * half_min <= y) as Hy by nra.
    destruct (round_fin_coarse y Y0) as [_ D].
    pose proof (round_fin_nonneg y Y0) as D0.
    set (d := round_fin y) in *.
    assert (0 <= d * c1) as Z1 by nra. assert (d * c1 <= d * (6 # 100)) as Z1' by nra.
    assert (0 <= d * c2) as Z2 by nra. assert (d * c2 <= d * (6 # 100)) as Z2' by nra.
    destruct (round_fin_coarse (d * c1) Z1) as [_ P1].
    destruct (round_fin_coarse (d * c2) Z2) as [_ P2].
    set (z1 := d * c1) in *. set (z2 := d * c2) in *.
    pose proof (pow2_pos (-1075)) as Hpos. fold half_min in Hpos. lra.
Qed.

Lemma percentile_unfold (ints : bool) (q : Q) (ys : list Q) :
  percentile ints q ys =
  let s := sort ys in
  let n := length ys in
  let p := previous_index n q in
  lerp ints (nth p s 0) (nth (Nat.min (p + 1) (n - 1)) s 0)
       (virtual_index n q - Qnat p).
Proof.
unfold percentile. cbv zeta. rewrite sort_length. reflexivity.
Qed.

Lemma previous_index_spec (n : nat) (q : Q) :
  0 <= virtual_index n q ->
  Qnat (previous_index n q) <= virtual_index n q /\
  virtual_index n q < Qnat (previous_index n q) + 1.
Proof.
intros Hlo. pose proof (floor_nonneg _ Hlo) as Hf.
unfold previous_index, Qnat. rewrite Z2Nat.id by exact Hf.
split; [apply Qfloor_le |].
pose proof (Qlt_floor (virtual_index n q)) as Hlt.
rewrite inject_Z_plus in Hlt. exact Hlt.
Qed.

Section SortedReadings.

Context (ints : bool) (ys : list Q).
Hypothesis in_range : forall y, In y ys -> glucose_in_range ints y.
Hypothesis integers : ints = true -> forall y, In y ys -> y == inject_Z (Qfloor y).

Lemma nth_sort_In (i : nat) : (i < length ys)%nat -> In (nth i (sort ys) 0) ys.
Proof. intros H. apply sort_In, nth_In. rewrite sort_length. exact H. Qed.

(** A percentile is finite and lies between its two neighbouring order
    statistics. *)
Lemma percentile_between (q : Q) :
  0 <= virtual_index (length ys) q ->
  (previous_index (length ys) q < length ys)%nat ->
  let p := previous_index (length ys) q in
  let a := nth p (sort ys) 0 in
  let b := nth (Nat.min (p + 1) (length ys - 1)) (sort ys) 0 in
  let t := virtual_index (length ys) q - Qnat p in
  let d := round_fin (b - a) in
  let r := if Qle_bool (1 # 2) t
           then round_fin (b - round_fin (d * round_fin (1 - t)))
           else round_fin (a + round_fin (d * t)) in
  percentile ints q ys = Fin r /\ a <= r /\ r <= b.
Proof using in_range integers.
intros Hvi Hp p a b t d r. rewrite percentile_unfold. cbv zeta. fold p.
destruct (previous_index_spec _ q Hvi) as [P1 P2]. fold p in P1, P2.
assert (Nat.min (p + 1) (length ys - 1) < length ys)%nat as Hnext by lia.
assert (In a ys) as Ia by (apply nth_sort_In; exact Hp).
assert (In b ys) as Ib by (apply nth_sort_In; exact Hnext).
apply lerp_value.
- intros Hi. split; apply (integers Hi); assumption.
- apply in_range, Ia.
- apply in_range, Ib.
- apply sorted_nth_le; [apply sort_sorted | lia | rewrite sort_length; exact Hnext].
- lra.
- lra.
Qed.

End SortedReadings.

(** *** The two quantiles of the range calculator *)

Lemma q05_bounds : 0 <= q05 /\ q05 <= 6 # 100.
Proof. split; apply Qle_bool_iff; vm_compute; reflexivity. Qed.

Lemma q95_bounds : 94 # 100 <= q95 /\ q95 <= 96 # 100.
Proof. split; apply Qle_bool_iff; vm_compute; reflexivity. Qed.

Lemma half_min_tiny : 0 < half_min /\ half_min <= 1 # 100.
Proof.
split; [apply pow2_pos |]. apply Qle_bool_iff. vm_compute. reflexivity.
Qed.

Lemma Qnat_le (k n : nat) : (k <= n)%nat -> Qnat k <= Qnat n.
Proof. intros H. unfold Qnat. rewrite <- Zle_Qle. lia. Qed.

Lemma floor_succ_le (x y : Q) : x + 1 <= y -> (Qfloor x + 1 <= Qfloor y)%Z.
Proof.
intros H. rewrite <- (Qfloor_Z (Qfloor x + 1)). apply Qfloor_resp_le.
rewrite inject_Z_plus. pose proof (Qfloor_le x). change (inject_Z 1) with 1. lra.
Qed.

Lemma floor_lt_Z (x : Q) (z : Z) : x < inject_Z z -> (Qfloor x < z)%Z.
Proof.
intros H. rewrite Zlt_Qlt. eapply Qle_lt_trans; [apply Qfloor_le | exact H].
Qed.

(** With three readings or more the two quantiles fall between different
    pairs of neighbours, inside the array. *)
Lemma index_facts (n : nat) :
  (3 <= n)%nat ->
  0 <= virtual_index n q05 /\ 0 <= virtual_index n q95 /\
  (previous_index n q05 + 1 <= previous_index n q95)%nat /\
  (previous_index n q95 + 1 <= n - 1)%nat.
Proof.
intros Hn.
destruct q05_bounds as [A0 A1]. destruct q95_bounds as [B0 B1].
destruct half_min_tiny as [E0 E1].
pose proof (Qnat_le 2 (n - 1) ltac:(lia)) as HN. change (Qnat 2) with 2 in HN.
unfold previous_index, virtual_index.
set (N := Qnat (n - 1)) in *.
destruct (round_fin_coarse N ltac:(lra)) as [M1 M2].
pose proof (round_fin_nonneg N ltac:(lra)) as M0.
set (m := round_fin N) in *.
assert (0 <= m * q05) as Z5 by nra.
assert (m * q05 <= m * (6 # 100)) as Z5' by nra.
assert (m * (94 # 100) <= m * q95) as Z95 by nra.
assert (m * q95 <= m * (96 # 100)) as Z95' by nra.
assert (0 <= m * q95) as Z95'' by nra.
destruct (round_fin_coarse _ Z5) as [_ V5].
destruct (round_fin_coarse _ Z95'') as [V95 V95'].
pose proof (round_fin_nonneg _ Z5) as V5n.
pose proof (round_fin_nonneg _ Z95'') as V95n.
set (z5 := m * q05) in *. set (z95 := m * q95) in *.
set (v5 := round_fin z5) in *. set (v95 := round_fin z95) in *.
split; [exact V5n |]. split; [exact V95n |].
pose proof (floor_nonneg _ V5n) as F5. pose proof (floor_nonneg _ V95n) as F95.
assert (Qfloor v5 + 1 <= Qfloor v95)%Z as I1 by (apply floor_succ_le; lra).
assert (Qfloor v95 < Z.of_nat (n - 1))%Z as I2.
{ apply floor_lt_Z. fold (Qnat (n - 1)). fold N. lra. }
split; lia.
Qed.

Section RangeQuantiles.

Context (ints : bool) (ys : list Q).
Hypothesis in_range : forall y, In y ys -> glucose_in_range ints y.
Hypothesis integers : ints = true -> forall y, In y ys -> y == inject_Z (Qfloor y).
Hypothesis nonempty : ys <> [].

(** The 5th and the 95th percentile are finite, each lies between two
    readings, and the 5th is not above the 95th. *)
Lemma quantiles_ordered :
  exists low high,
    percentile ints q05 ys = Fin low /\ percentile ints q95 ys = Fin high /\
    (exists y, In y ys /\ y <= low) /\ (exists y, In y ys /\ high <= y) /\
    low <= high.
Proof using in_range integers nonempty.
assert (1 <= length ys)%nat as Hlen by (destruct ys; [congruence | simpl; lia]).
destruct (Nat.eq_dec (length ys) 1%nat) as [N1 | NN1];
  [| destruct (Nat.eq_dec (length ys) 2%nat) as [N2 | NN2]].
- (* one reading *)
  assert (virtual_index (length ys) q05 = 0) as V5 by (rewrite N1; reflexivity).
  assert (virtual_index (length ys) q95 = 0) as V95 by (rewrite N1; reflexivity).
  assert (previous_index (length ys) q05 = 0%nat) as P5
    by (unfold previous_index; rewrite V5; reflexivity).
  assert (previous_index (length ys) q95 = 0%nat) as P95
    by (unfold previous_index; rewrite V95; reflexivity).
  destruct (percentile_between ints ys in_range integers q05) as (E5 & L5 & U5);
    [rewrite V5; lra | rewrite P5; lia |].
  destruct (percentile_between ints ys in_range integers q95) as (E95 & L95 & U95);
    [rewrite V95; lra | rewrite P95; lia |].
  rewrite P5, N1 in *. rewrite P95 in *. cbn [Nat.min Nat.add Nat.sub] in *.
  match type of E5 with _ = Fin ?r => set (r5 := r) in * end.
  match type of E95 with _ = Fin ?r => set (r95 := r) in * end.
  eexists. eexists. split; [exact E5 |]. split; [exact E95 |].
  assert (In (nth 0 (sort ys) 0) ys) as I0 by (apply nth_sort_In; lia).
  split; [eexists; split; [exact I0 | exact L5] |].
  split; [eexists; split; [exact I0 | exact U95] |]. lra.
- (* two readings: both quantiles between the same pair *)
  assert (virtual_index (length ys) q05 = q05) as V5 by (rewrite N2; vm_compute; reflexivity).
  assert (virtual_index (length ys) q95 = q95) as V95 by (rewrite N2; vm_compute; reflexivity).
  assert (previous_index (length ys) q05 = 0%nat) as P5
    by (unfold previous_index; rewrite V5; reflexivity).
  assert (previous_index (length ys) q95 = 0%nat) as P95
    by (unfold previous_index; rewrite V95; reflexivity).
  destruct (percentile_between ints ys in_range integers q05) as (E5 & L5 & U5);
    [rewrite V5; apply q05_bounds | rewrite P5; lia |].
  destruct (percentile_between ints ys in_range integers q95) as (E95 & L95 & U95);
    [rewrite V95; pose proof q95_bounds; lra | rewrite P95; lia |].
  rewrite P5, V5, N2 in *. rewrite P95, V95 in *. cbn [Nat.min Nat.add Nat.sub] in *.
  assert (In (nth 0 (sort ys) 0) ys) as I0 by (apply nth_sort_In; lia).
  assert (In (nth 1 (sort ys) 0) ys) as I1 by (apply nth_sort_In; lia).
  set (a := nth 0 (sort ys) 0) in *. set (b := nth 1 (sort ys) 0) in *.
  assert (a <= b) as Hab
    by (apply sorted_nth_le; [apply sort_sorted | lia | rewrite sort_length; lia]).
  change (Qle_bool (1 # 2) (q05 - Qnat 0)) with false in *.
  change (Qle_bool (1 # 2) (q95 - Qnat 0)) with true in *.
  eexists. eexists. split; [exact E5 |]. split; [exact E95 |].
  split; [eexists; split; [exact I0 | exact L5] |].
  split; [eexists; split; [exact I1 | exact U95] |].
  pose proof (in_range_repr _ _ (in_range a I0)) as Ra.
  pose proof (in_range_repr _ _ (in_range b I1)) as Rb.
  assert (0 <= q05 - Qnat 0 /\ q05 - Qnat 0 <= 6 # 100) as [C1 C1']
    by (split; apply Qle_bool_iff; vm_compute; reflexivity).
  assert (0 <= round_fin (1 - (q95 - Qnat 0)) /\
          round_fin (1 - (q95 - Qnat 0)) <= 6 # 100) as [C2 C2']
    by (split; apply Qle_bool_iff; vm_compute; reflexivity).
  pose proof (two_parts_le a b _ _ Ra Rb Hab C1 C1' C2 C2') as K.
  apply round_fin_mono. lra.
- (* three readings or more: different pairs of neighbours *)
  destruct (index_facts (length ys) ltac:(lia)) as (V5 & V95 & I1 & I2).
  destruct (percentile_between ints ys in_range integers q05 V5 ltac:(lia))
    as (E5 & L5 & U5).
  destruct (percentile_between ints ys in_range integers q95 V95 ltac:(lia))
    as (E95 & L95 & U95).
  set (i := previous_index (length ys) q05) in *.
  set (j := previous_index (length ys) q95) in *.
  replace (Nat.min (i + 1) (length ys - 1)) with (i + 1)%nat in * by lia.
  replace (Nat.min (j + 1) (length ys - 1)) with (j + 1)%nat in * by lia.
  match type of E5 with _ = Fin ?r => set (r5 := r) in * end.
  match type of E95 with _ = Fin ?r => set (r95 := r) in * end.
  eexists. eexists. split; [exact E5 |]. split; [exact E95 |].
  split; [eexists; split; [apply (nth_sort_In ys i); lia | exact L5] |].
  split; [eexists; split; [apply (nth_sort_In ys (j + 1)); lia | exact U95] |].
  assert (nth (i + 1) (sort ys) 0 <= nth j (sort ys) 0) as Mid
    by (apply sorted_nth_le; [apply sort_sorted | lia | rewrite sort_length; lia]).
  lra.
Qed.

End RangeQuantiles.

(** ** The range calculator *)

Lemma dropna_In (x : Q) (xs : list (option Q)) : In x (dropna xs) <-> In (Some x) xs.
Proof.
induction xs as [| [y |] xs IH]; simpl.
- reflexivity.
- rewrite IH. split; intros [H | H]; auto; left; congruence.
- rewrite IH. split; [auto | intros [H | H]; [discriminate | exact H]].
Qed.

(** What the range calculator returns on a frame that has a numeric glucose
    column. *)
Lemma calculate_glucose_ranges_returns (data : DataFrame) (xs : list (option Q)) :
  glucose_of data = Return xs ->
  calculate_glucose_ranges data =
  Return (series_quantile (int_dtype data) (5 # 100) xs,
          series_quantile (int_dtype data) (95 # 100) xs,
          series_min xs, series_max xs).
Proof. intros H. unfold calculate_glucose_ranges. rewrite H. reflexivity. Qed.

Lemma glucose_of_missing (data : DataFrame) :
  cols data !! "blood_glucose_value" = None ->
  glucose_of data = Raise (KeyError "blood_glucose_value").
Proof. intros H. unfold glucose_of, getitem. rewrite H. reflexivity. Qed.

(** The values of an int64 column are integers. *)
Lemma int_dtype_integers (data : DataFrame) (xs : list (option Q)) :
  glucose_of data = Return xs -> int_dtype data = true ->
  forall x, In x (dropna xs) -> x == inject_Z (Qfloor x).
Proof.
unfold glucose_of, getitem, int_dtype.
destruct (cols data !! "blood_glucose_value") as [[zs | | | |] |]; try discriminate.
cbn. intros [= <-] _ x Hx. apply dropna_In in Hx.
apply in_map_iff in Hx as (z & [= <-] & _). rewrite Qfloor_Z. reflexivity.
Qed.

Lemma series_quantile_rank (ints : bool) (xs : list (option Q)) :
  series_quantile ints (5 # 100) xs
  = match dropna xs with [] => NaN | ys => percentile ints q05 ys end /\
  series_quantile ints (95 # 100) xs
  = match dropna xs with [] => NaN | ys => percentile ints q95 ys end.
Proof. split; reflexivity. Qed.

(** C2 (as amended). When no glucose value is present the four results of
    the range calculator are NaN and no comparison between them holds.
    When one is present, and the values are float64 of magnitude at most
    [2 ^ 1022] or int64 of magnitude at most [2 ^ 53], the calculator
    returns four finite numbers with [bg_min <= low <= high <= bg_max]; in
    particular [low <= high] for a series with two or more distinct
    values. *)
Theorem ranges_ordered (data : DataFrame) (xs : list (option Q)) :
  glucose_of data = Return xs ->
  (dropna xs = [] ->
   calculate_glucose_ranges data = Return (NaN, NaN, NaN, NaN) /\
   forall low high bg_min bg_max,
     calculate_glucose_ranges data = Return (low, high, bg_min, bg_max) ->
     b64_le bg_min low = false /\ b64_le low high = false /\
     b64_le high bg_max = false) /\
  (dropna xs <> [] ->
   (forall x, In x (dropna xs) -> glucose_in_range (int_dtype data) x) ->
   exists low high bg_min bg_max : Q,
     calculate_glucose_ranges data
     = Return (Fin low, Fin high, Fin bg_min, Fin bg_max) /\
     bg_min <= low /\ low <= high /\ high <= bg_max /\
     b64_le (Fin bg_min) (Fin low) = true /\
     b64_le (Fin low) (Fin high) = true /\
     b64_le (Fin high) (Fin bg_max) = true).
Proof.
intros Hg.
rewrite (calculate_glucose_ranges_returns data xs Hg).
destruct (series_quantile_rank (int_dtype data) xs) as [-> ->].
unfold series_min, series_max.
split.
- intros ->. split; [reflexivity |].
  intros low high bg_min bg_max [= <- <- <- <-]. auto.
- intros Hne Hrange.
  destruct (dropna xs) as [| y ys] eqn:E; [congruence |].
  set (zs := y :: ys) in *.
  assert (forall z, In z zs -> fold_left Qmin ys y <= z) as Hmin
    by (intros z Hz; apply fold_Qmin_le, Hz).
  assert (forall z, In z zs -> z <= fold_left Qmax ys y) as Hmax
    by (intros z Hz; apply fold_Qmax_ge, Hz).
  assert (int_dtype data = true -> forall z, In z zs -> z == inject_Z (Qfloor z)) as Hint.
  { intros Hi z Hz. apply (int_dtype_integers data xs Hg Hi). rewrite E. exact Hz. }
  destruct (quantiles_ordered (int_dtype data) zs Hrange Hint Hne)
    as (low & high & -> & -> & (a & Ia & La) & (b & Ib & Ub) & Hlh).
  pose proof (Hmin a Ia). pose proof (Hmax b Ib).
  eexists _, _, _, _. split; [reflexivity |].
  cbn [b64_le]. rewrite !Qle_bool_iff. repeat split; lra.
Qed.

Lemma ranges_ordered_witness :
  exists low high bg_min bg_max : Q,
    calculate_glucose_ranges series_50_160
    = Return (Fin low, Fin high, Fin bg_min, Fin bg_max) /\
    bg_min <= low /\ low <= high /\ high <= bg_max /\
    b64_le (Fin bg_min) (Fin low) = true /\
    b64_le (Fin low) (Fin high) = true /\
    b64_le (Fin high) (Fin bg_max) = true.
Proof.
apply (ranges_ordered series_50_160
         [Some 50; Some 70; Some 90; Some 140; Some 160]).
- reflexivity.
- simpl. discriminate.
- intros x Hx. simpl in Hx.
  repeat (destruct Hx as [<- | Hx];
          [ split; [apply Qeq_bool_iff | apply Qle_bool_iff]; vm_compute; reflexivity | ]).
  contradiction.
Defined.

(** C2 as stated fails on a non-empty series whose only glucose value is
    missing: the four results are NaN and no comparison between them holds. *)
Lemma ranges_one_missing_unordered :
  nrows series_one_missing = 1%nat /\
  calculate_glucose_ranges series_one_missing = Return (NaN, NaN, NaN, NaN) /\
  ~ (exists low high bg_min bg_max,
       calculate_glucose_ranges series_one_missing
       = Return (low, high, bg_min, bg_max) /\
       b64_le bg_min low = true /\ b64_le low high = true /\
       b64_le high bg_max = true).
Proof.
split; [reflexivity |]. split; [reflexivity |].
intros (low & high & bg_min & bg_max & Hr & H1 & _).
assert (calculate_glucose_ranges series_one_missing
        = Return (NaN, NaN, NaN, NaN)) as E by reflexivity.
rewrite E in Hr. injection Hr as <- <- <- <-. discriminate H1.
Qed.

(** Beyond the magnitudes of C2 the order is lost: on the int64 readings
    [2 ^ 53 + 1] the two quantiles are the float64 [2 ^ 53], below the
    minimum; and on two float64 readings whose difference overflows the
    5th percentile is [+inf] and the 95th [-inf]. *)
Lemma ranges_large_values_unordered :
  calculate_glucose_ranges series_large_ints
    = Return (Fin 9007199254740992, Fin 9007199254740992,
              Fin 9007199254740993, Fin 9007199254740993) /\
  b64_le (Fin 9007199254740993) (Fin 9007199254740992) = false /\
  (exists bg_min bg_max,
     calculate_glucose_ranges series_far_apart = Return (PInf, NInf, bg_min, bg_max)) /\
  b64_le PInf NInf = false.
Proof.
split; [vm_compute; reflexivity |]. split; [reflexivity |].
split; [| reflexivity]. eexists _, _. vm_compute. reflexivity.
Qed.

(** C3 (as amended). A call of the range calculator changes nothing in the
    world; without the glucose column it raises a [KeyError]; on a series
    without rows it raises nothing and returns four NaN. *)
Theorem ranges_effects_and_errors
    (l : nat) (w : world) (no_column empty : DataFrame) :
  cols no_column !! "blood_glucose_value" = None ->
  glucose_of empty = Return [] ->
  snd (call_ranges l w) = w /\
  calculate_glucose_ranges no_column = Raise (KeyError "blood_glucose_value") /\
  calculate_glucose_ranges empty = Return (NaN, NaN, NaN, NaN).
Proof.
intros Hmiss Hempty. split; [| split].
- unfold call_ranges, bind, read_frame, lift.
  destruct (heap w !! l); reflexivity.
- unfold calculate_glucose_ranges.
  rewrite (glucose_of_missing _ Hmiss). reflexivity.
- rewrite (calculate_glucose_ranges_returns empty [] Hempty). reflexivity.
Qed.

Lemma ranges_effects_and_errors_witness :
  snd (call_ranges 0 (World {[ 0%nat := series_empty ]} ∅ [] [])) =
    World {[ 0%nat := series_empty ]} ∅ [] [] /\
  calculate_glucose_ranges frame_without_glucose
    = Raise (KeyError "blood_glucose_value") /\
  calculate_glucose_ranges series_empty = Return (NaN, NaN, NaN, NaN).
Proof.
apply (ranges_effects_and_errors 0 (World {[ 0%nat := series_empty ]} ∅ [] [])
         frame_without_glucose series_empty); reflexivity.
Defined.

(** C3 as stated fails on the empty series: the range calculator returns,
    it does not raise. *)
Lemma ranges_empty_series_returns :
  nrows series_empty = 0%nat /\
  glucose_of series_empty = Return [] /\
  calculate_glucose_ranges series_empty = Return (NaN, NaN, NaN, NaN) /\
  ~ (exists e, calculate_glucose_ranges series_empty = Raise e).
Proof.
split; [reflexivity |]. split; [reflexivity |]. split; [reflexivity |].
intros [e He].
assert (calculate_glucose_ranges series_empty
        = Return (NaN, NaN, NaN, NaN)) as E by reflexivity.
rewrite E in He. discriminate He.
Qed.

(** ** The analysis calculator *)

(** What the analysis calculator returns on a non-empty frame that has a
    numeric glucose column. *)
Lemma calculate_glucose_analysis_returns
    (data : DataFrame) (xs : list (option Q)) (low_range high_range : Q) :
  glucose_of data = Return xs ->
  nrows data <> 0%nat ->
  calculate_glucose_analysis data low_range high_range =
  Return (series_mean xs, series_std xs,
          cv_of (series_std xs) (series_mean xs),
          percent (count_true (in_range_mask low_range high_range xs)) (nrows data),
          percent (count_true (above_mask high_range xs)) (nrows data),
          percent (count_true (below_mask low_range xs)) (nrows data)).
Proof.
intros Hg Hn. unfold calculate_glucose_analysis. rewrite Hg. simpl.
unfold len_ratio_percent. destruct (nrows data); [congruence | reflexivity].
Qed.

(** The masks of the calculator select the readings of the three classes. *)
Lemma mask_counts (low_range high_range : Q) (xs : list (option Q)) :
  count_true (in_range_mask low_range high_range xs)
    = count_readings (within low_range high_range) xs /\
  count_true (above_mask high_range xs) = count_readings (above high_range) xs /\
  count_true (below_mask low_range xs) = count_readings (below low_range) xs.
Proof.
unfold in_range_mask, above_mask, below_mask, count_readings, within, above, below.
induction xs as [| [v |] xs (IH1 & IH2 & IH3)]; [auto | |].
- cbn [map count_true List.filter ge_scalar le_scalar gt_scalar lt_scalar].
  rewrite IH1, IH2, IH3.
  destruct (Qle_bool low_range v), (Qle_bool v high_range); cbn; auto.
- cbn [map count_true List.filter ge_scalar le_scalar gt_scalar lt_scalar andb].
  rewrite IH1, IH2, IH3. auto.
Qed.

(** A reading falls in exactly one of the three classes. *)
Lemma reading_one_class (low_range high_range v : Q) :
  low_range <= high_range ->
  (within low_range high_range v = true /\ above high_range v = false /\
   below low_range v = false) \/
  (within low_range high_range v = false /\ above high_range v = true /\
   below low_range v = false) \/
  (within low_range high_range v = false /\ above high_range v = false /\
   below low_range v = true).
Proof.
intros Hlh. unfold within, above, below.
destruct (Qle_bool low_range v) eqn:E1, (Qle_bool v high_range) eqn:E2; simpl; auto.
exfalso. apply Qle_bool_false_lt in E1, E2. lra.
Qed.

Lemma class_counts_add_up (low_range high_range : Q) (xs : list (option Q)) :
  low_range <= high_range ->
  (count_readings (within low_range high_range) xs
   + count_readings (above high_range) xs
   + count_readings (below low_range) xs = length (dropna xs))%nat.
Proof.
intros Hlh. unfold count_readings.
induction xs as [| [v |] xs IH]; [reflexivity | |].
- cbn [List.filter dropna].
  destruct (reading_one_class low_range high_range v Hlh)
    as [(-> & -> & ->) | [(-> & -> & ->) | (-> & -> & ->)]]; cbn [length]; lia.
- cbn [List.filter dropna]. exact IH.
Qed.


(** *** The rounding of a percentage *)

(** A rounding error of at most [1.2e-16] of the value, and [1e-20]. *)
Lemma round_fin_fine (x : Q) :
  0 <= x ->
  x - ((12 # 100000000000000000) * x + (1 # 100000000000000000000)) <= round_fin x /\
  round_fin x <= x + ((12 # 100000000000000000) * x + (1 # 100000000000000000000)).
Proof.
intros P. pose proof (round_fin_error x) as E.
rewrite (Qabs_pos x P) in E.
assert (unit_roundoff <= 12 # 100000000000000000) as U
  by (apply Qle_bool_iff; vm_compute; reflexivity).
assert (half_min <= 1 # 100000000000000000000) as H
  by (apply Qle_bool_iff; vm_compute; reflexivity).
assert (unit_roundoff * x <= (12 # 100000000000000000) * x) as M
  by (apply Qmult_le_compat_r; assumption).
apply Qabs_Qle_condition in E. destruct E as [E1 E2]. split; lra.
Qed.

Lemma Qnat_pos (n : nat) : n <> 0%nat -> 0 < Qnat n.
Proof.
intros Hn. unfold Qnat. change 0 with (inject_Z 0). rewrite <- Zlt_Qlt. lia.
Qed.

Lemma ratio_bounds (k n : nat) :
  n <> 0%nat -> (k <= n)%nat -> 0 <= Qnat k / Qnat n /\ Qnat k / Qnat n <= 1.
Proof.
intros Hn Hk. pose proof (Qnat_pos n Hn) as P.
pose proof (Qnat_nonneg k) as K. pose proof (Qnat_le k n Hk) as L.
split.
- apply Qle_shift_div_l; [exact P | lra].
- apply Qle_shift_div_r; [exact P | lra].
Qed.

(** A percentage is the exact one up to [2.5e-14] of the ratio, and
    [1e-15]. *)
Lemma percent_error (k n : nat) :
  n <> 0%nat -> (k <= n)%nat ->
  let r := Qnat k / Qnat n in
  0 <= percent k n /\
  100 * r - ((25 # 1000000000000000) * r + (1 # 1000000000000000)) <= percent k n /\
  percent k n <= 100 * r + ((25 # 1000000000000000) * r + (1 # 1000000000000000)).
Proof.
intros Hn Hk r. destruct (ratio_bounds k n Hn Hk) as [R0 R1]. fold r in R0, R1.
unfold percent. fold r.
destruct (round_fin_fine r R0) as [A1 A2].
pose proof (round_fin_nonneg r R0) as A0.
set (t := round_fin r) in *.
assert (0 <= t * 100) as T0 by lra.
destruct (round_fin_fine (t * 100) T0) as [B1 B2].
pose proof (round_fin_nonneg _ T0) as B0.
set (p := round_fin (t * 100)) in *.
split; [exact B0 |]. split; lra.
Qed.


Lemma count_readings_le (p : Q -> bool) (xs : list (option Q)) :
  (count_readings p xs <= length xs)%nat.
Proof. unfold count_readings. apply List.filter_length_le. Qed.

(** Three percentages of counts that add up to [m] out of [n] add up to
    [100 * m / n] within the tolerance, as an exact sum and as the float64
    sum [a + b + c]. *)
Lemma percent_sum (a b c m n : nat) :
  n <> 0%nat -> (a + b + c = m)%nat -> (m <= n)%nat ->
  Qabs (percent a n + percent b n + percent c n - 100 * (Qnat m / Qnat n))
    <= percent_tolerance /\
  Qabs (float_sum3 (percent a n) (percent b n) (percent c n)
        - 100 * (Qnat m / Qnat n)) <= percent_tolerance.
Proof.
intros Hn Hsum Hm.
destruct (percent_error a n Hn ltac:(lia)) as (A0 & A1 & A2).
destruct (percent_error b n Hn ltac:(lia)) as (B0 & B1 & B2).
destruct (percent_error c n Hn ltac:(lia)) as (C0 & C1 & C2).
destruct (ratio_bounds a n Hn ltac:(lia)) as [Ra0 Ra1].
destruct (ratio_bounds b n Hn ltac:(lia)) as [Rb0 Rb1].
destruct (ratio_bounds c n Hn ltac:(lia)) as [Rc0 Rc1].
destruct (ratio_bounds m n Hn Hm) as [Rm0 Rm1].
assert (Qnat a / Qnat n + Qnat b / Qnat n + Qnat c / Qnat n == Qnat m / Qnat n) as E.
{ subst m. unfold Qnat. rewrite !Nat2Z.inj_add, !inject_Z_plus.
  pose proof (Qnat_pos n Hn) as P. unfold Qnat in P. field. lra. }
cbv zeta in *.
set (ra := Qnat a / Qnat n) in *. set (rb := Qnat b / Qnat n) in *.
set (rc := Qnat c / Qnat n) in *. set (rm := Qnat m / Qnat n) in *.
set (pa := percent a n) in *. set (pb := percent b n) in *. set (pc := percent c n) in *.
unfold percent_tolerance, float_sum3.
assert (0 <= pa + pb) as S0 by lra.
destruct (round_fin_fine (pa + pb) S0) as [S1 S2].
pose proof (round_fin_nonneg _ S0) as S3.
set (s := round_fin (pa + pb)) in *.
assert (0 <= s + pc) as T0 by lra.
destruct (round_fin_fine (s + pc) T0) as [T1 T2].
set (t := round_fin (s + pc)) in *.
split; apply Qabs_Qle_condition; split; lra.
Qed.


Lemma count_readings_none (p : Q -> bool) (xs : list (option Q)) :
  (forall v, In (Some v) xs -> p v = false) ->
  count_readings p xs = 0%nat.
Proof.
unfold count_readings. induction xs as [| [v |] xs IH]; intros H; [reflexivity | |].
- cbn [List.filter]. rewrite (H v (or_introl eq_refl)).
  apply IH. intros w Hw. apply H. right. exact Hw.
- cbn [List.filter]. apply IH. intros w Hw. apply H. right. exact Hw.
Qed.




(** C5. On the series 50, 70, 90, 140, 160 with the default bounds the
    analysis calculator returns TBR = 20, TIR = 60 and TAR = 20: one reading
    is below 70, three are within [70, 140], one is above 140.  The same
    three quotients evaluated in binary64 are exactly 20.0, 60.0 and 20.0. *)
Theorem analysis_of_50_160 (data : DataFrame) :
  glucose_of data = Return [Some 50; Some 70; Some 90; Some 140; Some 160] ->
  nrows data = 5%nat ->
  exists mean std cv tir tar tbr,
    calculate_glucose_analysis data default_low_range default_high_range
    = Return (mean, std, cv, tir, tar, tbr) /\
    tbr == 20 /\ tir == 60 /\ tar == 20 /\
    tbr = percent 1 5 /\ tir = percent 3 5 /\ tar = percent 1 5 /\
    percent_binary64 1 5 = 20%float /\
    percent_binary64 3 5 = 60%float.
Proof.
intros Hg Hn.
rewrite (calculate_glucose_analysis_returns data _ _ _ Hg) by (rewrite Hn; discriminate).
rewrite Hn. eexists _, _, _, _, _, _. split; [reflexivity |].
split; [apply Qeq_bool_iff; vm_compute; reflexivity |].
split; [apply Qeq_bool_iff; vm_compute; reflexivity |].
split; [apply Qeq_bool_iff; vm_compute; reflexivity |].
repeat split; reflexivity.
Qed.

Lemma analysis_of_50_160_witness :
  exists mean std cv tir tar tbr,
    calculate_glucose_analysis series_50_160 default_low_range default_high_range
    = Return (mean, std, cv, tir, tar, tbr) /\
    tbr == 20 /\ tir == 60 /\ tar == 20 /\
    tbr = percent 1 5 /\ tir = percent 3 5 /\ tar = percent 1 5 /\
    percent_binary64 1 5 = 20%float /\
    percent_binary64 3 5 = 60%float.
Proof.
apply (analysis_of_50_160 series_50_160); reflexivity.
Defined.

(** *** One reading *)

Lemma is_neg_round_fin (v : Q) : ~ round_fin v == 0 -> is_neg (round_fin v) = is_neg v.
Proof.
intros N. unfold is_neg. f_equal.
destruct (Qlt_le_dec v 0) as [L | G].
- pose proof (round_fin_nonpos v (Qlt_le_weak _ _ L)) as R.
  destruct (Qle_bool 0 (round_fin v)) eqn:E1, (Qle_bool 0 v) eqn:E2; try reflexivity;
    exfalso.
  + apply Qle_bool_iff in E1. apply N. lra.
  + apply Qle_bool_iff in E2. lra.
- pose proof (round_fin_nonneg v G) as R.
  apply Qle_bool_iff in G, R. rewrite G, R. reflexivity.
Qed.

Lemma round64_idem (v : Q) : round64 (round_fin v) = round64 v.
Proof.
unfold round64. rewrite round_fin_idem.
destruct (Qle_bool (Qabs (round_fin v)) max_float) eqn:E; [reflexivity |].
rewrite is_neg_round_fin; [reflexivity |].
intros C. rewrite C in E. discriminate E.
Qed.

Lemma round64_cases (v : Q) :
  round64 v = Fin (round_fin v) \/ round64 v = PInf \/ round64 v = NInf.
Proof.
unfold round64. destruct (Qle_bool _ _); [auto |].
destruct (is_neg v); auto.
Qed.

(** The mean of a single reading is the reading, as a float64. *)
Lemma mean_of_one (v : Q) : series_mean [Some v] = round64 v.
Proof.
unfold series_mean. cbn [dropna length fill0 map].
change (np_sum [Fin (round_fin v)]) with (b64_add (Fin 0) (Fin (round_fin v))).
cbn [b64_add].
assert (0 + round_fin v == round_fin v) as E by ring.
rewrite (round64_proper _ _ E), round64_idem.
destruct (round64_cases v) as [H | [H | H]]; rewrite H; [| reflexivity | reflexivity].
cbn [b64_div]. change (Qeq_bool (Qnat 1) 0) with false. cbv iota.
assert (round_fin v / Qnat 1 == round_fin v) as E1 by (unfold Qnat; simpl; field).
rewrite (round64_proper _ _ E1), round64_idem. exact H.
Qed.

(** C9. On a series of exactly one reading the standard deviation is NaN
    and so is CV%, whatever the reading; the mean is the reading itself, so
    it may well be nonzero. *)
Theorem single_reading_cv_undefined
    (data : DataFrame) (x : option Q) (low_range high_range : Q) :
  glucose_of data = Return [x] ->
  nrows data = 1%nat ->
  exists mean tir tar tbr,
    calculate_glucose_analysis data low_range high_range
    = Return (mean, NaN, NaN, tir, tar, tbr) /\
    (forall v, x = Some v ->
       mean = round64 v /\
       (representable v -> Qabs v <= max_float ->
        exists m, mean = Fin m /\ m == v)).
Proof.
intros Hg Hn.
rewrite (calculate_glucose_analysis_returns data _ low_range high_range Hg)
  by (rewrite Hn; discriminate).
assert (series_std [x] = NaN) as -> by (destruct x; reflexivity).
assert (forall m, cv_of NaN m = NaN) as Hcv by (intros [m | | |]; reflexivity).
rewrite Hcv.
eexists _, _, _, _. split; [reflexivity |].
intros v ->. split; [apply mean_of_one |].
intros R B. exists (round_fin v). split; [| exact R].
rewrite mean_of_one. apply round64_fin.
unfold representable in R. rewrite R. exact B.
Qed.

Lemma single_reading_cv_undefined_witness :
  exists mean tir tar tbr,
    calculate_glucose_analysis series_single default_low_range default_high_range
    = Return (mean, NaN, NaN, tir, tar, tbr) /\
    (forall v, Some (inject_Z 110) = Some v ->
       mean = round64 v /\
       (representable v -> Qabs v <= max_float ->
        exists m, mean = Fin m /\ m == v)).
Proof.
apply (single_reading_cv_undefined series_single (Some (inject_Z 110))); reflexivity.
Defined.

(** ** The coefficient of variation *)

(** *** Sums of related arrays *)

Section SumRelated.

Context {A B : Type} (addA : A -> A -> A) (zeroA nanA : A)
        (addB : B -> B -> B) (zeroB nanB : B) (R : A -> B -> Prop).
Hypothesis R_zero : R zeroA zeroB.
Hypothesis R_nan : R nanA nanB.
Hypothesis R_add : forall a a' b b', R a b -> R a' b' -> R (addA a a') (addB b b').








End SumRelated.

(** *** Results in the normal range *)
















(** *** Scaling by a power of two *)

















(** Outside the normal range the factor need not even be three: with the
    readings 1 and 3 times [2 ^ 600], a power-of-two multiple of the
    readings 1 and 3, the squared deviations overflow and CV% is
    infinite, while the readings 1 and 3 give a finite CV%. *)
Lemma cv_overflows_under_large_scale :
  times_pow2 600 [Some 1; Some 3] [Some (pow2 600); Some (3 * pow2 600)] /\
  (exists c, cv_of (series_std [Some 1; Some 3]) (series_mean [Some 1; Some 3]) = Fin c) /\
  cv_of (series_std [Some (pow2 600); Some (3 * pow2 600)])
        (series_mean [Some (pow2 600); Some (3 * pow2 600)]) = PInf.
Proof.
split; [repeat constructor; vm_compute; reflexivity |].
split; [eexists; vm_compute; reflexivity | vm_compute; reflexivity].
Qed.

(** ** Rules for specifications *)

Section Rules.

Context {A B : Type}.

Lemma triple_bind (P : world -> Prop) (c : M A) (Q : A -> world -> Prop)
    (k : A -> M B) (R : B -> world -> Prop) (E : exn -> world -> Prop) :
  triple P c Q E -> (forall a, triple (Q a) (k a) R E) -> triple P (bind c k) R E.
Proof.
intros Hc Hk w Hw. unfold bind. specialize (Hc w Hw).
destruct (c w) as [[a | e] w1]; [apply (Hk a w1 Hc) | exact Hc].
Qed.

Lemma triple_conseq (P P' : world -> Prop) (c : M A) (Q Q' : A -> world -> Prop)
    (E E' : exn -> world -> Prop) :
  triple P' c Q' E' ->
  (forall w, P w -> P' w) -> (forall a w, Q' a w -> Q a w) ->
  (forall e w, E' e w -> E e w) ->
  triple P c Q E.
Proof.
intros Hc HP HQ HE w Hw. specialize (Hc w (HP w Hw)).
destruct (c w) as [[a | e] w1]; auto.
Qed.

Lemma triple_pure (phi : Prop) (P : world -> Prop) (c : M A)
    (Q : A -> world -> Prop) (E : exn -> world -> Prop) :
  (phi -> triple P c Q E) -> triple (fun w => phi /\ P w) c Q E.
Proof. intros H w [Hphi Hw]. apply (H Hphi w Hw). Qed.

(** A computation that only reads keeps every property of the world. *)
Lemma triple_reads (P : world -> Prop) (c : M A) (E : exn -> world -> Prop) :
  reads c -> (forall e w, P w -> E e w) -> triple P c (fun _ => P) E.
Proof.
intros Hc HE w Hw. specialize (Hc w).
destruct (c w) as [[a | e] w1]; simpl in Hc; subst w1; auto.
Qed.

Lemma reads_bind (c : M A) (k : A -> M B) :
  reads c -> (forall a, reads (k a)) -> reads (bind c k).
Proof.
intros Hc Hk w. unfold bind. specialize (Hc w).
destruct (c w) as [[a | e] w1]; simpl in Hc; subst w1; [apply Hk | reflexivity].
Qed.

Lemma reads_ret (a : A) : reads (ret a).
Proof. intros w. reflexivity. Qed.

Lemma reads_lift (r : result A) : reads (lift r).
Proof. intros w. reflexivity. Qed.

End Rules.

Lemma triple_for_each {A : Type} (P : world -> Prop) (xs : list A)
    (body : A -> M unit) (E : exn -> world -> Prop) :
  (forall x, triple P (body x) (fun _ => P) E) ->
  triple P (for_each xs body) (fun _ => P) E.
Proof.
intros Hbody. induction xs as [| x xs IH]; simpl.
- intros w Hw. exact Hw.
- eapply triple_bind; [apply Hbody | intros u; exact IH].
Qed.

Lemma reads_read_frame (l : nat) : reads (read_frame l).
Proof. intros w. unfold read_frame. destruct (heap w !! l); reflexivity. Qed.

Lemma reads_column_of (l : nat) (key : string) : reads (column_of l key).
Proof.
unfold column_of. apply reads_bind; [apply reads_read_frame |].
intros df. apply reads_lift.
Qed.

Lemma reads_call_ranges (l : nat) : reads (call_ranges l).
Proof.
unfold call_ranges. apply reads_bind; [apply reads_read_frame |].
intros df. apply reads_lift.
Qed.

Lemma reads_call_analysis (l : nat) (low_range high_range : Q) :
  reads (call_analysis l low_range high_range).
Proof.
unfold call_analysis. apply reads_bind; [apply reads_read_frame |].
intros df. apply reads_lift.
Qed.

Lemma reads_os_path_exists (p : string) : reads (os_path_exists p).
Proof. intros w. reflexivity. Qed.

Create HintDb reads.
#[local] Hint Resolve reads_read_frame reads_column_of reads_call_ranges
  reads_call_analysis reads_lift reads_ret reads_os_path_exists : reads.

(** Solves [reads c] for a block built from reading primitives. *)
Ltac solve_reads :=
  repeat first
    [ apply reads_bind; [| intros ? ]
    | solve [ auto with reads ] ].

(** ** pyplot figure numbers *)

Lemma next_num_fresh (figs : list (nat * figure)) :
  forall k f, In (k, f) figs -> (k < next_num figs)%nat.
Proof.
unfold next_num. intros k f Hin. apply Nat.lt_succ_r.
induction figs as [| [k0 f0] figs IH]; [contradiction |].
cbn [map fst fold_right]. destruct Hin as [Heq | Hin].
- injection Heq as Hk _. lia.
- specialize (IH Hin). lia.
Qed.

Lemma add_artist_old (n : nat) (a : artist) (figs : list (nat * figure)) :
  (forall k f, In (k, f) figs -> k <> n) -> add_artist n a figs = figs.
Proof.
induction figs as [| [k f] figs IH]; simpl; intros Hne; [reflexivity |].
rewrite IH by (intros k' f' H; apply (Hne k' f'); right; exact H).
destruct (Nat.eqb_spec k n) as [-> | _]; [| reflexivity].
exfalso. apply (Hne n f); [left |]; reflexivity.
Qed.

Lemma add_artist_app (n : nat) (a : artist) (xs ys : list (nat * figure)) :
  add_artist n a (xs ++ ys) = add_artist n a xs ++ add_artist n a ys.
Proof. unfold add_artist. apply map_app. Qed.

Lemma add_artist_last (a : artist) (figs : list (nat * figure)) (f : figure) :
  add_artist (next_num figs) a (figs ++ [(next_num figs, f)])
  = figs ++ [(next_num figs, f ++ [a])].
Proof.
rewrite add_artist_app, add_artist_old.
- simpl. now rewrite Nat.eqb_refl.
- intros k f' Hin ->. apply next_num_fresh in Hin. lia.
Qed.

Lemma close_last (figs : list (nat * figure)) (f : figure) :
  List.filter (fun '(k, _) => negb (Nat.eqb k (next_num figs)))
              (figs ++ [(next_num figs, f)]) = figs.
Proof.
rewrite List.filter_app. simpl. rewrite Nat.eqb_refl. simpl.
rewrite app_nil_r.
apply List.forallb_filter_id, List.forallb_forall.
intros [k f'] Hin. apply next_num_fresh in Hin.
apply negb_true_iff, Nat.eqb_neq. lia.
Qed.

Lemma last_snoc_figure (figs : list (nat * figure)) (x : nat * figure) :
  last (figs ++ [x]) = Some x.
Proof. apply last_snoc. Qed.

(** ** The plotter *)

Section Plotter.

Context (lib : Lib) (w0 : world).

Lemma before_raised (w : world) : plotter_before w0 w -> plotter_raised w0 w.
Proof. intros (Hfs & Hfig & Hout & Hheap). repeat split; auto. Qed.

Lemma copied_raised (l : nat) (w : world) :
  plotter_copied w0 l w -> plotter_raised w0 w.
Proof. intros [H _]. apply before_raised, H. Qed.

Lemma drawing_raised (l : nat) (w : world) :
  plotter_drawing w0 l w -> plotter_raised w0 w.
Proof. intros (Hfs & Hfig & Hout & Hheap & _). repeat split; auto. Qed.

Lemma new_frame_copies (df : DataFrame) :
  triple (plotter_before w0) (new_frame df) (plotter_copied w0) (plotter_raised_any w0).
Proof.
intros w (Hfs & Hfig & Hout & Hheap). unfold new_frame. cbn.
set (l := fresh (dom (heap w))).
assert (heap w !! l = None) as Hl.
{ apply not_elem_of_dom. subst l. apply is_fresh. }
assert (heap w0 !! l = None) as Hl0.
{ eapply lookup_weaken_None; eassumption. }
repeat split; auto.
apply insert_subseteq_r; assumption.
Qed.

Lemma setitem_copy (l : nat) (key : string) (c : column) :
  triple (plotter_copied w0 l) (setitem l key c)
         (fun _ => plotter_copied w0 l) (plotter_raised_any w0).
Proof.
intros w [(Hfs & Hfig & Hout & Hheap) Hl]. unfold setitem.
destruct (heap w !! l) as [df |]; cbn.
- repeat split; auto. apply insert_subseteq_r; assumption.
- repeat split; auto.
Qed.

Lemma subplots_opens (l : nat) :
  triple (plotter_copied w0 l) plt_subplots
         (fun n w => n = next_num (figures w0) /\ plotter_drawing w0 l w)
         (plotter_raised_any w0).
Proof.
intros w [(Hfs & Hfig & Hout & Hheap) Hl]. unfold plt_subplots. cbn.
rewrite Hfig. repeat split; eauto.
Qed.

Lemma draw_keeps (l : nat) (a : artist) :
  triple (plotter_drawing w0 l) (draw (next_num (figures w0)) a)
         (fun _ => plotter_drawing w0 l) (plotter_raised_any w0).
Proof.
intros w (Hfs & [f Hfig] & Hout & Hheap & Hl). unfold draw. cbn.
rewrite Hfig, add_artist_last. repeat split; eauto.
Qed.

Lemma gcf_is_figure (l : nat) :
  triple (plotter_drawing w0 l) plt_gcf
         (fun n w => n = next_num (figures w0) /\ plotter_drawing w0 l w)
         (plotter_raised_any w0).
Proof.
intros w Hw. pose proof Hw as (Hfs & [f Hfig] & Hout & Hheap & Hl).
unfold plt_gcf. rewrite Hfig, last_snoc_figure. split; [reflexivity |].
exact Hw.
Qed.

Lemma plt_draw_keeps (l : nat) (a : artist) :
  triple (plotter_drawing w0 l) (plt_draw a)
         (fun _ => plotter_drawing w0 l) (plotter_raised_any w0).
Proof.
unfold plt_draw. eapply triple_bind; [apply gcf_is_figure |].
intros n. apply triple_pure. intros ->. apply draw_keeps.
Qed.

Lemma plot_day_keeps (l data : nat) (day_color : scalar * Q) :
  triple (plotter_drawing w0 l) (plot_day data (next_num (figures w0)) day_color)
         (fun _ => plotter_drawing w0 l) (plotter_raised_any w0).
Proof.
destruct day_color as [day color]. unfold plot_day.
eapply triple_bind.
{ apply triple_reads; [solve_reads | intros e w; apply drawing_raised]. }
intros day_data. eapply triple_bind.
{ apply triple_reads; [solve_reads | intros e w; apply drawing_raised]. }
intros x. eapply triple_bind.
{ apply triple_reads; [solve_reads | intros e w; apply drawing_raised]. }
intros y. apply draw_keeps.
Qed.

Lemma savefig_writes (l : nat) (path : string) :
  triple (plotter_drawing w0 l) (plt_savefig path)
         (fun _ => plotter_saved w0 path) (plotter_raised_any w0).
Proof.
unfold plt_savefig. eapply triple_bind; [apply gcf_is_figure |].
intros n. apply triple_pure. intros ->.
intros w Hw. pose proof Hw as (Hfs & Hfig & Hout & Hheap & Hl).
assert (plotter_raised w0 w) as Hr by (eapply drawing_raised; exact Hw).
assert (forall image,
          plotter_saved w0 path (set_fs (<[path := PngFile image]> (fs w)) w)) as Hs.
{ intros image. unfold plotter_saved. cbn. rewrite Hfs. repeat split; eauto. }
destruct (fs w !! path) as [[| table | image] |];
  try exact Hr;
  (destruct (String.eqb (os_path_dirname path) ""); [apply Hs |];
   destruct (fs w !! os_path_dirname path) as [[| table' | image'] |];
   first [apply Hs | exact Hr]).
Qed.

Lemma close_releases (path : string) :
  triple (plotter_saved w0 path) (plt_close (next_num (figures w0)))
         (fun _ => plotter_returned w0 path) (plotter_raised_any w0).
Proof.
intros w (Hfs & [f Hfig] & Hout & Hheap). unfold plt_close. cbn.
rewrite Hfig, close_last. repeat split; auto.
Qed.

(** The plotter, from start to end. *)
Lemma plot_and_save_graph_spec (data : nat) (pid : scalar) (output_dir : string)
    (low_value high_value bg_min bg_max : float64) :
  triple (fun w => w = w0)
         (plot_and_save_graph lib data pid output_dir
                              low_value high_value bg_min bg_max)
         (fun _ => plotter_returned w0 (plot_path_of lib output_dir pid))
         (plotter_raised_any w0).
Proof.
eapply triple_conseq with (P' := plotter_before w0) (E' := (plotter_raised_any w0));
  [| intros w ->; repeat split; reflexivity | intros a w H; exact H
   | intros e w H; exact H ].
unfold plot_and_save_graph.
(* data = data.copy() *)
eapply triple_bind.
{ eapply triple_bind.
  - apply triple_reads; [solve_reads | intros e w; apply before_raised].
  - intros df. apply new_frame_copies. }
intros l.
(* the four derived columns *)
do 4 (eapply triple_bind;
      [ apply triple_reads; [solve_reads | intros e w; apply copied_raised] |];
      intros ?c;
      eapply triple_bind; [apply setitem_copy |]; intros ?u).
eapply triple_bind.
{ apply triple_reads; [solve_reads | intros e w; apply copied_raised]. }
intros unique_days.
(* the figure *)
eapply triple_bind; [apply subplots_opens |].
intros fig. apply triple_pure. intros ->.
eapply triple_bind.
{ apply triple_reads; [solve_reads | intros e w; apply drawing_raised]. }
intros study_group.
eapply triple_bind; [apply draw_keeps |]. intros ?u.
eapply triple_bind.
{ apply triple_for_each. intros day_color. apply plot_day_keeps. }
intros ?u.
eapply triple_bind.
{ apply triple_reads; [solve_reads | intros e w; apply drawing_raised]. }
intros analysis.
do 5 (eapply triple_bind; [apply draw_keeps |]; intros ?u).
do 2 (eapply triple_bind; [apply plt_draw_keeps |]; intros ?u).
eapply triple_bind; [apply savefig_writes |]. intros ?u.
apply close_releases.
Qed.

End Plotter.

(** ** Paths of the batch loop *)

Lemma string_app_assoc (a b c : string) : (a +:+ b) +:+ c = a +:+ (b +:+ c).
Proof.
induction a as [| x a IH]; [reflexivity |].
change (String x ((a +:+ b) +:+ c) = String x (a +:+ b +:+ c)).
f_equal. exact IH.
Qed.

Lemma ends_with_sep_app (a b : string) :
  b <> "" -> ends_with_sep (a +:+ b) = ends_with_sep b.
Proof.
intros Hb. induction a as [| x a IH]; [reflexivity |].
change (String x a +:+ b) with (String x (a +:+ b)).
cbn [ends_with_sep]. rewrite IH.
destruct (a +:+ b) eqn:E; [| reflexivity].
destruct a; [contradiction | discriminate].
Qed.

Lemma eqb_app_nonempty (a b : string) : b <> "" -> String.eqb (a +:+ b) "" = false.
Proof.
intros Hb. apply String.eqb_neq. destruct a; [exact Hb | discriminate].
Qed.

Lemma os_path_join_relative (a b : string) :
  starts_with_sep b = false -> os_path_join a b = join_prefix a +:+ b.
Proof.
intros Hb. unfold os_path_join, join_prefix. rewrite Hb.
destruct (String.eqb a "" || ends_with_sep a); [reflexivity |].
symmetry. apply string_app_assoc.
Qed.

Lemma batch_files_relative (f : string) :
  In f batch_files -> exists rest, f = "cleaned_data/" +:+ rest.
Proof.
intros Hin. vm_compute in Hin.
repeat (destruct Hin as [<- | Hin]; [eexists; reflexivity |]).
contradiction.
Qed.

(** The path of a plot, spelled out. *)
Lemma plot_path_of_shape (lib : Lib) (output_dir : string) (pid : scalar) :
  plot_path_of lib output_dir pid =
  output_dir
  +:+ (if String.eqb output_dir "" || ends_with_sep output_dir then "" else "/")
  +:+ "participant_" +:+ py_str lib pid +:+ ".png".
Proof.
unfold plot_path_of, os_path_join. cbn [starts_with_sep String.app is_sep].
change (Ascii.eqb "p" "/") with false. cbv iota.
destruct (String.eqb output_dir "" || ends_with_sep output_dir); reflexivity.
Qed.

(** No plot is written over a batch file. *)
Lemma plot_path_not_batch (lib : Lib) (root : string) (pid : scalar) (f : string) :
  In f batch_files ->
  plot_path_of lib (plots_dir root) pid <> os_path_join root f.
Proof.
intros Hin. destruct (batch_files_relative f Hin) as [rest ->].
rewrite plot_path_of_shape.
rewrite !os_path_join_relative by reflexivity.
rewrite eqb_app_nonempty by discriminate.
rewrite ends_with_sep_app by discriminate.
cbn [ends_with_sep orb is_sep]. rewrite !string_app_assoc.
intros Heq. apply String.app_inj in Heq. discriminate Heq.
Qed.

(** ** The batch loop *)

Lemma triple_for_each_indexed {A : Type} (I : list A -> world -> Prop)
    (xs : list A) (body : A -> M unit) (E : exn -> world -> Prop) :
  (forall pre x, In x xs -> triple (I pre) (body x) (fun _ => I (pre ++ [x])) E) ->
  forall pre, triple (I pre) (for_each xs body) (fun _ => I (pre ++ xs)) E.
Proof.
induction xs as [| x xs IH]; intros Hbody pre; cbn [for_each].
- intros w Hw. cbn. rewrite app_nil_r. exact Hw.
- eapply triple_bind; [apply Hbody; left; reflexivity |].
  intros u. replace (pre ++ x :: xs) with ((pre ++ [x]) ++ xs)
    by (rewrite <- app_assoc; reflexivity).
  apply IH. intros pre' y Hy. apply Hbody. right. exact Hy.
Qed.

Lemma keeps_files_reads {A : Type} (c : M A) : reads c -> keeps_files c.
Proof. intros Hc w. rewrite (Hc w). split; reflexivity. Qed.

Lemma keeps_files_bind {A B : Type} (c : M A) (k : A -> M B) :
  keeps_files c -> (forall a, keeps_files (k a)) -> keeps_files (bind c k).
Proof.
intros Hc Hk w. unfold bind. specialize (Hc w).
destruct (c w) as [[a | e] w1]; cbn in Hc.
- destruct (Hk a w1) as [H1 H2]. destruct Hc as [H3 H4].
  split; congruence.
- exact Hc.
Qed.

Lemma keeps_files_new_frame (df : DataFrame) : keeps_files (new_frame df).
Proof. intros w. split; reflexivity. Qed.

Section BatchLoop.

Context (lib : Lib) (root : string).

Lemma loop_inv_keeps_files {A : Type} (w : world) (done : list string) (c : M A) :
  keeps_files c -> triple (loop_inv w done) c (fun _ => loop_inv w done) any_raise.
Proof.
intros Hc wc (Hout & Hdone & Hrest). destruct (Hc wc) as [Hfs Hstd].
destruct (c wc) as [[a | e] w1]; cbn in *; [| exact I].
unfold loop_inv. rewrite Hfs, Hstd. auto.
Qed.

Lemma loop_inv_written (w : world) (done : list string) (path : string)
    (wc w' : world) :
  loop_inv w done wc -> plotter_returned wc path w' ->
  loop_inv w (done ++ [path]) w'.
Proof.
intros (Hout & Hdone & Hrest) ([image Hfs] & _ & Hstd & _).
split; [congruence |]. split.
- intros p Hp. rewrite Hfs.
  destruct (decide (p = path)) as [-> | Hne].
  + exists image. apply lookup_insert_eq.
  + rewrite lookup_insert_ne by congruence.
    apply Hdone. apply in_app_or in Hp as [Hp | [Hp | []]]; [exact Hp | congruence].
- intros p Hp. rewrite Hfs.
  assert (p <> path) as Hne by (intros ->; apply Hp, in_or_app; right; left; reflexivity).
  rewrite lookup_insert_ne by congruence.
  apply Hrest. intros Hin. apply Hp, in_or_app. left. exact Hin.
Qed.

Lemma process_participant_spec (w : world) (done : list string) (df : nat)
    (pid : scalar) :
  triple (loop_inv w done) (process_participant lib df (plots_dir root) pid)
         (fun _ => loop_inv w (done ++ [plot_path_of lib (plots_dir root) pid])) any_raise.
Proof.
unfold process_participant.
eapply triple_bind.
{ apply loop_inv_keeps_files.
  apply keeps_files_bind; [apply keeps_files_reads, reads_read_frame |].
  intros d. apply keeps_files_bind; [apply keeps_files_reads, reads_column_of |].
  intros ids. apply keeps_files_new_frame. }
intros participant_data. eapply triple_bind.
{ apply loop_inv_keeps_files, keeps_files_reads, reads_call_ranges. }
intros [[[low_value high_value] bg_min] bg_max].
intros wc Hinv.
pose proof (plot_and_save_graph_spec lib wc participant_data pid (plots_dir root)
              low_value high_value bg_min bg_max wc eq_refl) as S.
destruct (plot_and_save_graph lib participant_data pid (plots_dir root)
            low_value high_value bg_min bg_max wc) as [[u | e] w']; [| exact I].
eapply loop_inv_written; eassumption.
Qed.

Lemma process_participants_spec (w : world) (done : list string) (df : nat)
    (pids : list scalar) :
  triple (loop_inv w done)
         (for_each pids (process_participant lib df (plots_dir root)))
         (fun _ => loop_inv w (done ++ map (plot_path_of lib (plots_dir root)) pids))
         any_raise.
Proof.
pose proof (triple_for_each_indexed
              (fun pre => loop_inv w (done ++ map (plot_path_of lib (plots_dir root)) pre))
              pids (process_participant lib df (plots_dir root)) any_raise) as H.
cbn beta in H.
assert (forall pre pid, In pid pids ->
          triple (loop_inv w (done ++ map (plot_path_of lib (plots_dir root)) pre))
                 (process_participant lib df (plots_dir root) pid)
                 (fun _ => loop_inv w (done ++ map (plot_path_of lib (plots_dir root))
                                                   (pre ++ [pid])))
                 any_raise) as Hbody.
{ intros pre pid _. rewrite map_app, app_assoc. cbn [map].
  apply process_participant_spec. }
specialize (H Hbody []). cbn [map app] in H. rewrite app_nil_r in H. exact H.
Qed.

(** A batch file that does not exist is passed over: nothing changes,
    nothing is printed, nothing is raised. *)
Lemma process_batch_missing (output_dir batch_file : string) (wc : world) :
  fs wc !! os_path_join root batch_file = None ->
  process_batch lib root output_dir batch_file wc = (Return tt, wc).
Proof.
intros Hnone. unfold process_batch, bind, os_path_exists.
cbv beta zeta. rewrite Hnone. rewrite bool_decide_eq_false_2; [reflexivity |].
intros [x Hx]. discriminate Hx.
Qed.

(** A batch file that holds a table: the table becomes a frame object and
    its participants are processed in first-seen order. *)
Lemma process_batch_table (f : string) (wc : world) (table : DataFrame)
    (ids : column) :
  fs wc !! os_path_join root f = Some (CsvFile table) ->
  cols table !! "participant_id" = Some ids ->
  process_batch lib root (plots_dir root) f wc =
  for_each (unique ids)
           (process_participant lib (fresh (dom (heap wc))) (plots_dir root))
           (set_heap (<[fresh (dom (heap wc)) := table]> (heap wc)) wc).
Proof.
intros Hnode Hids.
unfold process_batch, bind, os_path_exists, pd_read_csv, column_of,
  bind, read_frame, new_frame, lift, getitem, ret.
cbv beta zeta. rewrite Hnode. rewrite bool_decide_eq_true_2 by eauto.
cbv beta iota. rewrite Hnode. cbv beta iota.
cbn [heap set_heap]. rewrite lookup_insert_eq.
cbv beta iota. rewrite Hids. reflexivity.
Qed.

Lemma process_batch_spec (w : world) (done : list string) (f : string) :
  (forall p, In p done -> exists pid, p = plot_path_of lib (plots_dir root) pid) ->
  In f batch_files ->
  triple (loop_inv w done) (process_batch lib root (plots_dir root) f)
         (fun _ => loop_inv w
                     (done ++ map (plot_path_of lib (plots_dir root))
                                  (participants_of w root f)))
         any_raise.
Proof.
intros Hplots Hf wc Hinv.
assert (fs wc !! os_path_join root f = fs w !! os_path_join root f) as Hsame.
{ destruct Hinv as (_ & _ & Hrest). apply Hrest. intros Hin.
  destruct (Hplots _ Hin) as [pid Hpid].
  symmetry in Hpid. revert Hpid. apply plot_path_not_batch, Hf. }
unfold participants_of. rewrite <- Hsame.
destruct (fs wc !! os_path_join root f) as [node |] eqn:Hnode.
- destruct node as [| table | image].
  + unfold process_batch, bind, os_path_exists, pd_read_csv.
    cbv beta zeta. rewrite Hnode. rewrite bool_decide_eq_true_2 by eauto.
    cbv beta iota. rewrite Hnode. exact I.
  + destruct (cols table !! "participant_id") as [ids |] eqn:Hids.
    * rewrite (process_batch_table f wc table ids Hnode Hids).
      apply process_participants_spec. exact Hinv.
    * unfold process_batch, bind, os_path_exists, pd_read_csv, column_of,
        bind, read_frame, new_frame, lift, getitem.
      cbv beta zeta. rewrite Hnode. rewrite bool_decide_eq_true_2 by eauto.
      cbv beta iota. rewrite Hnode. cbv beta iota.
      cbn [heap set_heap]. rewrite lookup_insert_eq.
      cbv beta iota. rewrite Hids. exact I.
  + unfold process_batch, bind, os_path_exists, pd_read_csv.
    cbv beta zeta. rewrite Hnode. rewrite bool_decide_eq_true_2 by eauto.
    cbv beta iota. rewrite Hnode. exact I.
- rewrite (process_batch_missing (plots_dir root) f wc Hnode). cbn [map].
  rewrite app_nil_r. exact Hinv.
Qed.

Lemma expected_plots_are_plots (w : world) (files : list string) (p : string) :
  In p (expected_plots lib w root files) ->
  exists pid, p = plot_path_of lib (plots_dir root) pid.
Proof.
unfold expected_plots. rewrite in_flat_map. intros (f & _ & Hp).
apply in_map_iff in Hp as (pid & <- & _). eauto.
Qed.

Lemma batch_files_loop_spec (w : world) :
  triple (loop_inv w [])
         (for_each batch_files (process_batch lib root (plots_dir root)))
         (fun _ => loop_inv w (expected_plots lib w root batch_files)) any_raise.
Proof.
pose proof (triple_for_each_indexed
              (fun pre => loop_inv w (expected_plots lib w root pre))
              batch_files (process_batch lib root (plots_dir root)) any_raise) as H.
cbn beta in H.
assert (forall pre f, In f batch_files ->
          triple (loop_inv w (expected_plots lib w root pre))
                 (process_batch lib root (plots_dir root) f)
                 (fun _ => loop_inv w (expected_plots lib w root (pre ++ [f])))
                 any_raise) as Hbody.
{ intros pre f Hf. unfold expected_plots at 2. rewrite flat_map_app. cbn [flat_map].
  rewrite app_nil_r. apply process_batch_spec; [| exact Hf].
  apply expected_plots_are_plots. }
exact (H Hbody []).
Qed.


End BatchLoop.

(** ** The plotter returns on plottable input *)

Section PlotterReturns.

Context (lib : Lib) (w0 : world).












End PlotterReturns.
(** ** The figure at the exits of the plotter *)

Section PlotterFigure.

Context (lib : Lib) (w0 : world).














End PlotterFigure.

(** ** What a call of the plotter does to files, figures and frames *)








(** C10. Whatever the outcome of the call, every frame object that existed
    before it, the caller's series among them, is the same afterwards. *)
Theorem plotter_keeps_input
    (lib : Lib) (data : nat) (pid : scalar) (output_dir : string)
    (low_value high_value bg_min bg_max : float64) (w : world)
    (l : nat) (df : DataFrame) :
  heap w !! l = Some df ->
  heap (snd (plot_and_save_graph lib data pid output_dir
               low_value high_value bg_min bg_max w)) !! l = Some df.
Proof.
intros Hl.
pose proof (plot_and_save_graph_spec lib w data pid output_dir
              low_value high_value bg_min bg_max w eq_refl) as S.
destruct (plot_and_save_graph lib data pid output_dir
            low_value high_value bg_min bg_max w) as [[u | e] w']; cbn.
- destruct S as (_ & _ & _ & Hheap). eapply lookup_weaken; eassumption.
- destruct S as (_ & _ & _ & Hheap). eapply lookup_weaken; eassumption.
Qed.

Lemma plotter_keeps_input_witness :
  heap after_first_plot !! 0%nat = Some participant_1001 /\
  (exists copy, heap after_first_plot !! 1%nat = Some copy /\
                is_Some (cols copy !! "time_in_days") /\
                is_Some (cols copy !! "day")) /\
  cols participant_1001 !! "time_in_days" = None /\
  cols participant_1001 !! "day" = None.
Proof.
split.
- apply (plotter_keeps_input iso_lib 0 (SInt 1001) "out"
           (Fin 95) (Fin 150) (Fin 95) (Fin 150)
           (world_with participant_1001) 0 participant_1001).
  reflexivity.
- split; [| split; reflexivity].
  vm_compute. eexists. split; [reflexivity |]. split; eexists; reflexivity.
Defined.

(** ** The rows of one participant *)





Lemma scalar_eqb_refl (v : scalar) : is_missing v = false -> scalar_eqb v v = true.
Proof.
destruct v as [z | [q |] | s | [t |] | [d |]]; cbn; intros H; try discriminate H.
- apply Z.eqb_refl.
- apply Qeq_bool_iff. reflexivity.
- apply String.eqb_refl.
- apply Z.eqb_refl.
- apply Z.eqb_refl.
Qed.










(** ** The batch loop returns on plottable batch files *)

Section LoopReturns.

Context (lib : Lib) (root : string) (w : world).








End LoopReturns.

(** ** The batch loop with missing batch files *)











(** * Further properties *)

(** ** Errors of the calculators *)

(** X1. The analysis calculator raises a [KeyError] without the glucose
    column, a [ZeroDivisionError] on a frame without rows (the mean and the
    deviation of no readings are NaN and raise nothing), and a [TypeError]
    on a glucose column of strings, on which the range calculator raises a
    [TypeError] as well. *)
Theorem calculator_errors
    (no_column empty text : DataFrame) (xs : list (option Q)) (ss : list string)
    (low_range high_range : Q) :
  cols no_column !! "blood_glucose_value" = None ->
  glucose_of empty = Return xs ->
  nrows empty = 0%nat ->
  cols text !! "blood_glucose_value" = Some (StrCol ss) ->
  calculate_glucose_analysis no_column low_range high_range
    = Raise (KeyError "blood_glucose_value") /\
  calculate_glucose_analysis empty low_range high_range = Raise ZeroDivisionError /\
  calculate_glucose_analysis text low_range high_range = Raise TypeError /\
  calculate_glucose_ranges text = Raise TypeError.
Proof.
intros Hmiss Hxs Hn Htext.
assert (glucose_of text = Raise TypeError) as Ht
  by (unfold glucose_of, getitem; rewrite Htext; reflexivity).
split; [| split; [| split]].
- unfold calculate_glucose_analysis. rewrite (glucose_of_missing _ Hmiss). reflexivity.
- unfold calculate_glucose_analysis. rewrite Hxs, Hn. reflexivity.
- unfold calculate_glucose_analysis. rewrite Ht. reflexivity.
- unfold calculate_glucose_ranges. rewrite Ht. reflexivity.
Qed.

Lemma calculator_errors_witness :
  calculate_glucose_analysis frame_without_glucose default_low_range default_high_range
    = Raise (KeyError "blood_glucose_value") /\
  calculate_glucose_analysis series_empty default_low_range default_high_range
    = Raise ZeroDivisionError /\
  calculate_glucose_analysis series_of_text default_low_range default_high_range
    = Raise TypeError /\
  calculate_glucose_ranges series_of_text = Raise TypeError.
Proof.
apply (calculator_errors frame_without_glucose series_empty series_of_text
         [] ["high"; "low"]); reflexivity.
Defined.

(** ** The three percentages on any series *)

Lemma count_true_le {A : Type} (f : A -> bool) (xs : list A) :
  (count_true (map f xs) <= length xs)%nat.
Proof.
induction xs as [| x xs IH]; cbn [map count_true length]; [lia |].
destruct (f x); lia.
Qed.

Lemma percent_bounds (k n : nat) :
  n <> 0%nat -> (k <= n)%nat -> 0 <= percent k n /\ percent k n <= 100.
Proof.
intros Hn Hk. destruct (ratio_bounds k n Hn Hk) as [R0 R1].
destruct (percent_error k n Hn Hk) as (P0 & _).
split; [exact P0 |]. unfold percent.
assert (round_fin (Qnat k / Qnat n) <= 1) as H1.
{ apply (round_fin_between 0 1); [reflexivity | | exact R0 | exact R1].
  apply Qeq_bool_iff. vm_compute. reflexivity. }
apply (round_fin_between 0 100).
- reflexivity.
- apply Qeq_bool_iff. vm_compute. reflexivity.
- pose proof (round_fin_nonneg _ R0). lra.
- lra.
Qed.

(** X2. On a series with at least one row, whatever the bounds and with or
    without missing values, each of TIR, TAR and TBR lies between 0 and
    100. *)
Theorem percentages_within_0_100
    (data : DataFrame) (xs : list (option Q)) (low_range high_range : Q) :
  glucose_of data = Return xs ->
  length xs = nrows data ->
  nrows data <> 0%nat ->
  exists mean std cv tir tar tbr,
    calculate_glucose_analysis data low_range high_range
    = Return (mean, std, cv, tir, tar, tbr) /\
    (0 <= tir /\ tir <= 100) /\ (0 <= tar /\ tar <= 100) /\
    (0 <= tbr /\ tbr <= 100).
Proof.
intros Hg Hlen Hn.
rewrite (calculate_glucose_analysis_returns data xs low_range high_range Hg Hn).
eexists _, _, _, _, _, _. split; [reflexivity |].
rewrite <- Hlen in *.
split; [| split]; apply percent_bounds; try exact Hn; apply count_true_le.
Qed.

Lemma percentages_within_0_100_witness :
  exists mean std cv tir tar tbr,
    calculate_glucose_analysis series_with_gap 100 70
    = Return (mean, std, cv, tir, tar, tbr) /\
    (0 <= tir /\ tir <= 100) /\ (0 <= tar /\ tar <= 100) /\
    (0 <= tbr /\ tbr <= 100).
Proof.
apply (percentages_within_0_100 series_with_gap
         [Some 60; None; Some 100; Some 150] 100 70).
- reflexivity.
- reflexivity.
- simpl. discriminate.
Defined.

Lemma dropna_length_le (xs : list (option Q)) : (length (dropna xs) <= length xs)%nat.
Proof. induction xs as [| [v |] xs IH]; cbn [dropna length]; lia. Qed.

Lemma dropna_missing (xs : list (option Q)) :
  List.Exists (fun x => x = None) xs -> (length (dropna xs) < length xs)%nat.
Proof.
induction 1 as [[v |] xs Hx | [v |] xs Hx IH]; cbn [dropna length];
  try discriminate; pose proof (dropna_length_le xs); lia.
Qed.

(** X3. With ordered bounds the three percentages add up, within the
    floating tolerance [1e-13], to the share of the rows whose glucose
    value is present, as an exact sum and as the float64 sum: a missing
    value is in none of the three classes, so with a missing value among
    [n] rows the sum is at most [100 - 100 / n], up to the tolerance. *)
Theorem percentages_sum_to_present_share
    (data : DataFrame) (xs : list (option Q)) (low_range high_range : Q) :
  glucose_of data = Return xs ->
  length xs = nrows data ->
  nrows data <> 0%nat ->
  low_range <= high_range ->
  let share := Qnat (length (dropna xs)) / Qnat (length xs) in
  exists mean std cv tir tar tbr,
    calculate_glucose_analysis data low_range high_range
    = Return (mean, std, cv, tir, tar, tbr) /\
    Qabs (tir + tar + tbr - 100 * share) <= percent_tolerance /\
    Qabs (float_sum3 tir tar tbr - 100 * share) <= percent_tolerance /\
    (List.Exists (fun x => x = None) xs ->
     tir + tar + tbr <= 100 - 100 / Qnat (length xs) + percent_tolerance).
Proof.
intros Hg Hlen Hn Hlh share.
rewrite (calculate_glucose_analysis_returns data xs low_range high_range Hg Hn).
eexists _, _, _, _, _, _. split; [reflexivity |].
rewrite <- Hlen in *.
destruct (mask_counts low_range high_range xs) as (-> & -> & ->).
pose proof (class_counts_add_up low_range high_range xs Hlh) as Hsum.
pose proof (dropna_length_le xs) as Hle.
destruct (percent_sum _ _ _ _ (length xs) Hn Hsum Hle) as [S1 S2].
fold share in S1, S2.
split; [exact S1 |]. split; [exact S2 |].
intros Hmiss. pose proof (dropna_missing xs Hmiss) as Hlt.
pose proof (Qnat_pos (length xs) Hn) as P.
assert (share <= 1 - 1 / Qnat (length xs)) as Hshare.
{ assert (Qnat (length (dropna xs)) + 1 <= Qnat (length xs)) as H1.
  { unfold Qnat. change 1 with (inject_Z 1) at 1.
    rewrite <- inject_Z_plus, <- Zle_Qle. lia. }
  subst share.
  assert (1 - 1 / Qnat (length xs) == (Qnat (length xs) - 1) / Qnat (length xs)) as ->
    by (field; lra).
  apply Qle_shift_div_l; [exact P |].
  assert (Qnat (length (dropna xs)) / Qnat (length xs) * Qnat (length xs)
          == Qnat (length (dropna xs))) as -> by (field; lra).
  lra. }
apply Qabs_Qle_condition in S1. destruct S1 as [_ S1].
assert (100 / Qnat (length xs) == 100 * (1 / Qnat (length xs))) as -> by (field; lra).
set (u := 1 / Qnat (length xs)) in *. clearbody share u. unfold percent_tolerance in *. lra.
Qed.

Lemma percentages_sum_to_present_share_witness :
  exists mean std cv tir tar tbr,
    calculate_glucose_analysis series_with_gap default_low_range default_high_range
    = Return (mean, std, cv, tir, tar, tbr) /\
    Qabs (tir + tar + tbr - 100 * (3 / 4)) <= percent_tolerance.
Proof.
destruct (percentages_sum_to_present_share series_with_gap
            [Some 60; None; Some 100; Some 150]
            default_low_range default_high_range)
  as (mean & std & cv & tir & tar & tbr & Hr & Hs & _).
- reflexivity.
- reflexivity.
- simpl. discriminate.
- unfold default_low_range, default_high_range, Qle. simpl. lia.
- exists mean, std, cv, tir, tar, tbr. split; [exact Hr | exact Hs].
Defined.

(** ** The range of a series of one value *)

Lemma fold_Qmin_ge (lo : Q) (ys : list Q) (y : Q) :
  (forall z, In z (y :: ys) -> lo <= z) -> lo <= fold_left Qmin ys y.
Proof.
revert y. induction ys as [| a ys IH]; intros y Hall; cbn [fold_left].
- apply Hall. left. reflexivity.
- apply IH. intros z [<- | Hz].
  + unfold Qmin. destruct (Qle_bool y a); apply Hall; cbn; auto.
  + apply Hall. right. right. exact Hz.
Qed.

Lemma fold_Qmax_le (hi : Q) (ys : list Q) (y : Q) :
  (forall z, In z (y :: ys) -> z <= hi) -> fold_left Qmax ys y <= hi.
Proof.
revert y. induction ys as [| a ys IH]; intros y Hall; cbn [fold_left].
- apply Hall. left. reflexivity.
- apply IH. intros z [<- | Hz].
  + unfold Qmax. destruct (Qle_bool y a); apply Hall; cbn; auto.
  + apply Hall. right. right. exact Hz.
Qed.

Lemma glucose_in_range_proper (ints : bool) (x c : Q) :
  x == c -> glucose_in_range ints c -> glucose_in_range ints x.
Proof.
intros E [R B]. split.
- unfold representable in *. rewrite (round_fin_proper x c E), R, E. reflexivity.
- rewrite E. exact B.
Qed.

(** X5. When every glucose value that is present equals [c], and one is,
    with [c] a float64 of magnitude at most [2 ^ 1022], or an int64 of
    magnitude at most [2 ^ 53] in an integer column, the range calculator
    returns [c] four times: the two alert thresholds coincide with the
    minimum and the maximum. *)
Theorem ranges_of_constant_series
    (data : DataFrame) (xs : list (option Q)) (c : Q) :
  glucose_of data = Return xs ->
  dropna xs <> [] ->
  (forall x, In (Some x) xs -> x == c) ->
  glucose_in_range (int_dtype data) c ->
  exists low high bg_min bg_max : Q,
    calculate_glucose_ranges data
    = Return (Fin low, Fin high, Fin bg_min, Fin bg_max) /\
    low == c /\ high == c /\ bg_min == c /\ bg_max == c.
Proof.
intros Hg Hne Hall Hc.
rewrite (calculate_glucose_ranges_returns data xs Hg).
destruct (series_quantile_rank (int_dtype data) xs) as [-> ->].
unfold series_min, series_max.
destruct (dropna xs) as [| y ys] eqn:E; [congruence |].
set (zs := y :: ys) in *.
assert (forall z, In z zs -> z == c) as Hzs.
{ intros z Hz. apply Hall. apply dropna_In. rewrite E. exact Hz. }
assert (forall z, In z zs -> c <= z) as Hlo by (intros z Hz; rewrite (Hzs z Hz); lra).
assert (forall z, In z zs -> z <= c) as Hhi by (intros z Hz; rewrite (Hzs z Hz); lra).
assert (forall z, In z zs -> glucose_in_range (int_dtype data) z) as Hrange.
{ intros z Hz. apply (glucose_in_range_proper _ z c (Hzs z Hz) Hc). }
assert (int_dtype data = true -> forall z, In z zs -> z == inject_Z (Qfloor z)) as Hint.
{ intros Hi z Hz. apply (int_dtype_integers data xs Hg Hi). rewrite E. exact Hz. }
destruct (quantiles_ordered (int_dtype data) zs Hrange Hint Hne)
  as (low & high & -> & -> & (a & Ia & La) & (b & Ib & Ub) & Hlh).
pose proof (Hzs a Ia) as Ea. pose proof (Hzs b Ib) as Eb.
pose proof (fold_Qmin_ge c ys y Hlo) as H5.
pose proof (fold_Qmin_le ys y y (or_introl eq_refl)) as H6.
pose proof (fold_Qmax_le c ys y Hhi) as H7.
pose proof (fold_Qmax_ge ys y y (or_introl eq_refl)) as H8.
assert (y == c) as Hy by (apply Hzs; left; reflexivity).
eexists _, _, _, _. split; [reflexivity |].
repeat split; lra.
Qed.

Lemma ranges_of_constant_series_witness :
  exists low high bg_min bg_max : Q,
    calculate_glucose_ranges series_flat
    = Return (Fin low, Fin high, Fin bg_min, Fin bg_max) /\
    low == 104 /\ high == 104 /\ bg_min == 104 /\ bg_max == 104.
Proof.
apply (ranges_of_constant_series series_flat [Some 104; Some 104; Some 104]).
- reflexivity.
- simpl. discriminate.
- intros x [H | [H | [H | []]]]; injection H as <-; reflexivity.
- split; [apply Qeq_bool_iff | apply Qle_bool_iff]; vm_compute; reflexivity.
Defined.

(** ** One plot per participant *)

Lemma string_length_app (a b : string) :
  String.length (a +:+ b) = (String.length a + String.length b)%nat.
Proof.
induction a as [| x a IH]; [reflexivity |].
change (String x a +:+ b) with (String x (a +:+ b)).
cbn [String.length]. now rewrite IH.
Qed.

Lemma string_app_inv_tail (a b t : string) : a +:+ t = b +:+ t -> a = b.
Proof.
revert b. induction a as [| x a IH]; intros [| y b] H.
- reflexivity.
- exfalso. apply (f_equal String.length) in H.
  change (String y b +:+ t) with (String y (b +:+ t)) in H.
  change ("" +:+ t) with t in H.
  cbn [String.length] in H. rewrite string_length_app in H. lia.
- exfalso. apply (f_equal String.length) in H.
  change (String x a +:+ t) with (String x (a +:+ t)) in H.
  change ("" +:+ t) with t in H.
  cbn [String.length] in H. rewrite string_length_app in H. lia.
- change (String x (a +:+ t) = String y (b +:+ t)) in H.
  injection H as -> H. f_equal. apply IH, H.
Qed.

Lemma plot_path_of_inj (lib : Lib) (output_dir : string) (p q : scalar) :
  plot_path_of lib output_dir p = plot_path_of lib output_dir q ->
  py_str lib p = py_str lib q.
Proof.
rewrite !plot_path_of_shape. intros H.
apply String.app_inj in H. apply String.app_inj in H.
apply String.app_inj in H. apply string_app_inv_tail in H. exact H.
Qed.

(** X7. Two participants with different integer ids, or with different
    string ids, are plotted to different files of the output directory:
    no participant's plot overwrites another's. *)
Theorem plot_paths_distinct
    (lib : Lib) (output_dir : string) (a b : Z) (s t : string) :
  a <> b ->
  s <> t ->
  plot_path_of lib output_dir (SInt a) <> plot_path_of lib output_dir (SInt b) /\
  plot_path_of lib output_dir (SStr s) <> plot_path_of lib output_dir (SStr t).
Proof.
intros Hab Hst. split; intros H; apply plot_path_of_inj in H; cbn [py_str] in H.
- apply Hab. apply (inj pretty). exact H.
- apply Hst, H.
Qed.

Lemma plot_paths_distinct_witness :
  plot_path_of iso_lib "out" (SInt 1001) <> plot_path_of iso_lib "out" (SInt 1002) /\
  plot_path_of iso_lib "out" (SStr "a-17") <> plot_path_of iso_lib "out" (SStr "a-71").
Proof.
apply (plot_paths_distinct iso_lib "out" 1001 1002 "a-17" "a-71"); discriminate.
Defined.

(** ** The plotter, step by step *)

Section PlotterSteps.

Context (lib : Lib) (w0 : world).

(** A block that reads a column of the copy and applies [f] to it. *)
Lemma block_at {B : Type} (l : nat) (df : DataFrame) (figs : list (nat * figure))
    (key : string) (f : column -> result B) :
  triple (plotter_at w0 l df figs)
         (let* c := column_of l key in lift (f c))
         (fun v w => (let? c := getitem df key in f c) = Return v /\
                     plotter_at w0 l df figs w)
         (fun e w => (let? c := getitem df key in f c) = Raise e /\
                     plotter_at w0 l df figs w).
Proof.
intros w Hw. pose proof Hw as (Hh & _).
unfold bind, column_of, bind, read_frame, lift.
rewrite Hh. cbv beta iota.
destruct (getitem df key) as [c | e]; cbn [result_bind]; cbv beta iota.
- destruct (f c) as [v | e]; split; auto.
- split; auto.
Qed.



Lemma block_at_raise {B : Type} (l : nat) (df : DataFrame)
    (figs : list (nat * figure)) (key : string) (f : column -> result B)
    (e : exn) :
  (let? c := getitem df key in f c) = Raise e ->
  triple (plotter_at w0 l df figs)
         (let* c := column_of l key in lift (f c))
         (fun _ _ => False)
         (fun e' w => e' = e /\ plotter_at w0 l df figs w).
Proof.
intros Hf.
eapply triple_conseq; [apply (block_at l df figs key f) | auto | |].
- intros v w [H Hw]. congruence.
- intros e' w [H Hw]. split; [congruence | exact Hw].
Qed.

(** [data = data.copy()] *)
Lemma copy_at (data : nat) (df : DataFrame) (E : exn -> world -> Prop) :
  heap w0 !! data = Some df ->
  triple (fun w => w = w0)
         (let* df := read_frame data in new_frame df)
         (fun l => plotter_at w0 l df (figures w0)) E.
Proof.
intros Hdata w ->. unfold bind, read_frame, new_frame. rewrite Hdata. cbn.
repeat split; auto. apply lookup_insert_eq.
Qed.


Lemma parse_all_raises (parse : string -> option (option Z)) (xs : list string)
    (e : exn) :
  parse_all parse xs = Raise e -> e = ValueError.
Proof.
induction xs as [| x xs IH]; cbn; [discriminate |].
destruct (parse x); [| congruence].
destruct (parse_all parse xs) as [ts | e']; cbn; [discriminate |].
intros [= <-]. apply IH. reflexivity.
Qed.

Lemma to_datetime_raises (c : column) (e : exn) :
  to_datetime lib c = Raise e -> e = ValueError.
Proof.
destruct c as [xs | xs | xs | xs | xs]; cbn; try discriminate.
destruct (parse_all (parse_datetime lib) xs) as [ts | e'] eqn:Hp; cbn;
  [discriminate |].
intros [= <-]. eapply parse_all_raises, Hp.
Qed.

(** X8. When the frame has no [timestamp] column, or one that
    [pd.to_datetime] rejects, the plotter raises ([KeyError], [ValueError])
    before it creates a figure: no figure is open that was not, no file is
    written and nothing is printed. *)
Theorem plotter_rejects_timestamps
    (data : nat) (pid : scalar) (output_dir : string)
    (low_value high_value bg_min bg_max : float64) (df : DataFrame) (e : exn) :
  heap w0 !! data = Some df ->
  (let? c := getitem df "timestamp" in to_datetime lib c) = Raise e ->
  exists w',
    plot_and_save_graph lib data pid output_dir
      low_value high_value bg_min bg_max w0 = (Raise e, w') /\
    (e = KeyError "timestamp" \/ e = ValueError) /\
    figures w' = figures w0 /\ fs w' = fs w0 /\ stdout w' = stdout w0.
Proof.
intros Hdata Hts.
assert (triple (fun w => w = w0)
          (plot_and_save_graph lib data pid output_dir
             low_value high_value bg_min bg_max)
          (fun _ _ => False)
          (fun e' w => e' = e /\ figures w = figures w0 /\ fs w = fs w0 /\
                       stdout w = stdout w0)) as S.
{ unfold plot_and_save_graph.
  eapply triple_bind; [apply copy_at, Hdata |]. intros l.
  eapply triple_bind with (Q := fun _ _ => False).
  - eapply triple_conseq;
      [apply (block_at_raise l df (figures w0) _ _ e Hts) | auto | auto |].
    intros e' w [-> (_ & Hfs & Hfig & Hout)]. auto.
  - intros c w []. }
specialize (S w0 eq_refl).
destruct (plot_and_save_graph lib data pid output_dir
            low_value high_value bg_min bg_max w0) as [[u | e'] w']; [destruct S |].
destruct S as (-> & Hfig & Hfs & Hout).
exists w'. split; [reflexivity |]. split; [| auto].
unfold getitem in Hts. destruct (cols df !! "timestamp") as [c |]; cbn in Hts.
- right. eapply to_datetime_raises, Hts.
- left. congruence.
Qed.

End PlotterSteps.

Lemma plotter_rejects_timestamps_witness :
  exists w',
    plot_and_save_graph iso_lib 0 (SInt 1001) "out"
      (Fin 95) (Fin 150) (Fin 95) (Fin 150)
      (world_with participant_bad_timestamp) = (Raise ValueError, w') /\
    (ValueError = KeyError "timestamp" \/ ValueError = ValueError) /\
    figures w' = figures (world_with participant_bad_timestamp) /\
    fs w' = fs (world_with participant_bad_timestamp) /\
    stdout w' = stdout (world_with participant_bad_timestamp).
Proof.
apply (plotter_rejects_timestamps iso_lib (world_with participant_bad_timestamp)
         0 (SInt 1001) "out" (Fin 95) (Fin 150) (Fin 95) (Fin 150)
         participant_bad_timestamp ValueError).
- reflexivity.
- vm_compute. reflexivity.
Defined.

(** ** The first-row study group *)





Section PlotterFigure.

Context (lib : Lib) (w0 : world).


End PlotterFigure.


(** ** The figure that is saved *)




Section SavedFigure.

Context (lib : Lib) (w0 : world).








End SavedFigure.


(** Float timestamps lose their fraction toward zero: half a nanosecond
    before the epoch is the epoch itself, the same calendar date. *)
Lemma to_datetime_truncates (lib : Lib) :
  to_datetime lib (FloatCol [Some (-1 # 2); Some 0; Some (3 # 2)])
  = Return (TimeCol [Some 0%Z; Some 0%Z; Some 1%Z]).
Proof. reflexivity. Qed.

(** ** What the batch loop never does *)

Section Preserves.

Context {A B : Type} (R : world -> world -> Prop).
Context (R_refl : forall w, R w w).
Context (R_trans : forall a b c, R a b -> R b c -> R a c).

Lemma preserves_bind (c : M A) (k : A -> M B) :
  preserves R c -> (forall a, preserves R (k a)) -> preserves R (bind c k).
Proof using R_trans.
intros Hc Hk w. unfold bind. specialize (Hc w).
destruct (c w) as [[a | e] w1]; cbn in *; [| exact Hc].
eapply R_trans; [exact Hc | apply Hk].
Qed.

Lemma preserves_reads (c : M A) : reads c -> preserves R c.
Proof using R_refl. intros Hc w. rewrite (Hc w). apply R_refl. Qed.

End Preserves.

Lemma preserves_for_each {A : Type} (R : world -> world -> Prop)
    (xs : list A) (body : A -> M unit) :
  (forall w, R w w) -> (forall a b c, R a b -> R b c -> R a c) ->
  (forall x, preserves R (body x)) -> preserves R (for_each xs body).
Proof.
intros Hrefl Htrans Hbody. induction xs as [| x xs IH]; cbn [for_each].
- intros w. apply Hrefl.
- apply preserves_bind; [exact Htrans | apply Hbody | intros u; exact IH].
Qed.

Section Quiet.

Context (lib : Lib) (output_dir : string).

Lemma quiet_refl (w : world) : quiet lib output_dir w w.
Proof. split; auto. Qed.

Lemma quiet_trans (a b c : world) :
  quiet lib output_dir a b -> quiet lib output_dir b c -> quiet lib output_dir a c.
Proof.
intros [H1 H2] [H3 H4]. split; [congruence |].
intros p Hp. rewrite (H4 p Hp). apply H2, Hp.
Qed.

Lemma quiet_keeps_files {A : Type} (c : M A) :
  keeps_files c -> preserves (quiet lib output_dir) c.
Proof.
intros Hc w. destruct (Hc w) as [Hfs Hout]. split; [exact Hout |].
intros p _. now rewrite Hfs.
Qed.

Lemma quiet_plot (data : nat) (pid : scalar)
    (low_value high_value bg_min bg_max : float64) :
  preserves (quiet lib output_dir)
    (plot_and_save_graph lib data pid output_dir low_value high_value bg_min bg_max).
Proof.
intros w.
pose proof (plot_and_save_graph_spec lib w data pid output_dir
              low_value high_value bg_min bg_max w eq_refl) as S.
destruct (plot_and_save_graph lib data pid output_dir
            low_value high_value bg_min bg_max w) as [[u | e] w']; cbn.
- destruct S as ([image Hfs] & _ & Hout & _). split; [exact Hout |].
  intros p Hp. rewrite Hfs. apply lookup_insert_ne. intros Heq.
  apply (Hp pid). symmetry. exact Heq.
- destruct S as (Hfs & _ & Hout & _). split; [exact Hout |].
  intros p _. now rewrite Hfs.
Qed.

Lemma keeps_files_pd_read_csv (path : string) : keeps_files (pd_read_csv path).
Proof.
intros w. unfold pd_read_csv.
destruct (fs w !! path) as [[| table | image] |]; split; reflexivity.
Qed.

Lemma quiet_process_participant (df : nat) (pid : scalar) :
  preserves (quiet lib output_dir) (process_participant lib df output_dir pid).
Proof.
unfold process_participant.
apply preserves_bind; [apply quiet_trans | |].
- apply quiet_keeps_files.
  apply keeps_files_bind; [apply keeps_files_reads, reads_read_frame |].
  intros d. apply keeps_files_bind; [apply keeps_files_reads, reads_column_of |].
  intros ids. apply keeps_files_new_frame.
- intros participant_data.
  apply preserves_bind; [apply quiet_trans | |].
  + apply preserves_reads; [apply quiet_refl | apply reads_call_ranges].
  + intros [[[low_value high_value] bg_min] bg_max]. apply quiet_plot.
Qed.

Lemma quiet_process_batch (root batch_file : string) :
  preserves (quiet lib output_dir) (process_batch lib root output_dir batch_file).
Proof.
unfold process_batch.
apply preserves_bind; [apply quiet_trans | |].
- apply preserves_reads; [apply quiet_refl | apply reads_os_path_exists].
- intros [|]; [| intros w; apply quiet_refl].
  apply preserves_bind; [apply quiet_trans | |].
  + apply quiet_keeps_files, keeps_files_pd_read_csv.
  + intros df. apply preserves_bind; [apply quiet_trans | |].
    * apply preserves_reads; [apply quiet_refl |].
      apply reads_bind; [apply reads_column_of | intros c; apply reads_ret].
    * intros participants.
      apply preserves_for_each; [apply quiet_refl | apply quiet_trans |].
      intros pid. apply quiet_process_participant.
Qed.

End Quiet.

(** X11. Whatever the batch files hold, the loop prints the completion line
    once, at the end, when it returns, and prints nothing when a batch file
    or a participant makes it raise; and in both cases the only paths whose
    content may have changed are plot paths of the output directory. *)
Theorem batch_loop_console_and_files
    (lib : Lib) (root : string) (files : list string) (w : world) :
  match batch_loop lib root files w with
  | (Return _, w') =>
      stdout w' = stdout w ++ [completion_line (plots_dir root)]
  | (Raise _, w') => stdout w' = stdout w
  end /\
  forall p, (forall pid, p <> plot_path_of lib (plots_dir root) pid) ->
            fs (snd (batch_loop lib root files w)) !! p = fs w !! p.
Proof.
pose proof (preserves_for_each (quiet lib (plots_dir root)) files
              (process_batch lib root (plots_dir root))
              (quiet_refl lib _) (quiet_trans lib _)
              (fun f => quiet_process_batch lib _ root f) w) as [Hout Hfs].
unfold batch_loop, bind. cbv zeta.
destruct (for_each files (process_batch lib root (plots_dir root)) w)
  as [[u | e] w1]; cbn in *.
- split; [now rewrite Hout | exact Hfs].
- split; [exact Hout | exact Hfs].
Qed.

(** X12. The loop never changes a batch file: whatever list of files it is
    run on and whether it returns or raises, each of the eight batch paths
    holds afterwards what it held before. *)
Theorem batch_files_untouched
    (lib : Lib) (root : string) (files : list string) (w : world) (f : string) :
  In f batch_files ->
  fs (snd (batch_loop lib root files w)) !! os_path_join root f
  = fs w !! os_path_join root f.
Proof.
intros Hf.
pose proof (preserves_for_each (quiet lib (plots_dir root)) files
              (process_batch lib root (plots_dir root))
              (quiet_refl lib _) (quiet_trans lib _)
              (fun g => quiet_process_batch lib _ root g) w) as [_ Hfs].
assert (forall pid, os_path_join root f <> plot_path_of lib (plots_dir root) pid)
  as Hne.
{ intros pid Heq. symmetry in Heq. revert Heq. apply plot_path_not_batch, Hf. }
unfold batch_loop, bind. cbv zeta.
destruct (for_each files (process_batch lib root (plots_dir root)) w)
  as [[u | e] w1]; cbn in *; apply Hfs, Hne.
Qed.

Lemma batch_files_untouched_witness :
  fs (snd (batch_loop iso_lib "data" batch_files world_three_batches_ready))
    !! os_path_join "data" "cleaned_data/batch_300_400.csv"
  = Some (CsvFile batch_table_b).
Proof.
rewrite (batch_files_untouched iso_lib "data" batch_files
           world_three_batches_ready "cleaned_data/batch_300_400.csv").
- vm_compute. reflexivity.
- vm_compute. auto 10.
Defined.

(** ** Running the batch loop again *)





(** ** Elapsed time *)






(** ** The output directory *)

Lemma split_last_sep_app (a b : string) :
  split_last_sep b = (None, b) ->
  split_last_sep (a +:+ b)
  = (fst (split_last_sep a), snd (split_last_sep a) +:+ b).
Proof.
intros Hb. induction a as [| c a IH].
- exact Hb.
- change (String c a +:+ b) with (String c (a +:+ b)).
  cbn [split_last_sep]. rewrite IH.
  destruct (split_last_sep a) as [[h |] t]; cbn [fst snd]; [reflexivity |].
  destruct (is_sep c); reflexivity.
Qed.

Lemma plots_dir_tail (root : string) :
  snd (os_path_split (plots_dir root)) <> "".
Proof.
assert (exists a, plots_dir root = a +:+ "healthy_plots") as [a ->].
{ unfold os_path_join. cbn [starts_with_sep is_sep Ascii.eqb].
  change (starts_with_sep "healthy_plots") with false. cbv iota.
  destruct (String.eqb root "" || ends_with_sep root).
  - exists root. reflexivity.
  - exists (root +:+ "/"). rewrite string_app_assoc. reflexivity. }
unfold os_path_split. rewrite split_last_sep_app by reflexivity.
assert (forall t : string, t +:+ "healthy_plots" <> "") as Hne.
{ intros [| c t]; discriminate. }
destruct (split_last_sep a) as [[h |] t]; cbn [fst snd].
- destruct (rstrip_sep h); apply Hne.
- apply Hne.
Qed.

Lemma os_makedirs_parent_present (name : string) (w : world) :
  snd (os_path_split name) <> "" ->
  os_path_dirname name = "" \/ is_Some (fs w !! os_path_dirname name) ->
  os_makedirs name w
  = match os_mkdir name w with
    | (Raise e, w') =>
        match fs w' !! name with
        | Some Dir => (Return tt, w')
        | _ => (Raise e, w')
        end
    | r => r
    end.
Proof.
unfold os_makedirs, os_path_dirname. intros Htail Hhead.
assert (forall fuel, os_makedirs_rec fuel name w
        = match os_mkdir name w with
          | (Raise e, w') =>
              match fs w' !! name with
              | Some Dir => (Return tt, w')
              | _ => (Raise e, w')
              end
          | r => r
          end) as H; [| apply H].
intros fuel.
destruct (os_path_split name) as [head tail] eqn:Hsplit. cbn [fst snd] in *.
assert (String.eqb tail "" = false) as Et by (apply String.eqb_neq, Htail).
assert (negb (String.eqb head "") && negb (String.eqb tail "")
        && negb (bool_decide (is_Some (fs w !! head))) = false) as Ec.
{ destruct Hhead as [-> | Hh]; [reflexivity |].
  rewrite (bool_decide_eq_true_2 _ Hh). cbn [negb].
  now rewrite andb_false_r. }
destruct fuel; cbn [os_makedirs_rec]; rewrite Hsplit, Et, Ec; reflexivity.
Qed.

(** X15. The script's [os.makedirs(output_dir, exist_ok=True)], when the
    parent of the output directory exists (or the path has no parent):
    an output directory that is already there is accepted and left as it
    is; a missing one is created under a parent that is a directory; and
    when the output path is a file the script stops with a
    [FileExistsError] before it reads a batch, having changed and printed
    nothing. *)
Theorem run_with_output_dir
    (lib : Lib) (root : string) (files : list string) (w : world) :
  os_path_dirname (plots_dir root) = ""
  \/ is_Some (fs w !! os_path_dirname (plots_dir root)) ->
  (fs w !! plots_dir root = Some Dir ->
     run lib root files w = batch_loop lib root files w) /\
  (fs w !! plots_dir root = None ->
     os_path_dirname (plots_dir root) = ""
     \/ fs w !! os_path_dirname (plots_dir root) = Some Dir ->
     run lib root files w
     = batch_loop lib root files (set_fs (<[plots_dir root := Dir]> (fs w)) w)) /\
  (forall node, fs w !! plots_dir root = Some node -> node <> Dir ->
     run lib root files w = (Raise (FileExistsError (plots_dir root)), w)).
Proof.
intros Hparent.
pose proof (os_makedirs_parent_present (plots_dir root) w
              (plots_dir_tail root) Hparent) as Hmk.
unfold run, bind. cbv zeta. rewrite Hmk. unfold os_mkdir.
split; [| split].
- intros Hdir. rewrite Hdir. cbv iota beta. rewrite Hdir. reflexivity.
- intros Hnone Hdir. rewrite Hnone.
  destruct Hdir as [-> | ->]; [reflexivity |].
  destruct (String.eqb _ ""); reflexivity.
- intros node Hnode Hfile. rewrite Hnode. cbv iota beta. rewrite Hnode.
  destruct node; [contradiction | reflexivity | reflexivity].
Qed.

Lemma run_with_output_dir_witness :
  run iso_lib "data" batch_files world_three_batches_ready
  = batch_loop iso_lib "data" batch_files world_three_batches_ready.
Proof.
refine (proj1 (run_with_output_dir iso_lib "data" batch_files
                 world_three_batches_ready _) _).
- right. vm_compute. eauto.
- vm_compute. reflexivity.
Defined.

(** ** Rows, days and participants *)

Lemma opt_eqb_None_r {A : Type} (eqb : A -> A -> bool) (a : option A) :
  opt_eqb eqb a None = false.
Proof. destruct a; reflexivity. Qed.

Lemma scalar_eqb_present_l (a b : scalar) :
  scalar_eqb a b = true -> is_missing a = false.
Proof. destruct a as [| [|] | | [|] | [|]], b; cbn; congruence. Qed.

Lemma scalar_eqb_present_r (a b : scalar) :
  scalar_eqb a b = true -> is_missing b = false.
Proof.
destruct a, b as [| [|] | | [|] | [|]]; cbn; rewrite ?opt_eqb_None_r; congruence.
Qed.

Ltac scalar_eqs :=
  repeat match goal with
         | H : Z.eqb _ _ = true |- _ => apply Z.eqb_eq in H
         | H : Qeq_bool _ _ = true |- _ => apply Qeq_bool_iff in H
         | H : String.eqb _ _ = true |- _ => apply String.eqb_eq in H
         | |- Z.eqb _ _ = true => apply Z.eqb_eq
         | |- Qeq_bool _ _ = true => apply Qeq_bool_iff
         | |- String.eqb _ _ = true => apply String.eqb_eq
         end.

Lemma scalar_eqb_sym (a b : scalar) : scalar_eqb a b = true -> scalar_eqb b a = true.
Proof.
destruct a as [x | [x |] | x | [x |] | [x |]], b as [y | [y |] | y | [y |] | [y |]];
  cbn; try discriminate; intros H; scalar_eqs; try (symmetry; exact H).
Qed.

Lemma scalar_eqb_trans (a b c : scalar) :
  scalar_eqb a b = true -> scalar_eqb b c = true -> scalar_eqb a c = true.
Proof.
destruct a as [x | [x |] | x | [x |] | [x |]], b as [y | [y |] | y | [y |] | [y |]];
  cbn; try discriminate;
  destruct c as [z | [z |] | z | [z |] | [z |]]; cbn; try discriminate;
  intros H1 H2; scalar_eqs; try congruence; try (rewrite H1; exact H2);
  try (rewrite <- H2; exact H1).
- apply inject_Z_injective. rewrite H1. exact H2.
Qed.

Lemma existsb_eqb_seen (x y : scalar) (seen : list scalar) :
  scalar_eqb x y = true ->
  existsb (scalar_eqb x) seen = existsb (scalar_same y) seen.
Proof.
intros Hxy.
pose proof (scalar_eqb_present_r _ _ Hxy) as Hy.
induction seen as [| s seen IH]; [reflexivity |]. cbn [existsb]. rewrite IH. f_equal.
unfold scalar_same. rewrite Hy. cbn [andb]. rewrite orb_false_r.
destruct (scalar_eqb y s) eqn:Hys.
- exact (scalar_eqb_trans _ _ _ Hxy Hys).
- destruct (scalar_eqb x s) eqn:Hxs; [| reflexivity].
  rewrite (scalar_eqb_trans _ _ _ (scalar_eqb_sym _ _ Hxy) Hxs) in Hys.
  discriminate.
Qed.

Lemma unique_from_count (x : scalar) (xs seen : list scalar) :
  length (List.filter (scalar_eqb x) (unique_from seen xs))
  = if existsb (scalar_eqb x) seen then 0%nat
    else if existsb (scalar_eqb x) xs then 1%nat else 0%nat.
Proof.
revert seen. induction xs as [| y xs IH]; intros seen.
- cbn. destruct (existsb _ seen); reflexivity.
- cbn [unique_from existsb].
  destruct (scalar_eqb x y) eqn:Hxy.
  + rewrite (existsb_eqb_seen x y seen Hxy). cbn [orb].
    destruct (existsb (scalar_same y) seen) eqn:Hseen.
    * rewrite IH, (existsb_eqb_seen x y seen Hxy), Hseen. reflexivity.
    * cbn [List.filter]. rewrite Hxy. cbn [length]. rewrite IH.
      cbn [existsb]. rewrite Hxy. reflexivity.
  + cbn [orb]. destruct (existsb (scalar_same y) seen) eqn:Hseen.
    * apply IH.
    * cbn [List.filter]. rewrite Hxy, IH. cbn [existsb]. rewrite Hxy. reflexivity.
Qed.

(** X16. The groups the script forms with [unique()] and [==], the days of
    a participant and the participants of a batch, partition the rows that
    have a value: such a row is in the group of exactly one of the distinct
    values, so every reading with a date is drawn on one line and no
    reading is drawn twice; a row whose value is missing (NaT, NaN) is in
    no group. *)
Theorem each_row_in_one_group (c : column) (i : nat) (x : scalar) :
  nth_error (scalars c) i = Some x ->
  length (List.filter (fun v => nth i (eq_mask c v) false) (unique c))
  = if is_missing x then 0%nat else 1%nat.
Proof.
intros Hx.
assert (forall v, nth i (eq_mask c v) false = scalar_eqb x v) as Hmask.
{ intros v. unfold eq_mask.
  apply nth_error_nth. rewrite nth_error_map, Hx. reflexivity. }
rewrite (List.filter_ext _ _ Hmask). unfold unique. rewrite unique_from_count.
cbn [existsb]. destruct (is_missing x) eqn:Hm.
- destruct (existsb (scalar_eqb x) (scalars c)) eqn:He; [| reflexivity].
  apply existsb_exists in He as (v & _ & Hv).
  apply scalar_eqb_present_l in Hv. congruence.
- assert (existsb (scalar_eqb x) (scalars c) = true) as ->; [| reflexivity].
  apply existsb_exists. exists x. split.
  + eapply nth_error_In, Hx.
  + apply scalar_eqb_refl, Hm.
Qed.

Lemma each_row_in_one_group_witness :
  length (List.filter (fun v => nth 2 (eq_mask (IntCol [1001; 1002; 1001]%Z) v) false)
                 (unique (IntCol [1001; 1002; 1001]%Z))) = 1%nat.
Proof.
apply (each_row_in_one_group (IntCol [1001; 1002; 1001]%Z) 2 (SInt 1001)).
reflexivity.
Defined.
